(** * Event dispatch, batching, retry and observer fan-out

    A shallow embedding of the in-process event pipeline of the
    real-time event processor:

    - [ConcreteEventProcessorFactory]  (common/factories/event-processor.factory.ts)
    - [BaseEventProcessorStrategy.retry] (common/strategies/event-processor.strategy.ts)
    - [EventSubject.notify]            (common/observers/event-observer.pattern.ts)
    - [BatchProcessorService]          (modules/batch/services/batch-processor.service.ts)
    - [EventProcessorService.processEvent] (modules/event-processor/event-processor.service.ts)

    Asynchronous code is embedded in a state-and-exception monad over a
    world that carries a logical clock (milliseconds), the state of the
    external collaborators and a time-stamped trace of the calls made to
    them.  Functions that are called without being awaited are tasks of
    an event loop, which runs them in the order of time; promises are
    values that record when and how they settle.
    Logger calls are left out, except that where a [catch] block reads
    [error.message] for its log line the read is kept, since it raises on
    [undefined]. *)

From Stdlib Require Import List ZArith NArith Arith Bool String DecimalString Lia.
Import ListNotations.

Local Open Scope string_scope.
Local Open Scope list_scope.
Local Open Scope Z_scope.

Set Implicit Arguments.

(** ** Event types (common/types/event.types.ts) *)

Inductive EventType : Type :=
| ORDER_CREATED
| ORDER_UPDATED
| ORDER_CANCELLED
| PAYMENT_CONFIRMED
| PAYMENT_FAILED
| STOCK_UPDATED
| STOCK_RESERVED
| NOTIFICATION_REQUESTED.

(** [Object.values(EventType)]: the members in declaration order. *)
Definition EventType_values : list EventType :=
  [ORDER_CREATED; ORDER_UPDATED; ORDER_CANCELLED; PAYMENT_CONFIRMED;
   PAYMENT_FAILED; STOCK_UPDATED; STOCK_RESERVED; NOTIFICATION_REQUESTED].

(** The string value of each member, as used in template literals and
    as property name of [batchesByType]. *)
Definition EventType_toString (t : EventType) : string :=
  match t with
  | ORDER_CREATED => "ORDER_CREATED"
  | ORDER_UPDATED => "ORDER_UPDATED"
  | ORDER_CANCELLED => "ORDER_CANCELLED"
  | PAYMENT_CONFIRMED => "PAYMENT_CONFIRMED"
  | PAYMENT_FAILED => "PAYMENT_FAILED"
  | STOCK_UPDATED => "STOCK_UPDATED"
  | STOCK_RESERVED => "STOCK_RESERVED"
  | NOTIFICATION_REQUESTED => "NOTIFICATION_REQUESTED"
  end.

Definition EventType_eq_dec (a b : EventType) : {a = b} + {a <> b}.
Proof. decide equality. Defined.

(** ** Keys with a boolean equality *)

Class EqKey (K : Type) : Type := {
  keqb : K -> K -> bool;
  keqb_eq : forall a b, keqb a b = true <-> a = b
}.

#[export] Instance EventType_EqKey : EqKey EventType.
Proof.
  refine {| keqb := fun a b => if EventType_eq_dec a b then true else false |}.
  intros a b. destruct (EventType_eq_dec a b); split; congruence.
Defined.

#[export] Instance string_EqKey : EqKey string :=
  {| keqb := String.eqb; keqb_eq := String.eqb_eq |}.

Lemma keqb_refl {K} `{EqKey K} (a : K) : keqb a a = true.
Proof. now apply keqb_eq. Qed.

Lemma keqb_neq {K} `{EqKey K} (a b : K) : keqb a b = false <-> a <> b.
Proof.
  split.
  - intros E Heq. apply keqb_eq in Heq. congruence.
  - intros N. destruct (keqb a b) eqn:E; [apply keqb_eq in E; contradiction | reflexivity].
Qed.

Lemma keqb_sym {K} `{EqKey K} (a b : K) : keqb a b = keqb b a.
Proof.
  destruct (keqb b a) eqn:E.
  - apply keqb_eq in E. subst. apply keqb_refl.
  - apply keqb_neq in E. apply keqb_neq. congruence.
Qed.

(** ** JavaScript [Map]

    A [Map] iterates in insertion order and [set] on a present key keeps
    the key's position, so the map is an association list in insertion
    order.  A list stands for a [Map] when its keys are distinct
    ([JsMap.wf]); every operation preserves that.  [delete] drops the entry
    of a key, of which such a list has at most one. *)

Module JsMap.
Section Ops.
Context {K V : Type} `{EqKey K}.

Definition t : Type := list (K * V).

Definition empty : t := [].

Fixpoint get (k : K) (m : t) : option V :=
  match m with
  | [] => None
  | (k', v) :: m' => if keqb k k' then Some v else get k m'
  end.

Definition has (k : K) (m : t) : bool :=
  match get k m with Some _ => true | None => false end.

Fixpoint set (k : K) (v : V) (m : t) : t :=
  match m with
  | [] => [(k, v)]
  | (k', v') :: m' =>
      if keqb k k' then (k, v) :: m' else (k', v') :: set k v m'
  end.

Definition delete (k : K) (m : t) : t :=
  filter (fun kv => negb (keqb k (fst kv))) m.

Definition keys (m : t) : list K := map fst m.
Definition values (m : t) : list V := map snd m.
Definition entries (m : t) : list (K * V) := m.
Definition size (m : t) : nat := List.length m.

Definition wf (m : t) : Prop := NoDup (keys m).

Lemma get_set_same k v m : get k (set k v m) = Some v.
Proof.
  induction m as [|[k' v'] m IH]; simpl.
  - now rewrite keqb_refl.
  - destruct (keqb k k') eqn:E; simpl; rewrite ?keqb_refl, ?E; auto.
Qed.

Lemma get_set_other k k' v m : k' <> k -> get k' (set k v m) = get k' m.
Proof.
  intros N. induction m as [|[k0 v0] m IH]; simpl.
  - apply keqb_neq in N. now rewrite N.
  - destruct (keqb k k0) eqn:E; simpl.
    + apply keqb_eq in E. subst k0.
      apply keqb_neq in N. now rewrite N.
    + now rewrite IH.
Qed.

Lemma get_delete_same k m : get k (delete k m) = None.
Proof.
  induction m as [|[k0 v0] m IH]; simpl; auto.
  destruct (keqb k k0) eqn:E; simpl; auto. now rewrite E.
Qed.

Lemma get_delete_other k k' m : k' <> k -> get k' (delete k m) = get k' m.
Proof.
  intros N. induction m as [|[k0 v0] m IH]; simpl; auto.
  destruct (keqb k k0) eqn:E; simpl.
  - apply keqb_eq in E. subst k0. apply keqb_neq in N. now rewrite N.
  - now rewrite IH.
Qed.

Lemma get_In k v m : get k m = Some v -> In (k, v) m.
Proof.
  induction m as [|[k0 v0] m IH]; simpl; [discriminate|].
  destruct (keqb k k0) eqn:E.
  - apply keqb_eq in E. intros [= ->]. subst. now left.
  - intros G. right. auto.
Qed.

Lemma get_None_keys k m : get k m = None <-> ~ In k (keys m).
Proof.
  induction m as [|[k0 v0] m IH]; simpl.
  - tauto.
  - destruct (keqb k k0) eqn:E.
    + apply keqb_eq in E. subst. split; [discriminate | intros N; exfalso; auto].
    + apply keqb_neq in E. rewrite IH. split.
      * intros N [->|I]; auto.
      * intros N I. auto.
Qed.

Lemma get_Some_keys k m : (exists v, get k m = Some v) <-> In k (keys m).
Proof.
  destruct (get k m) eqn:G.
  - split; [intros _ | eauto].
    apply get_In in G. unfold keys. apply in_map_iff. now exists (k, v).
  - split; [intros [v Hv]; discriminate|].
    intros I. apply get_None_keys in G. contradiction.
Qed.

Lemma In_get k v m : wf m -> In (k, v) m -> get k m = Some v.
Proof.
  unfold wf, keys. induction m as [|[k0 v0] m IH]; simpl; [tauto|].
  intros ND [E|I].
  - inversion E; subst. now rewrite keqb_refl.
  - inversion ND as [|? ? Hn ND']; subst.
    destruct (keqb k k0) eqn:E.
    + apply keqb_eq in E. subst k0. exfalso. apply Hn.
      apply in_map_iff. now exists (k, v).
    + auto.
Qed.

Lemma keys_set k v m :
  keys (set k v m) = if has k m then keys m else keys m ++ [k].
Proof.
  unfold has. induction m as [|[k0 v0] m IH]; simpl; auto.
  destruct (keqb k k0) eqn:E; simpl.
  - apply keqb_eq in E. now subst.
  - rewrite IH. now destruct (get k m).
Qed.

Lemma wf_empty : wf empty.
Proof. constructor. Qed.

Lemma wf_set k v m : wf m -> wf (set k v m).
Proof.
  unfold wf. rewrite keys_set. unfold has.
  destruct (get k m) eqn:G; auto.
  intros ND. apply get_None_keys in G.
  apply NoDup_app; auto.
  - constructor; [intros []|constructor].
  - intros x Hx [->|[]]. contradiction.
Qed.

Lemma keys_delete k m : keys (delete k m) = filter (fun k' => negb (keqb k k')) (keys m).
Proof.
  induction m as [|[k0 v0] m IH]; simpl; auto.
  destruct (keqb k k0); simpl; now rewrite IH.
Qed.

Lemma wf_delete k m : wf m -> wf (delete k m).
Proof. unfold wf. rewrite keys_delete. apply NoDup_filter. Qed.

Lemma delete_absent k m : get k m = None -> delete k m = m.
Proof.
  induction m as [|[k0 v0] m IH]; simpl; auto.
  destruct (keqb k k0) eqn:E; [discriminate|].
  simpl. intros G. now rewrite IH.
Qed.

Lemma size_set_absent k v m : get k m = None -> size (set k v m) = S (size m).
Proof.
  unfold size. induction m as [|[k0 v0] m IH]; simpl; auto.
  destruct (keqb k k0) eqn:E; [discriminate|].
  simpl. intros G. now rewrite IH.
Qed.
Lemma set_set k v v' m : set k v' (set k v m) = set k v' m.
Proof.
  induction m as [|[k0 v0] m IH]; simpl.
  - now rewrite keqb_refl.
  - destruct (keqb k k0) eqn:E; simpl; rewrite ?keqb_refl, ?E, ?IH; reflexivity.
Qed.

Lemma set_absent k v m : get k m = None -> set k v m = m ++ [(k, v)].
Proof.
  induction m as [|[k0 v0] m IH]; simpl; auto.
  destruct (keqb k k0) eqn:E; [discriminate|].
  intros G. now rewrite IH.
Qed.

Lemma get_app_absent k m m' : get k m = None -> get k (m ++ m') = get k m'.
Proof.
  induction m as [|[k0 v0] m IH]; simpl; auto.
  destruct (keqb k k0) eqn:E; [discriminate|]. auto.
Qed.

Lemma In_delete k kv m : In kv (delete k m) <-> In kv m /\ fst kv <> k.
Proof.
  unfold delete. rewrite filter_In. split; intros [I N]; split; auto.
  - intros E. subst. rewrite keqb_refl in N. discriminate.
  - destruct (keqb k (fst kv)) eqn:E; auto. apply keqb_eq in E. congruence.
Qed.

Lemma In_set kv k v m : In kv (set k v m) -> kv = (k, v) \/ In kv m.
Proof.
  induction m as [|[k0 v0] m IH]; simpl.
  - intros [<-|[]]. now left.
  - destruct (keqb k k0); simpl.
    + intros [<-|I]; auto.
    + intros [<-|I]; auto. destruct (IH I); auto.
Qed.

End Ops.
Arguments t : clear implicits.
End JsMap.

(** ** List facts *)

Lemma find_app_first {A} (f : A -> bool) (l1 l2 : list A) :
  find f (l1 ++ l2) = match find f l1 with Some x => Some x | None => find f l2 end.
Proof.
  induction l1 as [|a l1 IH]; simpl; [reflexivity|].
  now destruct (f a).
Qed.

(** ** Values, errors and results *)

(** Milliseconds since the epoch, as [Date.getTime()] returns them. *)
Definition Millis : Type := Z.

(** A JavaScript [Error] object.  The source reads [error.message] and
    casts what it catches with [error as Error]; collaborators reject
    with [Error] objects. *)
Record Error : Type := mkError { message : string }.

(** What a [throw] or a rejected promise carries: an [Error], or the value
    [undefined] of a [lastError] that was never assigned. *)
Inductive Thrown : Type :=
| ThrownError (e : Error)
| ThrownUndefined.

Definition Result (A : Type) : Type := (Thrown + A)%type.

(** [error.message]: reading a property of [undefined] raises a TypeError. *)
Definition TypeError_message : Error :=
  mkError "Cannot read properties of undefined (reading 'message')".

Definition message_of (t : Thrown) : Error + string :=
  match t with
  | ThrownError e => inr (message e)
  | ThrownUndefined => inl TypeError_message
  end.

Section Model.

(** The state of the external collaborators (repositories, mail and push
    gateways) and the payload of an event: the pipeline never looks into
    either. *)
Variable Env : Type.
Variable Payload : Type.

(** [BaseEvent] with its payload. *)
Record DomainEvent : Type := mkEvent {
  event_id : string;
  event_type : EventType;
  event_timestamp : Millis;
  event_correlationId : option string;
  event_version : Z;
  event_payload : Payload
}.

(** ** The world outside the pipeline *)

(** Who is called: the [operation] handed to [retry], a handler's
    [process], an observer's [update]. *)
Inductive Label : Type :=
| LOperation (name : string)
| LProcess (e : DomainEvent)
| LUpdate (observer : string) (e : DomainEvent).

(** What the trace records, each with the instant it happens at. *)
Inductive Action : Type :=
| Invoked (l : Label)
| Resolved (l : Label)
| Rejected (l : Label) (e : Error)
| Slept (ms : Z).

Record Ext : Type := mkExt {
  clock : Millis;
  env : Env;
  trace : list (Millis * Action)
}.

(** An [async] function of the pipeline that touches only the outside
    world: run from a world, it leaves a world (whose clock is the instant
    it settles at) and resolves or rejects. *)
Definition X (A : Type) : Type := Ext -> Ext * Result A.

Definition xret {A} (a : A) : X A := fun w => (w, inr a).

Definition xthrow {A} (t : Thrown) : X A := fun w => (w, inl t).

Definition xbind {A B} (c : X A) (k : A -> X B) : X B :=
  fun w => match c w with
           | (w', inr a) => k a w'
           | (w', inl t) => (w', inl t)
           end.

(** [try { c } catch (error) { h error }] *)
Definition xcatch {A} (c : X A) (h : Thrown -> X A) : X A :=
  fun w => match c w with
           | (w', inr a) => (w', inr a)
           | (w', inl t) => h t w'
           end.

(** An external asynchronous function: called at an instant in a state of
    the collaborators, it changes that state, takes some time and resolves
    with a value or rejects with an [Error]. *)
Definition Behaviour (A : Type) : Type :=
  Millis -> Env -> Env * N * (Error + A).

(** [await f(...)] for an external [f]: the call and its outcome are
    recorded and the clock moves to the instant the promise settles at. *)
Definition call {A} (l : Label) (b : Behaviour A) : X A :=
  fun w =>
    let '(env', d, o) := b (clock w) (env w) in
    let t' := clock w + Z.of_N d in
    match o with
    | inr v =>
        (mkExt t' env' (trace w ++ [(clock w, Invoked l); (t', Resolved l)]),
         inr v)
    | inl e =>
        (mkExt t' env' (trace w ++ [(clock w, Invoked l); (t', Rejected l e)]),
         inl (ThrownError e))
    end.

(** [await new Promise(resolve => setTimeout(resolve, ms))] *)
Definition sleep (ms : Z) : X unit :=
  fun w =>
    (mkExt (clock w + Z.max 0 ms) (env w) (trace w ++ [(clock w, Slept ms)]),
     inr tt).

(** ** Handlers (common/strategies/event-processor.strategy.ts) *)

Record EventProcessorStrategy : Type := mkStrategy {
  canHandle : EventType -> bool;
  process : DomainEvent -> Behaviour unit;
  getBatchSize : Z;
  supportsBatchProcessing : bool
}.

(** [processor.process(event)] *)
Definition process_call (p : EventProcessorStrategy) (e : DomainEvent) : X unit :=
  call (LProcess e) (process p e).

(** ** The strategy registry (common/factories/event-processor.factory.ts) *)

Record ConcreteEventProcessorFactory : Type := mkFactory {
  processors : list EventProcessorStrategy;
  processorRegistry : JsMap.t EventType (unit -> EventProcessorStrategy)
}.

Definition getSupportedEventTypesForProcessor
    (processor : EventProcessorStrategy) : list EventType :=
  filter (fun eventType => canHandle processor eventType) EventType_values.

(** The inner [supportedTypes.forEach]. *)
Definition registerProcessor
    (registry : JsMap.t EventType (unit -> EventProcessorStrategy))
    (processor : EventProcessorStrategy)
  : JsMap.t EventType (unit -> EventProcessorStrategy) :=
  fold_left (fun reg eventType => JsMap.set eventType (fun _ : unit => processor) reg)
            (getSupportedEventTypesForProcessor processor) registry.

Definition initializeRegistry
    (f : ConcreteEventProcessorFactory) : ConcreteEventProcessorFactory :=
  mkFactory (processors f)
            (fold_left registerProcessor (processors f) (processorRegistry f)).

(** [new ConcreteEventProcessorFactory(processors)] *)
Definition newFactory (ps : list EventProcessorStrategy) : ConcreteEventProcessorFactory :=
  initializeRegistry (mkFactory ps JsMap.empty).

Definition createProcessor (f : ConcreteEventProcessorFactory) (eventType : EventType)
  : option EventProcessorStrategy :=
  match JsMap.get eventType (processorRegistry f) with
  | None => None
  | Some processorFactory => Some (processorFactory tt)
  end.

Definition getSupportedEventTypes (f : ConcreteEventProcessorFactory) : list EventType :=
  JsMap.keys (processorRegistry f).

(** [initializeProcessors] of the dispatcher: the processor list is
    replaced and the registry is filled again, over what it held. *)
Definition reinitialize (ps : list EventProcessorStrategy)
    (f : ConcreteEventProcessorFactory) : ConcreteEventProcessorFactory :=
  initializeRegistry (mkFactory ps (processorRegistry f)).

(** The last handler of a list that claims a type. *)
Definition lastHandlerFor (ps : list EventProcessorStrategy) (t : EventType)
  : option EventProcessorStrategy :=
  find (fun p => canHandle p t) (rev ps).

Lemma EventType_values_complete (t : EventType) : In t EventType_values.
Proof. destruct t; simpl; tauto. Qed.

Lemma supported_iff (p : EventProcessorStrategy) (t : EventType) :
  In t (getSupportedEventTypesForProcessor p) <-> canHandle p t = true.
Proof.
  unfold getSupportedEventTypesForProcessor. rewrite filter_In.
  split; [tauto | intros Hc; split; [apply EventType_values_complete | exact Hc]].
Qed.

Lemma get_fold_set (V : Type) (v : V) (ts : list EventType) :
  forall (reg : JsMap.t EventType V) (t : EventType),
    JsMap.get t (fold_left (fun r t' => JsMap.set t' v r) ts reg)
    = if in_dec EventType_eq_dec t ts then Some v else JsMap.get t reg.
Proof.
  induction ts as [|t0 ts IH]; intros reg t; simpl.
  - reflexivity.
  - rewrite IH. destruct (in_dec EventType_eq_dec t ts) as [I|NI].
    + destruct (EventType_eq_dec t0 t); reflexivity.
    + destruct (EventType_eq_dec t0 t) as [->|N].
      * apply JsMap.get_set_same.
      * apply JsMap.get_set_other. congruence.
Qed.

Lemma get_registerProcessor reg p t :
  JsMap.get t (registerProcessor reg p)
  = if canHandle p t then Some (fun _ : unit => p) else JsMap.get t reg.
Proof.
  unfold registerProcessor. rewrite get_fold_set.
  destruct (in_dec EventType_eq_dec t (getSupportedEventTypesForProcessor p)) as [I|NI].
  - apply supported_iff in I. now rewrite I.
  - destruct (canHandle p t) eqn:E; [|reflexivity].
    exfalso. apply NI. now apply supported_iff.
Qed.

Lemma get_fold_registerProcessor ps :
  forall reg t,
    JsMap.get t (fold_left registerProcessor ps reg)
    = match lastHandlerFor ps t with
      | Some p => Some (fun _ : unit => p)
      | None => JsMap.get t reg
      end.
Proof.
  unfold lastHandlerFor.
  induction ps as [|p ps IH]; intros reg t; simpl.
  - reflexivity.
  - rewrite IH, find_app_first.
    destruct (find (fun p0 => canHandle p0 t) (rev ps)) as [q|]; [reflexivity|].
    simpl. rewrite get_registerProcessor.
    now destruct (canHandle p t).
Qed.

Lemma createProcessor_newFactory ps t :
  createProcessor (newFactory ps) t = lastHandlerFor ps t.
Proof.
  unfold createProcessor, newFactory, initializeRegistry. simpl.
  rewrite get_fold_registerProcessor.
  now destruct (lastHandlerFor ps t).
Qed.

(** The application builds the factory with no handler and the dispatcher
    then installs the real ones. *)
Lemma createProcessor_reinitialize ps t :
  createProcessor (reinitialize ps (newFactory [])) t = lastHandlerFor ps t.
Proof.
  unfold createProcessor, reinitialize, newFactory, initializeRegistry. simpl.
  rewrite get_fold_registerProcessor.
  now destruct (lastHandlerFor ps t).
Qed.

Lemma lastHandlerFor_None ps t :
  lastHandlerFor ps t = None <-> (forall p, In p ps -> canHandle p t = false).
Proof.
  unfold lastHandlerFor. split.
  - intros Hn p Hp. apply (find_none _ _ Hn). now apply in_rev in Hp.
  - intros Hall. destruct (find _ (rev ps)) as [q|] eqn:F; [|reflexivity].
    apply find_some in F. destruct F as [Hin Hc].
    apply in_rev in Hin. rewrite (Hall q Hin) in Hc. discriminate.
Qed.

Lemma lastHandlerFor_Some ps t p :
  lastHandlerFor ps t = Some p ->
  exists before after,
    ps = before ++ p :: after /\ canHandle p t = true /\
    (forall q, In q after -> canHandle q t = false).
Proof.
  unfold lastHandlerFor. revert p.
  induction ps as [|p0 ps IH] using rev_ind; intros p; simpl.
  - discriminate.
  - rewrite rev_app_distr. simpl.
    destruct (canHandle p0 t) eqn:E.
    + intros [= <-]. exists ps, []. repeat split; auto. intros q [].
    + intros F. destruct (IH _ F) as (b & a & -> & Hc & Ha).
      exists b, (a ++ [p0]). rewrite <- app_assoc. repeat split; auto.
      intros q Hq. apply in_app_or in Hq. destruct Hq as [Hq|[<-|[]]]; auto.
Qed.

Lemma registry_wf_fold_set (V : Type) (v : V) (ts : list EventType) :
  forall reg : JsMap.t EventType V,
    JsMap.wf reg -> JsMap.wf (fold_left (fun r t' => JsMap.set t' v r) ts reg).
Proof.
  induction ts as [|t0 ts IH]; intros reg W; simpl; auto using JsMap.wf_set.
Qed.

Lemma registry_wf_fold ps :
  forall reg, JsMap.wf reg -> JsMap.wf (fold_left registerProcessor ps reg).
Proof.
  induction ps as [|p ps IH]; intros reg W; simpl; auto.
  apply IH. unfold registerProcessor. now apply registry_wf_fold_set.
Qed.

(** C5. After [new ConcreteEventProcessorFactory(ps)], [createProcessor(t)]
    is the last handler of [ps] whose [canHandle(t)] is true, it is [None]
    exactly when no handler of [ps] can handle [t], and
    [getSupportedEventTypes()] lists, without repetition, exactly the types
    that some handler of [ps] claims. *)
Theorem C5_registry_last_handler_wins (ps : list EventProcessorStrategy) (t : EventType) :
  createProcessor (newFactory ps) t = lastHandlerFor ps t
  /\ (forall p, createProcessor (newFactory ps) t = Some p ->
        exists before after,
          ps = before ++ p :: after /\ canHandle p t = true /\
          (forall q, In q after -> canHandle q t = false))
  /\ (createProcessor (newFactory ps) t = None <->
        (forall p, In p ps -> canHandle p t = false))
  /\ (In t (getSupportedEventTypes (newFactory ps)) <->
        (exists p, In p ps /\ canHandle p t = true))
  /\ NoDup (getSupportedEventTypes (newFactory ps)).
Proof.
  split; [apply createProcessor_newFactory|].
  split; [intros p; rewrite createProcessor_newFactory; apply lastHandlerFor_Some|].
  split; [rewrite createProcessor_newFactory; apply lastHandlerFor_None|].
  split.
  - unfold getSupportedEventTypes. rewrite <- JsMap.get_Some_keys.
    unfold newFactory, initializeRegistry. simpl.
    rewrite get_fold_registerProcessor. simpl.
    destruct (lastHandlerFor ps t) as [p|] eqn:L.
    + split; [intros _|eauto].
      destruct (lastHandlerFor_Some _ _ L) as (b & a & -> & Hc & _).
      exists p. split; auto. apply in_or_app. right. now left.
    + split; [intros [v Hv]; discriminate|].
      intros (p & Hp & Hc).
      rewrite (proj1 (lastHandlerFor_None ps t) L p Hp) in Hc. discriminate.
  - unfold getSupportedEventTypes, newFactory, initializeRegistry. simpl.
    apply registry_wf_fold. apply JsMap.wf_empty.
Qed.

(** ** Retry with exponential back-off *)

(** The body of [for (let attempt = 1; attempt <= maxAttempts; attempt++)]
    in [BaseEventProcessorStrategy.retry]: [iterations] counts the rounds
    the loop still has to go, [maxAttempts + 1 - attempt] of them; when none
    is left the loop is over and [throw lastError] runs.  The [catch] block
    assigns [lastError], reads [error.message] for its warning and sleeps if
    another attempt follows. *)
Fixpoint retry_loop {T} (operation : X T) (maxAttempts : nat) (delay : Z)
    (iterations attempt : nat) (lastError : Thrown) : X T :=
  match iterations with
  | O => xthrow lastError
  | S iterations' =>
      xcatch operation (fun error =>
        match message_of error with
        | inl typeError => xthrow (ThrownError typeError)
        | inr _ =>
            xbind (if Nat.ltb attempt maxAttempts
                   then sleep (delay * 2 ^ Z.of_nat (attempt - 1))
                   else xret tt)
                  (fun _ => retry_loop operation maxAttempts delay
                                       iterations' (S attempt) error)
        end)
  end.

(** [retry(operation, maxAttempts = 3, delay = 1000)] *)
Definition retry {T} (operation : X T) (maxAttempts : nat) (delay : Z) : X T :=
  retry_loop operation maxAttempts delay maxAttempts 1 ThrownUndefined.

(** The loop of [BatchProcessorService.processEventWithRetry]. *)
Fixpoint processEventWithRetry_loop {T} (processFn : DomainEvent -> X T)
    (event : DomainEvent) (maxRetries : nat)
    (iterations attempt : nat) (lastError : Thrown) : X T :=
  match iterations with
  | O => xthrow lastError
  | S iterations' =>
      xcatch (processFn event) (fun error =>
        match message_of error with
        | inl typeError => xthrow (ThrownError typeError)
        | inr _ =>
            xbind (if Nat.ltb attempt maxRetries
                   then sleep (2 ^ Z.of_nat (attempt - 1) * 1000)
                   else xret tt)
                  (fun _ => processEventWithRetry_loop processFn event maxRetries
                                                       iterations' (S attempt) error)
        end)
  end.

(** [processEventWithRetry(processFn, event, maxRetries = 3)] *)
Definition processEventWithRetry {T} (processFn : DomainEvent -> X T)
    (event : DomainEvent) (maxRetries : nat) : X T :=
  processEventWithRetry_loop processFn event maxRetries maxRetries 1 ThrownUndefined.

(** *** A run of [retry], attempt by attempt *)

(** The run that the specification describes, from attempt [attempt] on,
    with the number of times the operation is invoked: the operation is run
    and succeeds, and its value is returned; or it fails on the last
    attempt, and its error is raised again, with no sleep after it; or it
    fails on an earlier attempt, [delay * 2^(attempt-1)] milliseconds are
    slept, and the run goes on with the next attempt. *)
Inductive claimedRun {T} (operation : X T) (maxAttempts : nat) (delay : Z)
  : nat -> Ext -> Ext * Result T -> nat -> Prop :=
| claimed_success attempt w w' v :
    operation w = (w', inr v) ->
    claimedRun operation maxAttempts delay attempt w (w', inr v) 1
| claimed_last_failure w w' t :
    operation w = (w', inl t) ->
    claimedRun operation maxAttempts delay maxAttempts w (w', inl t) 1
| claimed_retry attempt w w' t out n :
    (attempt < maxAttempts)%nat ->
    operation w = (w', inl t) ->
    claimedRun operation maxAttempts delay (S attempt)
               (fst (sleep (delay * 2 ^ Z.of_nat (attempt - 1)) w')) out n ->
    claimedRun operation maxAttempts delay attempt w out (S n).

(** An operation that rejects, when it does, with an [Error] object. *)
Definition rejectsWithErrors {T} (operation : X T) : Prop :=
  forall w w' t, operation w = (w', inl t) -> exists e, t = ThrownError e.

Lemma retry_loop_claimedRun {T} (operation : X T) (maxAttempts : nat) (delay : Z) :
  rejectsWithErrors operation ->
  forall iterations attempt lastError w,
    (1 <= iterations)%nat ->
    (attempt + iterations = maxAttempts + 1)%nat ->
    exists n,
      claimedRun operation maxAttempts delay attempt w
                 (retry_loop operation maxAttempts delay iterations attempt lastError w) n
      /\ (n <= iterations)%nat
      /\ (forall t,
            snd (retry_loop operation maxAttempts delay iterations attempt lastError w)
            = inl t -> n = iterations).
Proof.
  intros Herr. induction iterations as [|i IH]; intros attempt lastError w Hpos Hsum;
    [lia|].
  cbn [retry_loop]. unfold xcatch.
  destruct (operation w) as [w' [t|v]] eqn:Eop.
  - destruct (Herr _ _ _ Eop) as [e ->]. cbn [message_of].
    destruct i as [|i].
    + (* the last attempt: no sleep, the error is raised again *)
      assert (Hlt : Nat.ltb attempt maxAttempts = false) by (apply Nat.ltb_ge; lia).
      rewrite Hlt. unfold xbind, xret. cbn [retry_loop]. unfold xthrow.
      exists 1%nat. replace attempt with maxAttempts by lia.
      split; [now apply claimed_last_failure|]. split; [lia|reflexivity].
    + assert (Hlt : Nat.ltb attempt maxAttempts = true) by (apply Nat.ltb_lt; lia).
      rewrite Hlt. unfold xbind. unfold sleep at 1.
      change (mkExt (clock w' + Z.max 0 (delay * 2 ^ Z.of_nat (attempt - 1))) (env w')
                    (trace w' ++ [(clock w', Slept (delay * 2 ^ Z.of_nat (attempt - 1)))]))
        with (fst (sleep (delay * 2 ^ Z.of_nat (attempt - 1)) w')).
      destruct (IH (S attempt) (ThrownError e)
                   (fst (sleep (delay * 2 ^ Z.of_nat (attempt - 1)) w')))
        as (n & Hrun & Hle & Hrej); [lia|lia|].
      exists (S n). split; [|split; [lia|]].
      * eapply claimed_retry; [apply Nat.ltb_lt; exact Hlt | exact Eop | exact Hrun].
      * intros t Ht. now rewrite (Hrej t Ht).
  - exists 1%nat. split; [now apply claimed_success|]. split; [lia|discriminate].
Qed.

Lemma call_rejectsWithErrors {T} (l : Label) (op : Behaviour T) :
  rejectsWithErrors (call l op).
Proof.
  intros w w' t. unfold call.
  destruct (op (clock w) (env w)) as [[env' d] [e|v]]; intros [= <- <-]. eauto.
Qed.

(** *** What a run of [retry] leaves in the trace *)

Definition actions (w : Ext) : list Action := map snd (trace w).

Definition is_Invoked (a : Action) : bool :=
  match a with Invoked _ => true | _ => false end.

Definition invocations (acts : list Action) : nat :=
  List.length (filter is_Invoked acts).

Fixpoint sleeps (acts : list Action) : list Z :=
  match acts with
  | [] => []
  | Slept ms :: acts' => ms :: sleeps acts'
  | _ :: acts' => sleeps acts'
  end.

(** Attempts [attempt], [attempt + 1], ... that fail with the errors
    [errs], each followed by its back-off. *)
Fixpoint failed_attempts (l : Label) (delay : Z) (attempt : nat) (errs : list Error)
  : list Action :=
  match errs with
  | [] => []
  | e :: errs' =>
      Invoked l :: Rejected l e :: Slept (delay * 2 ^ Z.of_nat (attempt - 1))
        :: failed_attempts l delay (S attempt) errs'
  end.

(** [delay * 2^(attempt-1)] for [attempt = first, ..., first + n - 1]. *)
Definition backoffs (delay : Z) (first n : nat) : list Z :=
  map (fun attempt => delay * 2 ^ Z.of_nat (attempt - 1)) (seq first n).

Lemma call_cases {T} (l : Label) (op : Behaviour T) (w : Ext) :
  (exists v w', call l op w = (w', inr v)
                /\ actions w' = actions w ++ [Invoked l; Resolved l])
  \/ (exists e w', call l op w = (w', inl (ThrownError e))
                   /\ actions w' = actions w ++ [Invoked l; Rejected l e]).
Proof.
  unfold call, actions.
  destruct (op (clock w) (env w)) as [[env' d] [e|v]]; simpl.
  - right. eexists _, _. split; [reflexivity|]. simpl. now rewrite map_app.
  - left. eexists _, _. split; [reflexivity|]. simpl. now rewrite map_app.
Qed.

Lemma actions_sleep ms w : actions (fst (sleep ms w)) = actions w ++ [Slept ms].
Proof. unfold sleep, actions. simpl. now rewrite map_app. Qed.

Lemma invocations_failed_attempts l delay errs :
  forall attempt,
    invocations (failed_attempts l delay attempt errs) = List.length errs.
Proof.
  unfold invocations. induction errs as [|e errs IH]; intros attempt; simpl; auto.
Qed.

Lemma sleeps_failed_attempts l delay errs :
  forall attempt,
    sleeps (failed_attempts l delay attempt errs)
    = backoffs delay attempt (List.length errs).
Proof.
  unfold backoffs. induction errs as [|e errs IH]; intros attempt; simpl; auto.
  now rewrite IH.
Qed.

Lemma invocations_app a b : invocations (a ++ b) = (invocations a + invocations b)%nat.
Proof. unfold invocations. now rewrite filter_app, length_app. Qed.

Lemma sleeps_app a b : sleeps (a ++ b) = sleeps a ++ sleeps b.
Proof.
  induction a as [|x a IH]; simpl; auto.
  destruct x; simpl; now rewrite ?IH.
Qed.

(** The two shapes of a run of the loop from attempt [attempt] on. *)
Definition retry_outcome {T} (l : Label) (delay : Z) (attempt rounds : nat)
    (w : Ext) (out : Ext * Result T) : Prop :=
  exists errs : list Error,
    (exists v,
        snd out = inr v
        /\ (List.length errs < rounds)%nat
        /\ actions (fst out)
           = actions w ++ failed_attempts l delay attempt errs
                       ++ [Invoked l; Resolved l])
    \/ (exists e,
          snd out = inl (ThrownError e)
          /\ S (List.length errs) = rounds
          /\ actions (fst out)
             = actions w ++ failed_attempts l delay attempt errs
                         ++ [Invoked l; Rejected l e]).

Lemma retry_loop_outcome {T} (l : Label) (op : Behaviour T) (maxAttempts : nat) (delay : Z) :
  forall iterations attempt lastError w,
    (1 <= iterations)%nat ->
    (attempt + iterations = maxAttempts + 1)%nat ->
    retry_outcome l delay attempt iterations w
      (retry_loop (call l op) maxAttempts delay iterations attempt lastError w).
Proof.
  induction iterations as [|i IH]; intros attempt lastError w Hpos Hsum; [lia|].
  simpl. unfold xcatch.
  destruct (call_cases l op w) as [(v & w' & -> & Ha)|(e & w' & -> & Ha)].
  - exists []. left. exists v. simpl. repeat split; [lia | exact Ha].
  - destruct i as [|i].
    + (* the last attempt: no sleep, the loop ends *)
      assert (Hlt : Nat.ltb attempt maxAttempts = false) by (apply Nat.ltb_ge; lia).
      cbn [message_of]. rewrite Hlt. simpl. exists []. right. exists e. simpl.
      repeat split; exact Ha.
    + assert (Hlt : Nat.ltb attempt maxAttempts = true) by (apply Nat.ltb_lt; lia).
      cbn [message_of]. rewrite Hlt. unfold xbind.
      pose proof (actions_sleep (delay * 2 ^ Z.of_nat (attempt - 1)) w') as Hs.
      destruct (sleep (delay * 2 ^ Z.of_nat (attempt - 1)) w') as [w2 [t|[]]] eqn:Es;
        [unfold sleep in Es; discriminate|].
      simpl in Hs.
      destruct (IH (S attempt) (ThrownError e) w2) as [errs Hout]; [lia|lia|].
      exists (e :: errs).
      assert (Hpre : actions w2 ++ failed_attempts l delay (S attempt) errs
                     = actions w ++ failed_attempts l delay attempt (e :: errs)).
      { rewrite Hs, Ha. simpl. rewrite <- !app_assoc. reflexivity. }
      destruct Hout as [(v & Hr & Hlen & Hact)|(e' & Hr & Hlen & Hact)].
      * left. exists v. repeat split; [exact Hr | simpl; lia |].
        rewrite Hact, !app_assoc, Hpre. reflexivity.
      * right. exists e'. repeat split; [exact Hr | simpl; lia |].
        rewrite Hact, !app_assoc, Hpre. reflexivity.
Qed.

(** When the operation is the call of an external function, the trace
    shows the run: either the call fails [N - 1] times and then succeeds,
    with [N <= maxAttempts], or it fails [maxAttempts] times; in both, the
    failed attempt number [k] (from 1) is followed by a sleep of
    [delay * 2^(k-1)], except the last of [maxAttempts] failures, which is
    followed by none. *)
Lemma retry_call_attempts_and_backoff {T} (l : Label) (op : Behaviour T)
    (maxAttempts : nat) (delay : Z) (w : Ext) :
  (1 <= maxAttempts)%nat ->
  exists (errs : list Error) (acts : list Action),
    actions (fst (retry (call l op) maxAttempts delay w)) = actions w ++ acts
    /\ ((exists v,
           snd (retry (call l op) maxAttempts delay w) = inr v
           /\ (S (List.length errs) <= maxAttempts)%nat
           /\ acts = failed_attempts l delay 1 errs ++ [Invoked l; Resolved l]
           /\ invocations acts = S (List.length errs)
           /\ sleeps acts = backoffs delay 1 (List.length errs))
        \/ (exists e,
              snd (retry (call l op) maxAttempts delay w) = inl (ThrownError e)
              /\ S (List.length errs) = maxAttempts
              /\ acts = failed_attempts l delay 1 errs ++ [Invoked l; Rejected l e]
              /\ invocations acts = maxAttempts
              /\ sleeps acts = backoffs delay 1 (maxAttempts - 1))).
Proof.
  intros HM. unfold retry.
  destruct (@retry_loop_outcome T l op maxAttempts delay maxAttempts 1%nat
              ThrownUndefined w) as [errs Hout]; [lia|lia|].
  exists errs.
  destruct Hout as [(v & Hr & Hlen & Hact)|(e & Hr & Hlen & Hact)].
  - exists (failed_attempts l delay 1 errs ++ [Invoked l; Resolved l]).
    split; [exact Hact|]. left. exists v.
    split; [exact Hr|]. split; [lia|]. split; [reflexivity|]. split.
    + rewrite invocations_app, invocations_failed_attempts.
      unfold invocations. simpl. lia.
    + rewrite sleeps_app, sleeps_failed_attempts. simpl. apply app_nil_r.
  - exists (failed_attempts l delay 1 errs ++ [Invoked l; Rejected l e]).
    split; [exact Hact|]. right. exists e.
    split; [exact Hr|]. split; [exact Hlen|]. split; [reflexivity|]. split.
    + rewrite invocations_app, invocations_failed_attempts.
      unfold invocations. simpl. lia.
    + rewrite sleeps_app, sleeps_failed_attempts. simpl. rewrite app_nil_r.
      f_equal. lia.
Qed.

(** C3 (as amended).  For every operation that rejects, when it does,
    with an [Error] object, every [maxAttempts >= 1] and every delay,
    [retry] runs as the specification describes: the operation is invoked
    [N] times, with [N <= maxAttempts]; when it fails [N - 1] times and
    then succeeds, its value is returned; when it fails [maxAttempts]
    times, the last error is raised again; after the failed attempt number
    [k] (from 1) [delay * 2^(k-1)] milliseconds are slept before the next
    attempt, and nothing is slept after the last of [maxAttempts]
    failures. *)
Theorem C3_retry_attempts_and_backoff {T} (operation : X T)
    (maxAttempts : nat) (delay : Z) (w : Ext) :
  (1 <= maxAttempts)%nat ->
  rejectsWithErrors operation ->
  exists n,
    claimedRun operation maxAttempts delay 1 w (retry operation maxAttempts delay w) n
    /\ (n <= maxAttempts)%nat
    /\ (forall t, snd (retry operation maxAttempts delay w) = inl t -> n = maxAttempts).
Proof.
  intros HM Herr. unfold retry.
  apply retry_loop_claimedRun; [exact Herr | lia | lia].
Qed.

Lemma processEventWithRetry_loop_retry_loop {T} (processFn : DomainEvent -> X T)
    (event : DomainEvent) (maxRetries : nat) :
  forall iterations attempt lastError w,
    processEventWithRetry_loop processFn event maxRetries iterations attempt lastError w
    = retry_loop (processFn event) maxRetries 1000 iterations attempt lastError w.
Proof.
  induction iterations as [|i IH]; intros attempt lastError w;
    cbn [processEventWithRetry_loop retry_loop]; [reflexivity|].
  unfold xcatch. destruct (processFn event w) as [w' [error|v]]; [|reflexivity].
  destruct (message_of error) as [typeError|msg]; [reflexivity|].
  rewrite (Z.mul_comm (2 ^ Z.of_nat (attempt - 1)) 1000).
  unfold xbind.
  destruct ((if Nat.ltb attempt maxRetries
             then sleep (1000 * 2 ^ Z.of_nat (attempt - 1)) else xret tt) w')
    as [w2 [t|u]]; [reflexivity|].
  apply IH.
Qed.

(** C8. The batch executor's per-event retry is the shared helper at
    [delay = 1000]: for every [processFn], event, attempt budget (3 by
    default in both) and world, [processEventWithRetry(processFn, event, n)]
    and [retry(() => processFn(event), n, 1000)] leave the same world (same
    calls, same sleeps, same clock) and settle the same way (same value,
    same re-raised error). *)
Theorem C8_batch_retry_is_shared_retry {T} (processFn : DomainEvent -> X T)
    (event : DomainEvent) (maxRetries : nat) (w : Ext) :
  processEventWithRetry processFn event maxRetries w
  = retry (processFn event) maxRetries 1000 w.
Proof.
  unfold processEventWithRetry, retry.
  apply processEventWithRetry_loop_retry_loop.
Qed.

(** ** Promises and the event loop *)

(** A promise, by the instant it settles at and what it settles with. *)
Record Promise (A : Type) : Type := mkPromise {
  settledAt : Millis;
  outcome : Result A
}.

(** An [async] function that is called without being awaited runs up to
    its first [await] and goes on, each time the awaited promise has
    settled, up to the next one.  A task is such a function by its awaits:
    the call of an external function, with what the task does with the
    outcome, or a sleep, with what it does afterwards. *)
Inductive Task : Type :=
| Finish (r : Result unit)
| AwaitCall (l : Label) (b : Behaviour unit) (k : Result unit -> Task)
| AwaitSleep (ms : Z) (k : Task).

(** A task that is awaited at once runs as an [async] function of [X]. *)
Fixpoint run (t : Task) : X unit :=
  match t with
  | Finish r => fun w => (w, r)
  | AwaitCall l b k => fun w => let '(w', r) := call l b w in run (k r) w'
  | AwaitSleep ms k => fun w => run k (fst (sleep ms w))
  end.

(** What a suspended task waits for: the outcome [o] of a call that is
    under way, or the end of a sleep. *)
Inductive Wake : Type :=
| AfterCall (l : Label) (o : Error + unit) (k : Result unit -> Task)
| AfterSleep (k : Task).

(** A suspended task: the instant it goes on at, its position in the array
    of tasks and what it waits for. *)
Record Waiting : Type := mkWaiting {
  dueAt : Millis;
  waiter : nat;
  wake : Wake
}.

(** The event loop while a set of tasks runs: the collaborators, what the
    tasks have done so far (each entry with the position of its task and
    its instant), the suspended tasks in the order they were suspended in,
    and the promises settled so far, in the order they settled in. *)
Record Loop : Type := mkLoop {
  loop_env : Env;
  journal : list (nat * (Millis * Action));
  agenda : list Waiting;
  settled : list (nat * Promise unit)
}.

Definition thrown (o : Error + unit) : Result unit :=
  match o with
  | inl e => inl (ThrownError e)
  | inr v => inr v
  end.

Definition settlement (l : Label) (o : Error + unit) : Action :=
  match o with
  | inl e => Rejected l e
  | inr _ => Resolved l
  end.

(** Task [i] runs at [now] up to its next [await].  An external function
    acts on the collaborators when it is called; its promise settles later,
    after the time the call takes. *)
Definition resume (i : nat) (t : Task) (now : Millis) (s : Loop) : Loop :=
  match t with
  | Finish r =>
      mkLoop (loop_env s) (journal s) (agenda s)
             (settled s ++ [(i, mkPromise now r)])
  | AwaitCall l b k =>
      let '(env', d, o) := b now (loop_env s) in
      mkLoop env' (journal s ++ [(i, (now, Invoked l))])
             (agenda s ++ [mkWaiting (now + Z.of_N d) i (AfterCall l o k)])
             (settled s)
  | AwaitSleep ms k =>
      mkLoop (loop_env s) (journal s ++ [(i, (now, Slept ms))])
             (agenda s ++ [mkWaiting (now + Z.max 0 ms) i (AfterSleep k)])
             (settled s)
  end.

(** What the task waited for has happened: it goes on. *)
Definition wakeUp (x : Waiting) (s : Loop) : Loop :=
  match wake x with
  | AfterCall l o k =>
      resume (waiter x) (k (thrown o)) (dueAt x)
             (mkLoop (loop_env s)
                     (journal s ++ [(waiter x, (dueAt x, settlement l o))])
                     (agenda s) (settled s))
  | AfterSleep k => resume (waiter x) k (dueAt x) s
  end.

(** The suspended task that goes on next: the one that is due first, the
    one suspended first among those due at the same instant. *)
Fixpoint earliest (x : Waiting) (rest : list Waiting) : Waiting * list Waiting :=
  match rest with
  | [] => (x, [])
  | y :: rest' =>
      let '(m, others) := earliest y rest' in
      if dueAt x <=? dueAt m then (x, rest) else (m, x :: others)
  end.

Definition with_agenda (a : list Waiting) (s : Loop) : Loop :=
  mkLoop (loop_env s) (journal s) a (settled s).

(** The loop, for at most [turns] turns: each turn one suspended task goes
    on. *)
Fixpoint runLoop (turns : nat) (s : Loop) : Loop :=
  match turns with
  | O => s
  | S turns' =>
      match agenda s with
      | [] => s
      | x :: rest =>
          let '(m, others) := earliest x rest in
          runLoop turns' (wakeUp m (with_agenda others s))
      end
  end.

(** [tasks.map(task => task())]: the tasks are started one after the
    other, at the same instant, each up to its first [await]. *)
Fixpoint startAll (i : nat) (tasks : list Task) (now : Millis) (s : Loop) : Loop :=
  match tasks with
  | [] => s
  | t :: tasks' => startAll (S i) tasks' now (resume i t now s)
  end.

(** The tasks, started at the current instant and run until all have
    settled.  The caller goes on at the instant it started them at and
    holds the promises.  What the tasks do is in the trace with its own
    instants, whether anyone awaits a promise or not: a task that outlives
    the [await] of its caller is followed to its end here, so its later
    calls stand in the trace, at their instants, ahead of what the caller
    does next. *)
Definition spawn_all (turns : nat) (tasks : list Task) (w : Ext)
  : Ext * list (nat * Promise unit) :=
  let s := runLoop turns (startAll 0 tasks (clock w) (mkLoop (env w) [] [] [])) in
  (mkExt (clock w) (loop_env s) (trace w ++ map snd (journal s)), settled s).

Definition is_rejected {A} (p : nat * Promise A) : bool :=
  match outcome (snd p) with
  | inl _ => true
  | inr _ => false
  end.

(** The instant the last of the promises settles at, not before [now]. *)
Definition latest {A} (now : Millis) (ps : list (nat * Promise A)) : Millis :=
  fold_right (fun p t => Z.max (settledAt (snd p)) t) now ps.

(** [Promise.all(ps)], called at [now], for promises in the order they
    settle in: rejects as soon as one promise rejects, with its reason;
    resolves once all have resolved.  The callers do not use the array of
    values it resolves with. *)
Definition Promise_all (now : Millis) (ps : list (nat * Promise unit)) : Promise unit :=
  match find is_rejected ps with
  | Some p => mkPromise (Z.max now (settledAt (snd p))) (outcome (snd p))
  | None => mkPromise (latest now ps) (inr tt)
  end.

(** [Promise.allSettled(ps)]: resolves once every promise has settled. *)
Definition Promise_allSettled (now : Millis) (ps : list (nat * Promise unit))
  : Promise unit :=
  mkPromise (latest now ps) (inr tt).

(** [await p] *)
Definition await {A} (p : Promise A) : X A :=
  fun w => (mkExt (Z.max (clock w) (settledAt p)) (env w) (trace w), outcome p).


(** *** Every task reaches its end *)

(** A task with at most [n] awaits ahead. *)
Inductive bounded : nat -> Task -> Prop :=
| bounded_Finish n r : bounded n (Finish r)
| bounded_Call n l b k :
    (forall r, bounded n (k r)) -> bounded (S n) (AwaitCall l b k)
| bounded_Sleep n ms k : bounded n k -> bounded (S n) (AwaitSleep ms k).

Definition wake_bounded (n : nat) (wk : Wake) : Prop :=
  match wk with
  | AfterCall _ _ k => forall r, bounded n (k r)
  | AfterSleep k => bounded n k
  end.

(** The turns an agenda still needs are at most [c]. *)
Inductive costs : list Waiting -> nat -> Prop :=
| costs_nil c : costs [] c
| costs_cons x a n c c' :
    wake_bounded n (wake x) -> costs a c -> (S n + c <= c')%nat -> costs (x :: a) c'.

Lemma bounded_le n t : bounded n t -> forall m, (n <= m)%nat -> bounded m t.
Proof.
  induction 1 as [n r|n l b k Hk IH|n ms k Hk IH]; intros m Hm.
  - constructor.
  - destruct m as [|m]; [lia|]. constructor. intros r. apply IH. lia.
  - destruct m as [|m]; [lia|]. constructor. apply IH. lia.
Qed.

Lemma costs_le a c : costs a c -> forall c', (c <= c')%nat -> costs a c'.
Proof.
  destruct 1 as [c|x a n c c0 Hx Ha Hc]; intros c' Hle; [constructor|].
  eapply costs_cons; eauto. lia.
Qed.

Lemma costs_snoc a c : costs a c ->
  forall x n, wake_bounded n (wake x) -> costs (a ++ [x]) (c + S n).
Proof.
  induction 1 as [c|y a m c c0 Hy Ha IH Hc]; intros x n Hx; simpl.
  - eapply costs_cons; [exact Hx | apply (costs_nil 0) | lia].
  - eapply costs_cons; [exact Hy | apply (IH x n Hx) | lia].
Qed.

Lemma costs_remove l1 : forall m l2 c,
  costs (l1 ++ m :: l2) c ->
  exists n c', wake_bounded n (wake m) /\ costs (l1 ++ l2) c' /\ (S n + c' <= c)%nat.
Proof.
  induction l1 as [|y l1 IH]; intros m l2 c H; simpl in *.
  - inversion H as [|x a n c0 c' Hx Ha Hc]; subst. exists n, c0. auto.
  - inversion H as [|x a n c0 c' Hx Ha Hc]; subst.
    destruct (IH _ _ _ Ha) as (n' & c1 & Hm & Hrest & Hle).
    exists n', (S n + c1)%nat. split; [exact Hm|]. split; [|lia].
    eapply costs_cons; [exact Hx | exact Hrest | lia].
Qed.

(** [earliest] takes one entry out of the agenda, one that no other entry
    is due before, and leaves the others in place. *)
Lemma earliest_split rest : forall x m others,
  earliest x rest = (m, others) ->
  exists l1 l2,
    x :: rest = l1 ++ m :: l2 /\ others = l1 ++ l2
    /\ Forall (fun y => dueAt m <= dueAt y) (x :: rest).
Proof.
  induction rest as [|y rest IH]; intros x m others E; cbn [earliest] in E.
  - injection E as <- <-. exists [], []. repeat split. constructor; [lia|constructor].
  - destruct (earliest y rest) as [m1 others1] eqn:E1.
    destruct (IH _ _ _ E1) as (l1 & l2 & Hs & Ho & Hmin).
    destruct (dueAt x <=? dueAt m1) eqn:L; injection E as <- <-.
    + apply Z.leb_le in L. exists [], (y :: rest). repeat split.
      constructor; [lia|]. eapply Forall_impl; [|exact Hmin]. simpl. intros; lia.
    + apply Z.leb_gt in L. exists (x :: l1), l2. rewrite Hs, Ho. repeat split.
      constructor; [lia|]. rewrite <- Hs. exact Hmin.
Qed.

Lemma resume_costs i t now s n c :
  bounded n t -> costs (agenda s) c -> costs (agenda (resume i t now s)) (c + n).
Proof.
  intros Hb Hc. destruct Hb as [n r|n l b k Hk|n ms k Hk]; cbn [resume].
  - cbn [agenda]. eapply costs_le; [exact Hc | lia].
  - destruct (b now (loop_env s)) as [[env' d] o]. cbn [agenda].
    apply costs_snoc; [exact Hc | exact Hk].
  - cbn [agenda]. apply costs_snoc; [exact Hc | exact Hk].
Qed.

Lemma wakeUp_costs x s n c :
  wake_bounded n (wake x) -> costs (agenda s) c -> costs (agenda (wakeUp x s)) (c + n).
Proof.
  unfold wakeUp. destruct (wake x) as [l o k|k]; cbn [wake_bounded]; intros Hb Hc.
  - apply resume_costs; [apply Hb | exact Hc].
  - apply resume_costs; assumption.
Qed.

Lemma startAll_costs n tasks : Forall (bounded n) tasks ->
  forall i now s c,
    costs (agenda s) c ->
    costs (agenda (startAll i tasks now s)) (c + List.length tasks * n).
Proof.
  induction 1 as [|t tasks Ht Hts IH]; intros i now s c Hc; cbn [startAll List.length].
  - eapply costs_le; [exact Hc | lia].
  - eapply costs_le; [apply IH, resume_costs; eassumption | lia].
Qed.

Lemma runLoop_finishes turns : forall s c,
  costs (agenda s) c -> (c <= turns)%nat -> agenda (runLoop turns s) = [].
Proof.
  induction turns as [|turns IH]; intros s c Hc Hle; cbn [runLoop].
  - inversion Hc; [reflexivity | lia].
  - destruct (agenda s) as [|x rest] eqn:Ea; [exact Ea|].
    destruct (earliest x rest) as [m others] eqn:Em.
    destruct (earliest_split _ _ Em) as (l1 & l2 & Hs & Ho & _).
    rewrite Hs in Hc. destruct (costs_remove _ _ _ Hc) as (n & c1 & Hm & Hrest & Hle1).
    apply (IH _ (c1 + n)%nat); [|lia].
    apply wakeUp_costs; [exact Hm|]. cbn [with_agenda agenda]. now rewrite Ho.
Qed.

(** What holds when the tasks have been started and is kept by every turn
    holds when the loop stops. *)
Lemma runLoop_keeps (P : Loop -> Prop) :
  (forall s x rest m others,
      P s -> agenda s = x :: rest -> earliest x rest = (m, others) ->
      P (wakeUp m (with_agenda others s))) ->
  forall turns s, P s -> P (runLoop turns s).
Proof.
  intros Hstep. induction turns as [|turns IH]; intros s Hs; cbn [runLoop]; [exact Hs|].
  destruct (agenda s) as [|x rest] eqn:Ea; [exact Hs|].
  destruct (earliest x rest) as [m others] eqn:Em.
  apply IH. eapply Hstep; eassumption.
Qed.


(** *** Each task by itself *)

(** What task [i] has done, what it waits for and its promise. *)
Definition done_by (i : nat) (s : Loop) : list (Millis * Action) :=
  map snd (filter (fun x => Nat.eqb (fst x) i) (journal s)).

Definition waits_of (i : nat) (s : Loop) : list (Millis * Wake) :=
  map (fun x => (dueAt x, wake x)) (filter (fun x => Nat.eqb (waiter x) i) (agenda s)).

Definition promise_of (i : nat) (s : Loop) : list (Promise unit) :=
  map snd (filter (fun x => Nat.eqb (fst x) i) (settled s)).

(** A task that goes on at [now] up to its next [await]. *)
Inductive starts
  : Task -> Millis -> list (Millis * Action) -> list (Millis * Wake)
    -> list (Promise unit) -> Prop :=
| starts_Finish r now : starts (Finish r) now [] [] [mkPromise now r]
| starts_Call l b k now d o :
    starts (AwaitCall l b k) now [(now, Invoked l)]
           [(now + Z.of_N d, AfterCall l o k)] []
| starts_Sleep ms k now :
    starts (AwaitSleep ms k) now [(now, Slept ms)]
           [(now + Z.max 0 ms, AfterSleep k)] [].

(** How far a task that was started at [now] has come: what it has done,
    what it waits for while it is suspended, its promise once it has
    settled. *)
Inductive stage
  : Task -> Millis -> list (Millis * Action) -> list (Millis * Wake)
    -> list (Promise unit) -> Prop :=
| stage_starts t now acts ws ps : starts t now acts ws ps -> stage t now acts ws ps
| stage_Called l b k now d o acts ws ps :
    stage (k (thrown o)) (now + Z.of_N d) acts ws ps ->
    stage (AwaitCall l b k) now
          ((now, Invoked l) :: (now + Z.of_N d, settlement l o) :: acts) ws ps
| stage_Slept ms k now acts ws ps :
    stage k (now + Z.max 0 ms) acts ws ps ->
    stage (AwaitSleep ms k) now ((now, Slept ms) :: acts) ws ps.

Definition woken (wk : Wake) : Task :=
  match wk with
  | AfterCall _ o k => k (thrown o)
  | AfterSleep k => k
  end.

Definition recorded (t : Millis) (wk : Wake) : list (Millis * Action) :=
  match wk with
  | AfterCall l o _ => [(t, settlement l o)]
  | AfterSleep _ => []
  end.

Lemma stage_waits t now acts ws ps :
  stage t now acts ws ps ->
  (ws = [] /\ exists p, ps = [p]) \/ (ps = [] /\ exists w, ws = [w]).
Proof.
  induction 1 as [t now acts ws ps Hs| |]; auto.
  destruct Hs; [left|right|right]; eauto.
Qed.

Lemma stage_advance t now acts ws ps :
  stage t now acts ws ps ->
  forall dd wk acts' ws' ps',
    ws = [(dd, wk)] ->
    starts (woken wk) dd acts' ws' ps' ->
    stage t now (acts ++ recorded dd wk ++ acts') ws' (ps ++ ps').
Proof.
  induction 1 as [t now acts ws ps Hs|l b k now d o acts ws ps Hs IH
                 |ms k now acts ws ps Hs IH]; intros dd wk acts' ws' ps' Ew Hn.
  - destruct Hs as [r now|l b k now d o|ms k now]; [discriminate| |];
      injection Ew as <- <-; cbn [woken recorded app] in *.
    + apply stage_Called, stage_starts, Hn.
    + apply stage_Slept, stage_starts, Hn.
  - cbn [app]. apply stage_Called. now apply IH.
  - cbn [app]. apply stage_Slept. now apply IH.
Qed.

Lemma filter_snoc {A} (f : A -> bool) (l : list A) (x : A) :
  filter f (l ++ [x]) = if f x then filter f l ++ [x] else filter f l.
Proof.
  rewrite filter_app. cbn [filter]. destruct (f x); [reflexivity | apply app_nil_r].
Qed.

(** A task that goes on adds to its own record and to no other. *)
Lemma resume_views i t now s :
  exists acts ws ps,
    starts t now acts ws ps
    /\ forall j,
         done_by j (resume i t now s)
         = done_by j s ++ (if Nat.eqb i j then acts else [])
         /\ waits_of j (resume i t now s)
            = waits_of j s ++ (if Nat.eqb i j then ws else [])
         /\ promise_of j (resume i t now s)
            = promise_of j s ++ (if Nat.eqb i j then ps else []).
Proof.
  destruct t as [r|l b k|ms k]; cbn [resume].
  - exists [], [], [mkPromise now r]. split; [constructor|]. intros j.
    unfold done_by, waits_of, promise_of. cbn [journal agenda settled].
    rewrite filter_snoc. cbn [fst]. destruct (Nat.eqb i j);
      rewrite ?map_app, ?app_nil_r; auto.
  - destruct (b now (loop_env s)) as [[env' d] o].
    exists [(now, Invoked l)], [(now + Z.of_N d, AfterCall l o k)], [].
    split; [constructor|]. intros j.
    unfold done_by, waits_of, promise_of. cbn [journal agenda settled].
    rewrite !filter_snoc. cbn [fst waiter]. destruct (Nat.eqb i j);
      rewrite ?map_app, ?app_nil_r; auto.
  - exists [(now, Slept ms)], [(now + Z.max 0 ms, AfterSleep k)], [].
    split; [constructor|]. intros j.
    unfold done_by, waits_of, promise_of. cbn [journal agenda settled].
    rewrite !filter_snoc. cbn [fst waiter]. destruct (Nat.eqb i j);
      rewrite ?map_app, ?app_nil_r; auto.
Qed.

Lemma wakeUp_views x s :
  exists acts ws ps,
    starts (woken (wake x)) (dueAt x) acts ws ps
    /\ forall j,
         done_by j (wakeUp x s)
         = done_by j s
             ++ (if Nat.eqb (waiter x) j then recorded (dueAt x) (wake x) ++ acts else [])
         /\ waits_of j (wakeUp x s)
            = waits_of j s ++ (if Nat.eqb (waiter x) j then ws else [])
         /\ promise_of j (wakeUp x s)
            = promise_of j s ++ (if Nat.eqb (waiter x) j then ps else []).
Proof.
  unfold wakeUp. destruct (wake x) as [l o k|k]; cbn [woken recorded].
  - match goal with |- context [resume ?i ?t ?n ?s0] =>
      destruct (resume_views i t n s0) as (acts & ws & ps & Hs & Hv)
    end.
    exists acts, ws, ps. split; [exact Hs|]. intros j.
    destruct (Hv j) as (Hd & Hw & Hp). rewrite Hd, Hw, Hp.
    unfold done_by, waits_of, promise_of. cbn [journal agenda settled].
    rewrite filter_snoc. cbn [fst]. destruct (Nat.eqb (waiter x) j);
      rewrite ?map_app, ?app_nil_r, <- ?app_assoc; auto.
  - destruct (resume_views (waiter x) k (dueAt x) s) as (acts & ws & ps & Hs & Hv).
    exists acts, ws, ps. split; [exact Hs|]. exact Hv.
Qed.

(** Every task is at a stage of its own run, and nothing else is on
    record. *)
Definition on_stage (tasks : list Task) (now : Millis) (s : Loop) : Prop :=
  forall i,
    match nth_error tasks i with
    | Some t => stage t now (done_by i s) (waits_of i s) (promise_of i s)
    | None => done_by i s = [] /\ waits_of i s = [] /\ promise_of i s = []
    end.

Lemma startAll_on_stage now tasks : forall pre s,
  on_stage pre now s ->
  on_stage (pre ++ tasks) now (startAll (List.length pre) tasks now s).
Proof.
  induction tasks as [|t tasks IH]; intros pre s Hs; cbn [startAll].
  - now rewrite app_nil_r.
  - replace (pre ++ t :: tasks) with ((pre ++ [t]) ++ tasks)
      by now rewrite <- app_assoc.
    replace (S (List.length pre)) with (List.length (pre ++ [t]))
      by (rewrite length_app; simpl; lia).
    apply IH. intros j.
    destruct (resume_views (List.length pre) t now s) as (acts & ws & ps & Hst & Hv).
    destruct (Hv j) as (Hd & Hw & Hp). rewrite Hd, Hw, Hp. specialize (Hs j).
    destruct (Nat.eqb (List.length pre) j) eqn:E.
    + apply Nat.eqb_eq in E. subst j.
      rewrite nth_error_app2, Nat.sub_diag by lia. cbn [nth_error].
      replace (nth_error pre (List.length pre)) with (@None Task) in Hs
        by (symmetry; apply nth_error_None; lia).
      destruct Hs as (-> & -> & ->). cbn [app]. now apply stage_starts.
    + apply Nat.eqb_neq in E. rewrite !app_nil_r.
      destruct (Nat.lt_ge_cases j (List.length pre)) as [Hlt|Hge].
      * now rewrite nth_error_app1 by lia.
      * replace (nth_error pre j) with (@None Task) in Hs
          by (symmetry; apply nth_error_None; lia).
        replace (nth_error (pre ++ [t]) j) with (@None Task); [exact Hs|].
        symmetry. apply nth_error_None. rewrite length_app. simpl. lia.
Qed.

Lemma on_stage_turn tasks now s x rest m others :
  on_stage tasks now s ->
  agenda s = x :: rest ->
  earliest x rest = (m, others) ->
  on_stage tasks now (wakeUp m (with_agenda others s)).
Proof.
  intros Hs Ea Em j.
  destruct (earliest_split _ _ Em) as (l1 & l2 & Hsp & Ho & _).
  destruct (wakeUp_views m (with_agenda others s)) as (acts & ws & ps & Hst & Hv).
  destruct (Hv j) as (Hd & Hw & Hp). rewrite Hd, Hw, Hp. clear Hv Hd Hw Hp.
  specialize (Hs j).
  assert (Hdone : done_by j (with_agenda others s) = done_by j s) by reflexivity.
  assert (Hprom : promise_of j (with_agenda others s) = promise_of j s) by reflexivity.
  assert (Hwait : waits_of j s
                  = map (fun x => (dueAt x, wake x))
                        (filter (fun x => Nat.eqb (waiter x) j) l1)
                    ++ (if Nat.eqb (waiter m) j then [(dueAt m, wake m)] else [])
                    ++ map (fun x => (dueAt x, wake x))
                           (filter (fun x => Nat.eqb (waiter x) j) l2)).
  { unfold waits_of. rewrite Ea, Hsp, filter_app, map_app. cbn [filter].
    destruct (Nat.eqb (waiter m) j); reflexivity. }
  assert (Hwait' : waits_of j (with_agenda others s)
                   = map (fun x => (dueAt x, wake x))
                         (filter (fun x => Nat.eqb (waiter x) j) l1)
                     ++ map (fun x => (dueAt x, wake x))
                            (filter (fun x => Nat.eqb (waiter x) j) l2)).
  { unfold waits_of. cbn [with_agenda agenda]. now rewrite Ho, filter_app, map_app. }
  rewrite Hdone, Hprom, Hwait'. rewrite Hwait in Hs.
  destruct (Nat.eqb (waiter m) j) eqn:E.
  - assert (Hone : forall (a c : list (Millis * Wake)) w0 (w1 : Millis * Wake),
               a ++ [w0] ++ c = [w1] -> a = [] /\ c = [] /\ w0 = w1).
    { intros a c w0 w1 H. destruct a as [|a0 a]; simpl in H.
      - injection H as -> ->. auto.
      - injection H as _ H. destruct a; discriminate. }
    destruct (nth_error tasks j) as [t|].
    + destruct (stage_waits Hs) as [(Hnil & _)|(Hps & w1 & Hw1)].
      * exfalso. destruct (map _ (filter _ l1)); discriminate.
      * destruct (Hone _ _ _ _ Hw1) as (E1 & E2 & <-).
        rewrite E1, E2 in *. cbn [app] in *.
        eapply stage_advance; [exact Hs | reflexivity | exact Hst].
    + exfalso. destruct Hs as (_ & Hnil & _).
      destruct (map _ (filter _ l1)); discriminate.
  - cbn [app] in Hs. rewrite !app_nil_r. exact Hs.
Qed.

(** Each turn takes one task off the agenda and either suspends it again
    or settles its promise. *)
Lemma resume_count i t now s :
  (List.length (agenda (resume i t now s)) + List.length (settled (resume i t now s))
   = S (List.length (agenda s) + List.length (settled s)))%nat.
Proof.
  destruct t as [r|l b k|ms k]; cbn [resume].
  - cbn [agenda settled]. rewrite length_app. simpl. lia.
  - destruct (b now (loop_env s)) as [[env' d] o]. cbn [agenda settled].
    rewrite length_app. simpl. lia.
  - cbn [agenda settled]. rewrite length_app. simpl. lia.
Qed.

Lemma wakeUp_count x s :
  (List.length (agenda (wakeUp x s)) + List.length (settled (wakeUp x s))
   = S (List.length (agenda s) + List.length (settled s)))%nat.
Proof.
  unfold wakeUp. destruct (wake x) as [l o k|k]; now rewrite resume_count.
Qed.

Lemma startAll_count tasks : forall i now s,
  (List.length (agenda (startAll i tasks now s))
   + List.length (settled (startAll i tasks now s))
   = List.length tasks + (List.length (agenda s) + List.length (settled s)))%nat.
Proof.
  induction tasks as [|t tasks IH]; intros i now s; cbn [startAll List.length];
    [reflexivity|].
  rewrite IH, resume_count. lia.
Qed.

Lemma runLoop_count turns s :
  (List.length (agenda (runLoop turns s)) + List.length (settled (runLoop turns s))
   = List.length (agenda s) + List.length (settled s))%nat.
Proof.
  apply (@runLoop_keeps (fun s' =>
    (List.length (agenda s') + List.length (settled s')
     = List.length (agenda s) + List.length (settled s))%nat)); [|reflexivity].
  intros s0 x rest m others H Ea Em.
  destruct (earliest_split _ _ Em) as (l1 & l2 & Hsp & Ho & _).
  rewrite wakeUp_count. cbn [with_agenda agenda settled]. rewrite <- H, Ea, Hsp, Ho.
  rewrite !length_app. simpl. lia.
Qed.

(** *** Promises settle in the order of time *)

Definition in_order (log : list (nat * Promise unit)) : Prop :=
  forall l1 p l2,
    log = l1 ++ p :: l2 ->
    Forall (fun q => settledAt (snd q) <= settledAt (snd p)) l1.

Definition on_time (start now : Millis) (s : Loop) : Prop :=
  start <= now
  /\ Forall (fun x => now <= dueAt x) (agenda s)
  /\ Forall (fun p => start <= settledAt (snd p) <= now) (settled s)
  /\ in_order (settled s).

Lemma in_order_snoc log p :
  in_order log ->
  Forall (fun q => settledAt (snd q) <= settledAt (snd p)) log ->
  in_order (log ++ [p]).
Proof.
  intros Hl Hp l1 q l2 E.
  destruct l2 as [|y l2 _] using rev_ind.
  - apply app_inj_tail in E as [<- <-]. exact Hp.
  - rewrite app_comm_cons, app_assoc in E. apply app_inj_tail in E as [E _].
    eapply Hl. exact E.
Qed.

Lemma resume_on_time start i t now s :
  on_time start now s -> on_time start now (resume i t now s).
Proof.
  intros (Hn & Ha & Hs & Ho). destruct t as [r|l b k|ms k]; cbn [resume].
  - split; [exact Hn|]. split; [exact Ha|]. cbn [settled]. split.
    + apply Forall_app. split; [exact Hs|]. constructor; [simpl; lia|constructor].
    + apply in_order_snoc; [exact Ho|].
      eapply Forall_impl; [|exact Hs]. simpl. intros; lia.
  - destruct (b now (loop_env s)) as [[env' d] o].
    split; [exact Hn|]. cbn [agenda settled]. split; [|split; assumption].
    apply Forall_app. split; [exact Ha|]. constructor; [simpl; lia|constructor].
  - split; [exact Hn|]. cbn [agenda settled]. split; [|split; assumption].
    apply Forall_app. split; [exact Ha|]. constructor; [simpl; lia|constructor].
Qed.

Lemma on_time_turn start s x rest m others :
  (exists now, on_time start now s) ->
  agenda s = x :: rest ->
  earliest x rest = (m, others) ->
  exists now, on_time start now (wakeUp m (with_agenda others s)).
Proof.
  intros [now (Hn & Ha & Hs & Hord)] Ea Em. exists (dueAt m).
  destruct (earliest_split _ _ Em) as (l1 & l2 & Hsp & Ho & Hmin).
  assert (Hm : now <= dueAt m).
  { rewrite Ea, Hsp in Ha. apply Forall_app in Ha as [_ Ha]. now inversion Ha. }
  assert (Hothers : Forall (fun y => dueAt m <= dueAt y) others).
  { rewrite Hsp in Hmin. apply Forall_app in Hmin as [H1 H2].
    rewrite Ho. apply Forall_app. split; [exact H1 | now inversion H2]. }
  assert (H0 : on_time start (dueAt m) (with_agenda others s)).
  { split; [lia|]. split; [exact Hothers|]. split; [|exact Hord].
    cbn [with_agenda settled]. eapply Forall_impl; [|exact Hs]. simpl. intros; lia. }
  unfold wakeUp. destruct (wake m) as [l o k|k]; apply resume_on_time; exact H0.
Qed.

Lemma startAll_on_time now tasks : forall i s,
  on_time now now s -> on_time now now (startAll i tasks now s).
Proof.
  induction tasks as [|t tasks IH]; intros i s Hs; cbn [startAll]; [exact Hs|].
  apply IH, resume_on_time, Hs.
Qed.

(** The first rejection in a list of settled promises. *)
Lemma find_first {A} (f : A -> bool) (l : list A) (x : A) :
  find f l = Some x ->
  exists l1 l2, l = l1 ++ x :: l2 /\ f x = true /\ Forall (fun y => f y = false) l1.
Proof.
  induction l as [|y l IH]; cbn [find]; [discriminate|].
  destruct (f y) eqn:E.
  - intros [= <-]. exists [], l. repeat split; auto.
  - intros H. destruct (IH H) as (l1 & l2 & -> & Hx & Hl).
    exists (y :: l1), l2. repeat split; auto.
Qed.



Lemma latest_ge_now {A} now0 (ps : list (nat * Promise A)) : now0 <= latest now0 ps.
Proof. induction ps as [|p ps IH]; simpl; lia. Qed.


(** The tasks of [spawn_all], once the loop has stopped. *)
Definition finished (turns : nat) (tasks : list Task) (w : Ext) : Loop :=
  runLoop turns (startAll 0 tasks (clock w) (mkLoop (env w) [] [] [])).

Lemma spawn_all_finished turns tasks w :
  spawn_all turns tasks w
  = (mkExt (clock w) (loop_env (finished turns tasks w))
           (trace w ++ map snd (journal (finished turns tasks w))),
     settled (finished turns tasks w)).
Proof. reflexivity. Qed.

Lemma finished_settles n turns tasks w :
  Forall (bounded n) tasks ->
  (List.length tasks * n <= turns)%nat ->
  agenda (finished turns tasks w) = []
  /\ List.length (settled (finished turns tasks w)) = List.length tasks
  /\ on_stage tasks (clock w) (finished turns tasks w)
  /\ in_order (settled (finished turns tasks w))
  /\ Forall (fun p => clock w <= settledAt (snd p)) (settled (finished turns tasks w)).
Proof.
  intros Hb Hturns. unfold finished.
  set (s0 := mkLoop (env w) [] [] []).
  assert (Hag : agenda (runLoop turns (startAll 0 tasks (clock w) s0)) = []).
  { apply (@runLoop_finishes turns _ (0 + List.length tasks * n)%nat); [|lia].
    apply startAll_costs; [exact Hb | constructor]. }
  split; [exact Hag|]. split; [|split].
  - pose proof (runLoop_count turns (startAll 0 tasks (clock w) s0)) as Hc.
    rewrite Hag, startAll_count in Hc. cbn in Hc. lia.
  - apply runLoop_keeps; [intros; eapply on_stage_turn; eassumption|].
    apply (@startAll_on_stage (clock w) tasks [] s0).
    intros i. destruct i; cbn; auto.
  - assert (H : exists now,
               on_time (clock w) now (runLoop turns (startAll 0 tasks (clock w) s0))).
    { apply (@runLoop_keeps (fun s => exists now, on_time (clock w) now s));
        [intros; eapply on_time_turn; eassumption|].
      exists (clock w). apply startAll_on_time.
      split; [lia|]. split; [constructor|]. split; [constructor|].
      intros l1 p l2 E. destruct l1; discriminate. }
    destruct H as (now & _ & _ & Hs & Ho). split; [exact Ho|].
    eapply Forall_impl; [|exact Hs]. simpl. intros; lia.
Qed.


(** *** One task alone *)

(** The outside world as one task sees it: the collaborators and the
    trace as the loop has them, at the instant the task goes on at. *)
Definition seen (base : list (Millis * Action)) (now : Millis) (s : Loop) : Ext :=
  mkExt now (loop_env s) (base ++ map snd (journal s)).

(** A task that has the loop to itself runs as it does when it is awaited
    at once: same calls, same sleeps, same instants, same outcome. *)
Lemma runLoop_alone base i n t :
  bounded n t ->
  forall turns now s,
    (n <= turns)%nat ->
    agenda s = [] ->
    agenda (runLoop turns (resume i t now s)) = []
    /\ settled (runLoop turns (resume i t now s))
       = settled s ++ [(i, mkPromise (clock (fst (run t (seen base now s))))
                                    (snd (run t (seen base now s))))]
    /\ loop_env (runLoop turns (resume i t now s)) = env (fst (run t (seen base now s)))
    /\ base ++ map snd (journal (runLoop turns (resume i t now s)))
       = trace (fst (run t (seen base now s))).
Proof.
  induction 1 as [n r|n l b k Hk IH|n ms k Hk IH]; intros turns now s Hturns Hag.
  - assert (E : runLoop turns (resume i (Finish r) now s) = resume i (Finish r) now s).
    { destruct turns; cbn [runLoop resume agenda]; [reflexivity | now rewrite Hag]. }
    rewrite E. cbn [resume run agenda settled loop_env journal seen fst snd clock env trace].
    auto.
  - destruct turns as [|turns]; [lia|].
    cbn [resume run]. unfold call. cbn [seen clock env trace].
    destruct (b now (loop_env s)) as [[env' d] o].
    cbn [runLoop agenda]. rewrite Hag. cbn [app earliest].
    unfold wakeUp. cbn [wake waiter dueAt with_agenda loop_env journal agenda settled].
    set (s2 := mkLoop env'
                 ((journal s ++ [(i, (now, Invoked l))])
                    ++ [(i, (now + Z.of_N d, settlement l o))]) [] (settled s)).
    destruct (IH (thrown o) turns (now + Z.of_N d) s2 ltac:(lia) eq_refl)
      as (H1 & H2 & H3 & H4).
    assert (Hseen : seen base (now + Z.of_N d) s2
                    = fst (match o with
                           | inl e =>
                               (mkExt (now + Z.of_N d) env'
                                  ((base ++ map snd (journal s))
                                     ++ [(now, Invoked l); (now + Z.of_N d, Rejected l e)]),
                                @inl Thrown unit (ThrownError e))
                           | inr v =>
                               (mkExt (now + Z.of_N d) env'
                                  ((base ++ map snd (journal s))
                                     ++ [(now, Invoked l); (now + Z.of_N d, Resolved l)]),
                                inr v)
                           end)).
    { unfold seen, s2. cbn [loop_env journal].
      rewrite !map_app. cbn [map snd].
      destruct o as [e|v]; cbn [fst settlement]; now rewrite <- !app_assoc. }
    destruct o as [e|v]; cbn [thrown fst] in *; rewrite <- Hseen; auto.
  - destruct turns as [|turns]; [lia|].
    cbn [resume run]. unfold sleep. cbn [seen clock env trace fst].
    cbn [runLoop agenda]. rewrite Hag. cbn [app earliest].
    unfold wakeUp. cbn [wake waiter dueAt with_agenda loop_env journal agenda settled].
    set (s2 := mkLoop (loop_env s) (journal s ++ [(i, (now, Slept ms))]) [] (settled s)).
    destruct (IH turns (now + Z.max 0 ms) s2 ltac:(lia) eq_refl) as (H1 & H2 & H3 & H4).
    assert (Hseen : seen base (now + Z.max 0 ms) s2
                    = mkExt (now + Z.max 0 ms) (loop_env s)
                            ((base ++ map snd (journal s)) ++ [(now, Slept ms)])).
    { unfold seen, s2. cbn [loop_env journal]. now rewrite map_app, app_assoc. }
    rewrite <- Hseen. auto.
Qed.

Lemma spawn_all_alone turns t w :
  bounded turns t ->
  spawn_all turns [t] w
  = (mkExt (clock w) (env (fst (run t w))) (trace (fst (run t w))),
     [(0%nat, mkPromise (clock (fst (run t w))) (snd (run t w)))]).
Proof.
  intros Hb. unfold spawn_all. cbn [startAll].
  destruct (@runLoop_alone (trace w) 0%nat turns t Hb turns (clock w)
              (mkLoop (env w) [] [] []) (le_n _) eq_refl) as (_ & Hs & He & Ht).
  assert (Hseen : seen (trace w) (clock w) (mkLoop (env w) [] [] []) = w).
  { unfold seen. cbn [loop_env journal map]. rewrite app_nil_r. now destruct w. }
  rewrite Hseen in *. cbn [settled app] in Hs. now rewrite Hs, He, Ht.
Qed.

(** *** What the tasks have done stays on record *)



(** ** Observers (common/observers/event-observer.pattern.ts) *)

Record EventObserver : Type := mkObserver {
  getName : string;
  getInterestedEvents : list EventType;
  update : DomainEvent -> Behaviour unit
}.

(** [BaseEventObserver.isInterestedIn]:
    [this.getInterestedEvents().includes(eventType)] *)
Definition isInterestedIn (o : EventObserver) (eventType : EventType) : bool :=
  existsb (fun t => keqb t eventType) (getInterestedEvents o).

(** The [async (observer) => { try ... catch ... }] arrow of [notify]; the
    [catch] block reads [error.message] for the log and does not rethrow. *)
Definition notifyObserver (event : DomainEvent) (observer : EventObserver) : Task :=
  AwaitCall (LUpdate (getName observer) event) (update observer event)
    (fun r =>
       match r with
       | inr _ => Finish (inr tt)
       | inl error =>
           match message_of error with
           | inr _ => Finish (inr tt)
           | inl typeError => Finish (inl (ThrownError typeError))
           end
       end).

Definition interestedObservers (observers : list EventObserver) (event : DomainEvent)
  : list EventObserver :=
  filter (fun observer => isInterestedIn observer (event_type event)) observers.

(** [interestedObservers.map(async (observer) => ...)]: each task has one
    [await], so one turn of the loop for each task settles them all. *)
Definition notificationPromises (observers : list EventObserver) (event : DomainEvent)
  : Ext -> Ext * list (nat * Promise unit) :=
  spawn_all (List.length (interestedObservers observers event))
            (map (notifyObserver event) (interestedObservers observers event)).

(** [EventSubject.notify(event)], [observers] being [this.observers]. *)
Definition notify (observers : list EventObserver) (event : DomainEvent) : X unit :=
  if Nat.eqb (List.length (interestedObservers observers event)) 0
  then xret tt
  else fun w =>
         let '(w1, promises) := notificationPromises observers event w in
         xbind (await (Promise_allSettled (clock w1) promises))
               (fun _ => xret tt) w1.

(** The labels of the calls in a list of actions, in order. *)
Fixpoint invoked (acts : list Action) : list Label :=
  match acts with
  | [] => []
  | Invoked l :: acts' => l :: invoked acts'
  | _ :: acts' => invoked acts'
  end.

Lemma invoked_app a b : invoked (a ++ b) = invoked a ++ invoked b.
Proof.
  induction a as [|x a IH]; simpl; auto.
  destruct x; simpl; now rewrite ?IH.
Qed.






(** The calls on record in the loop, in order. *)
Definition called (s : Loop) : list Label :=
  invoked (map (fun x => snd (snd x)) (journal s)).

(** A suspended task that settles, fulfilled, when it goes on. *)
Definition settling (x : Waiting) : Prop := woken (wake x) = Finish (inr tt).

Lemma called_snoc s i t a :
  invoked (map (fun x : nat * (Millis * Action) => snd (snd x)) (journal s ++ [(i, (t, a))]))
  = called s ++ invoked [a].
Proof. unfold called. now rewrite map_app, invoked_app. Qed.

Lemma resume_notifyObserver i event o now s :
  called (resume i (notifyObserver event o) now s)
  = called s ++ [LUpdate (getName o) event]
  /\ (Forall settling (agenda s) ->
      Forall settling (agenda (resume i (notifyObserver event o) now s)))
  /\ settled (resume i (notifyObserver event o) now s) = settled s.
Proof.
  unfold notifyObserver. cbn [resume].
  destruct (update o event now (loop_env s)) as [[env' d] out].
  split; [|split].
  - unfold called at 1. cbn [journal]. now rewrite called_snoc.
  - intros Hag. cbn [agenda]. apply Forall_app. split; [exact Hag|].
    constructor; [|constructor]. unfold settling. cbn [wake woken].
    destruct out as [e|[]]; reflexivity.
  - reflexivity.
Qed.

Lemma startAll_notifyObserver event os : forall i now s,
  called (startAll i (map (notifyObserver event) os) now s)
  = called s ++ map (fun o => LUpdate (getName o) event) os
  /\ (Forall settling (agenda s) ->
      Forall settling (agenda (startAll i (map (notifyObserver event) os) now s)))
  /\ settled (startAll i (map (notifyObserver event) os) now s) = settled s.
Proof.
  induction os as [|o os IH]; intros i now s; cbn [map startAll].
  - rewrite app_nil_r. auto.
  - destruct (IH (S i) now (resume i (notifyObserver event o) now s)) as (Hc & Ha & Hs).
    destruct (resume_notifyObserver i event o now s) as (Hc1 & Ha1 & Hs1).
    rewrite Hc, Hs, Hc1, Hs1, <- app_assoc. auto.
Qed.

Lemma wakeUp_settling x s :
  settling x ->
  called (wakeUp x s) = called s
  /\ agenda (wakeUp x s) = agenda s
  /\ settled (wakeUp x s) = settled s ++ [(waiter x, mkPromise (dueAt x) (inr tt))].
Proof.
  unfold settling, wakeUp. destruct (wake x) as [l o k|k]; cbn [woken]; intros ->;
    cbn [resume]; repeat split.
  unfold called. cbn [journal]. rewrite map_app, invoked_app.
  destruct o; cbn; apply app_nil_r.
Qed.

Lemma runLoop_settling turns s :
  Forall settling (agenda s) ->
  Forall (fun p => outcome (snd p) = inr tt) (settled s) ->
  called (runLoop turns s) = called s
  /\ Forall (fun p => outcome (snd p) = inr tt) (settled (runLoop turns s)).
Proof.
  intros Ha Hs.
  assert (H : Forall settling (agenda (runLoop turns s))
              /\ called (runLoop turns s) = called s
              /\ Forall (fun p => outcome (snd p) = inr tt) (settled (runLoop turns s))).
  { apply (@runLoop_keeps (fun s' =>
       Forall settling (agenda s') /\ called s' = called s
       /\ Forall (fun p => outcome (snd p) = inr tt) (settled s'))); [|auto].
    intros s0 x rest m others (Hag & Hc & Hst) Ea Em.
    destruct (earliest_split _ _ Em) as (l1 & l2 & Hsp & Ho & _).
    rewrite Ea, Hsp in Hag. apply Forall_app in Hag as [H1 H2].
    inversion H2 as [|? ? Hm H3]; subst.
    destruct (wakeUp_settling (with_agenda (l1 ++ l2) s0) Hm) as (Hc' & Ha' & Hs').
    rewrite Hc', Ha', Hs'. cbn [with_agenda agenda settled]. split; [|split].
    - apply Forall_app; auto.
    - exact Hc.
    - apply Forall_app. split; [exact Hst|]. constructor; [reflexivity|constructor]. }
  destruct H as (_ & Hc & Hst). auto.
Qed.



Lemma bounded_notifyObserver event o : bounded 1 (notifyObserver event o).
Proof.
  unfold notifyObserver. constructor. intros [t|v]; [|constructor].
  destruct (message_of t); constructor.
Qed.

(** What the fan-out leaves: the interested observers are called in list
    order when the tasks are started, and each task settles, fulfilled. *)
Lemma notificationPromises_settle observers event w :
  clock (fst (notificationPromises observers event w)) = clock w
  /\ (exists acts,
        actions (fst (notificationPromises observers event w)) = actions w ++ acts
        /\ invoked acts
           = map (fun o => LUpdate (getName o) event)
                 (interestedObservers observers event))
  /\ List.length (snd (notificationPromises observers event w))
     = List.length (interestedObservers observers event)
  /\ Forall (fun p => outcome (snd p) = inr tt)
            (snd (notificationPromises observers event w)).
Proof.
  unfold notificationPromises. rewrite spawn_all_finished. cbn [fst snd clock].
  set (os := interestedObservers observers event).
  set (s0 := mkLoop (env w) [] [] []).
  destruct (startAll_notifyObserver event os 0 (clock w) s0) as (Hc & Ha & Hs).
  destruct (@runLoop_settling (List.length os)
              (startAll 0 (map (notifyObserver event) os) (clock w) s0))
    as (Hc2 & Hf); [apply Ha; constructor | rewrite Hs; constructor|].
  split; [reflexivity|]. split; [|split].
  - exists (map (fun x => snd (snd x)) (journal (finished (List.length os)
                                   (map (notifyObserver event) os) w))).
    split.
    + unfold actions. cbn [trace]. now rewrite map_app, map_map.
    + unfold finished. fold s0. fold (called (runLoop (List.length os)
          (startAll 0 (map (notifyObserver event) os) (clock w) s0))).
      rewrite Hc2, Hc. reflexivity.
  - destruct (@finished_settles 1 (List.length os) (map (notifyObserver event) os) w)
      as (_ & Hl & _).
    + apply Forall_forall. intros t Ht. apply in_map_iff in Ht as (o & <- & _).
      apply bounded_notifyObserver.
    + rewrite length_map. lia.
    + now rewrite Hl, length_map.
  - exact Hf.
Qed.

Lemma notify_resolves observers event e : snd (notify observers event e) = inr tt.
Proof.
  unfold notify.
  destruct (Nat.eqb (List.length (interestedObservers observers event)) 0);
    [reflexivity|].
  destruct (notificationPromises observers event e) as [e1 promises].
  reflexivity.
Qed.

Lemma notify_invoked observers event w :
  exists acts,
    actions (fst (notify observers event w)) = actions w ++ acts
    /\ invoked acts
       = map (fun o => LUpdate (getName o) event) (interestedObservers observers event).
Proof.
  unfold notify.
  destruct (notificationPromises_settle observers event w) as (_ & (acts & Ha & Hi) & _).
  destruct (interestedObservers observers event) as [|o os] eqn:EI.
  - exists []. cbn. now rewrite app_nil_r.
  - cbn [List.length Nat.eqb].
    destruct (notificationPromises observers event w) as [w1 ps].
    exists acts. split; [exact Ha | exact Hi].
Qed.




(** ** The batch service (modules/batch/services/batch-processor.service.ts) *)

Record PendingBatch : Type := mkPendingBatch {
  batch_eventType : EventType;
  batch_events : list DomainEvent;
  batch_createdAt : Millis;
  batch_maxSize : Z
}.

Inductive JobStatus : Type := PENDING | PROCESSING | COMPLETED | FAILED.

Record BatchJob : Type := mkBatchJob {
  job_id : string;
  job_type : string;
  job_events : list DomainEvent;
  job_batchSize : nat;
  job_status : JobStatus;
  job_createdAt : Millis;
  job_startedAt : option Millis;
  job_completedAt : option Millis;
  job_error : option string
}.

(** The read-only fields of [BatchProcessorService]. *)
Record BatchProcessorService : Type := mkBatchService {
  batchSize : Z;
  batchTimeout : Z;
  processorFactory : ConcreteEventProcessorFactory
}.

(** The [n]-th identifier that [uuidv4()] hands out. *)
Variable uuidv4 : nat -> string.

(** The mutable state: the outside world, the two maps of the service, the
    number of identifiers drawn so far, and the evictions that
    [setTimeout] has scheduled (instant and job id), oldest first. *)
Record World : Type := mkWorld {
  ext : Ext;
  pendingBatches : JsMap.t EventType PendingBatch;
  activeBatches : JsMap.t string BatchJob;
  uuidCalls : nat;
  timers : list (Millis * string)
}.

(** Each flush, and nothing else, draws one job identifier: the number of
    identifiers drawn so far counts the flushes. *)
Definition flushes (w : World) : nat := uuidCalls w.

Definition M (A : Type) : Type := World -> World * Result A.

Definition mret {A} (a : A) : M A := fun w => (w, inr a).

Definition mthrow {A} (t : Thrown) : M A := fun w => (w, inl t).

Definition mbind {A B} (c : M A) (k : A -> M B) : M B :=
  fun w => match c w with
           | (w', inr a) => k a w'
           | (w', inl t) => (w', inl t)
           end.

Definition mcatch {A} (c : M A) (h : Thrown -> M A) : M A :=
  fun w => match c w with
           | (w', inr a) => (w', inr a)
           | (w', inl t) => h t w'
           end.

(** [try { c } finally { fin }] for a [fin] that does not throw. *)
Definition mfinally {A} (c : M A) (fin : World -> World) : M A :=
  fun w => let '(w', r) := c w in (fin w', r).

(** The evictions that are due at the current instant run, oldest first. *)
Definition runTimers (w : World) : World :=
  let due := filter (fun tm => fst tm <=? clock (ext w)) (timers w) in
  let rest := filter (fun tm => negb (fst tm <=? clock (ext w))) (timers w) in
  mkWorld (ext w) (pendingBatches w)
          (fold_left (fun m tm => JsMap.delete (snd tm) m) due (activeBatches w))
          (uuidCalls w) rest.

(** The service once the outside world has come to [e]: while the service
    waits, the event loop runs the evictions that fall due. *)
Definition with_ext (e : Ext) (w : World) : World :=
  runTimers (mkWorld e (pendingBatches w) (activeBatches w) (uuidCalls w) (timers w)).

(** An [async] function over the outside world, awaited. *)
Definition liftX {A} (c : X A) : M A :=
  fun w => let '(e, r) := c (ext w) in (with_ext e w, r).

Definition modify (f : World -> World) : M unit := fun w => (f w, inr tt).

Notation "x <- c ;; k" := (mbind c (fun x => k))
  (at level 61, c at next level, right associativity).
Notation "c ;;; k" := (mbind c (fun _ => k))
  (at level 61, right associativity).

(** [for (const x of xs) { await body(x) }] *)
Fixpoint forEach {A} (xs : list A) (body : A -> M unit) : M unit :=
  match xs with
  | [] => mret tt
  | x :: xs' => body x ;;; forEach xs' body
  end.

Definition set_pendingBatches (f : JsMap.t EventType PendingBatch -> JsMap.t EventType PendingBatch)
    (w : World) : World :=
  mkWorld (ext w) (f (pendingBatches w)) (activeBatches w) (uuidCalls w) (timers w).

Definition set_activeBatches (f : JsMap.t string BatchJob -> JsMap.t string BatchJob)
    (w : World) : World :=
  mkWorld (ext w) (pendingBatches w) (f (activeBatches w)) (uuidCalls w) (timers w).

(** [uuidv4()] *)
Definition draw_uuid : M string :=
  fun w =>
    (mkWorld (ext w) (pendingBatches w) (activeBatches w) (S (uuidCalls w)) (timers w),
     inr (uuidv4 (uuidCalls w))).

(** [setTimeout(() => this.activeBatches.delete(id), ms)] *)
Definition setTimeout_delete (id : string) (ms : Z) (w : World) : World :=
  mkWorld (ext w) (pendingBatches w) (activeBatches w) (uuidCalls w)
          (timers w ++ [(clock (ext w) + ms, id)]).

(** An assignment to a field of the [batchJob] object.  The object is the
    one stored under its id in [activeBatches], so the assignment shows in
    the entry; when an eviction has removed the entry while the tasks were
    awaited, the map holds no job to show it in. *)
Definition updateJob (id : string) (f : BatchJob -> BatchJob) : M unit :=
  modify (set_activeBatches (fun m =>
    match JsMap.get id m with
    | Some job => JsMap.set id (f job) m
    | None => m
    end)).

Definition set_status (st : JobStatus) (j : BatchJob) : BatchJob :=
  mkBatchJob (job_id j) (job_type j) (job_events j) (job_batchSize j) st
             (job_createdAt j) (job_startedAt j) (job_completedAt j) (job_error j).

Definition set_completedAt (t : Millis) (j : BatchJob) : BatchJob :=
  mkBatchJob (job_id j) (job_type j) (job_events j) (job_batchSize j) (job_status j)
             (job_createdAt j) (job_startedAt j) (Some t) (job_error j).

Definition set_error (msg : string) (j : BatchJob) : BatchJob :=
  mkBatchJob (job_id j) (job_type j) (job_events j) (job_batchSize j) (job_status j)
             (job_createdAt j) (job_startedAt j) (job_completedAt j) (Some msg).

(** [new Date()] *)
Definition now : M Millis := fun w => (w, inr (clock (ext w))).

Definition noProcessorError (eventType : EventType) : Thrown :=
  ThrownError (mkError (String.append "No processor found for event type: "
                                      (EventType_toString eventType))).

(** [processEventWithRetry] called without [await]: the steps of
    [processEventWithRetry_loop] as a task, [processFn(event)] being the
    call [l] of the external function [processFn]. *)
Fixpoint processEventWithRetry_task (l : Label) (processFn : Behaviour unit)
    (maxRetries : nat) (iterations attempt : nat) (lastError : Thrown) : Task :=
  match iterations with
  | O => Finish (inl lastError)
  | S iterations' =>
      AwaitCall l processFn (fun r =>
        match r with
        | inr v => Finish (inr v)
        | inl error =>
            match message_of error with
            | inl typeError => Finish (inl (ThrownError typeError))
            | inr _ =>
                if Nat.ltb attempt maxRetries
                then AwaitSleep (2 ^ Z.of_nat (attempt - 1) * 1000)
                       (processEventWithRetry_task l processFn maxRetries
                                                   iterations' (S attempt) error)
                else processEventWithRetry_task l processFn maxRetries
                                                iterations' (S attempt) error
            end
        end)
  end.

(** [this.processEventWithRetry(processor.process.bind(processor), event)] *)
Definition processingTask (processor : EventProcessorStrategy) (event : DomainEvent)
  : Task :=
  processEventWithRetry_task (LProcess event) (process processor event)
                             3 3 1 ThrownUndefined.

(** [batch.events.map(event => this.processEventWithRetry(
       processor.process.bind(processor), event))].  A task has at most
    three calls and a sleep after each: six turns of the loop for each task
    settle them all. *)
Definition processingPromises (processor : EventProcessorStrategy)
    (events : list DomainEvent) : Ext -> Ext * list (nat * Promise unit) :=
  spawn_all (List.length events * 6) (map (processingTask processor) events).

(** [await Promise.all(processingPromises)] after building them.  The
    caller goes on when [Promise.all] settles; the tasks that are still
    running then go on by themselves. *)
Definition processAll (processor : EventProcessorStrategy) (events : list DomainEvent)
  : X unit :=
  fun e =>
    let '(e1, promises) := processingPromises processor events e in
    await (Promise_all (clock e1) promises) e1.

(** [processBatch(eventType)] *)
Definition processBatch (this : BatchProcessorService) (eventType : EventType) : M unit :=
  fun w =>
    match JsMap.get eventType (pendingBatches w) with
    | None => (w, inr tt)
    | Some batch =>
        if Nat.eqb (List.length (batch_events batch)) 0 then (w, inr tt)
        else
          (modify (set_pendingBatches (JsMap.delete eventType)) ;;;
           id <- draw_uuid ;;
           startedAt <- now ;;
           modify (set_activeBatches (JsMap.set id
             (mkBatchJob id (EventType_toString eventType) (batch_events batch)
                         (List.length (batch_events batch)) PROCESSING
                         (batch_createdAt batch) (Some startedAt) None None))) ;;;
           mfinally
             (mcatch
                (match createProcessor (processorFactory this) eventType with
                 | None => mthrow (noProcessorError eventType)
                 | Some processor =>
                     liftX (processAll processor (batch_events batch)) ;;;
                     updateJob id (set_status COMPLETED) ;;;
                     completedAt <- now ;;
                     updateJob id (set_completedAt completedAt)
                 end)
                (fun error =>
                   updateJob id (set_status FAILED) ;;;
                   match message_of error with
                   | inl typeError => mthrow (ThrownError typeError)
                   | inr msg =>
                       updateJob id (set_error msg) ;;;
                       completedAt <- now ;;
                       updateJob id (set_completedAt completedAt)
                   end))
             (setTimeout_delete id 60000)) w
    end.

(** [batch.events.push(event)] *)
Definition push_event (batch : PendingBatch) (event : DomainEvent) : PendingBatch :=
  mkPendingBatch (batch_eventType batch) (batch_events batch ++ [event])
                 (batch_createdAt batch) (batch_maxSize batch).

(** [addEventToBatch(event)] *)
Definition addEventToBatch (this : BatchProcessorService) (event : DomainEvent) : M unit :=
  match createProcessor (processorFactory this) (event_type event) with
  | None => mret tt
  | Some processor =>
      if negb (supportsBatchProcessing processor) then mret tt
      else
        fun w =>
          let batch :=
            match JsMap.get (event_type event) (pendingBatches w) with
            | Some batch => batch
            | None => mkPendingBatch (event_type event) [] (clock (ext w))
                                     (getBatchSize processor)
            end in
          let batch' := push_event batch event in
          let w' := set_pendingBatches (JsMap.set (event_type event) batch') w in
          if Z.of_nat (List.length (batch_events batch')) >=? batch_maxSize batch'
          then processBatch this (event_type event) w'
          else (w', inr tt)
  end.

(** [processTimedOutBatches()], the sweep run every ten seconds. *)
Definition timedOutBatches (this : BatchProcessorService) (w : World) : list EventType :=
  map fst
      (filter (fun entry =>
                 let batchAge := clock (ext w) - batch_createdAt (snd entry) in
                 (batchAge >=? batchTimeout this)
                 && Nat.ltb 0 (List.length (batch_events (snd entry))))
              (JsMap.entries (pendingBatches w))).

Definition processTimedOutBatches (this : BatchProcessorService) : M unit :=
  fun w =>
    let timedOut := timedOutBatches this w in
    if Nat.ltb 0 (List.length timedOut)
    then forEach timedOut (processBatch this) w
    else (w, inr tt).

(** [forceBatchProcessing(eventType?)] *)
Definition forceBatchProcessing (this : BatchProcessorService)
    (eventType : option EventType) : M unit :=
  match eventType with
  | Some t => processBatch this t
  | None => fun w => forEach (JsMap.keys (pendingBatches w)) (processBatch this) w
  end.

(** [getBatchStatistics()].  [batchesByType] is an object with one
    property per event type name. *)
Record BatchStatistics : Type := mkBatchStatistics {
  stats_pendingBatches : nat;
  stats_activeBatches : nat;
  stats_totalPendingEvents : nat;
  stats_batchesByType : JsMap.t string nat
}.

Definition getBatchStatistics (w : World) : BatchStatistics :=
  let '(batchesByType, totalPendingEvents) :=
    fold_left
      (fun acc entry =>
         (JsMap.set (EventType_toString (fst entry))
                    (List.length (batch_events (snd entry))) (fst acc),
          (snd acc + List.length (batch_events (snd entry)))%nat))
      (JsMap.entries (pendingBatches w))
      (JsMap.empty, 0%nat) in
  mkBatchStatistics (JsMap.size (pendingBatches w)) (JsMap.size (activeBatches w))
                    totalPendingEvents batchesByType.

Definition getActiveBatches (w : World) : list BatchJob :=
  JsMap.values (activeBatches w).

(** ** The dispatcher (modules/event-processor/event-processor.service.ts) *)

Record EventProcessorService : Type := mkDispatcher {
  eventSubject : list EventObserver;
  batchProcessor : BatchProcessorService
}.

(** Both services are given the same factory object. *)
Definition dispatcherFactory (this : EventProcessorService) : ConcreteEventProcessorFactory :=
  processorFactory (batchProcessor this).

(** [processEvent(event)]; the [catch] block logs [error.message] and
    rethrows. *)
Definition processEvent (this : EventProcessorService) (event : DomainEvent) : M unit :=
  mcatch
    (match createProcessor (dispatcherFactory this) (event_type event) with
     | None => mthrow (noProcessorError (event_type event))
     | Some processor =>
         (if supportsBatchProcessing processor
          then addEventToBatch (batchProcessor this) event
          else liftX (process_call processor event)) ;;;
         liftX (notify (eventSubject this) event)
     end)
    (fun error =>
       match message_of error with
       | inl typeError => mthrow (ThrownError typeError)
       | inr _ => mthrow error
       end).

(** ** What one flush does *)

(** The [try] block of [processBatch], as far as the outside world goes. *)
Definition runBatch (this : BatchProcessorService) (eventType : EventType)
    (events : list DomainEvent) : X unit :=
  match createProcessor (processorFactory this) eventType with
  | None => xthrow (noProcessorError eventType)
  | Some processor => processAll processor events
  end.

(** The job as [processBatch] registers it. *)
Definition startedJob (id : string) (eventType : EventType) (batch : PendingBatch)
    (startedAt : Millis) : BatchJob :=
  mkBatchJob id (EventType_toString eventType) (batch_events batch)
             (List.length (batch_events batch)) PROCESSING
             (batch_createdAt batch) (Some startedAt) None None.

(** The job once the [try] block has settled with [r] at instant [t]. *)
Definition finishedJob (job : BatchJob) (r : Result unit) (t : Millis) : BatchJob :=
  match r with
  | inr _ => set_completedAt t (set_status COMPLETED job)
  | inl error =>
      match message_of error with
      | inr msg => set_completedAt t (set_error msg (set_status FAILED job))
      | inl _ => set_status FAILED job
      end
  end.

(** How [processBatch] itself settles. *)
Definition batchResult (r : Result unit) : Result unit :=
  match r with
  | inr _ => inr tt
  | inl error =>
      match message_of error with
      | inr _ => inr tt
      | inl typeError => inl (ThrownError typeError)
      end
  end.

(** The assignments to the job of [id], if the map still holds it. *)
Definition finishJob (id : string) (r : Result unit) (t : Millis)
    (m : JsMap.t string BatchJob) : JsMap.t string BatchJob :=
  match JsMap.get id m with
  | Some job => JsMap.set id (finishedJob job r t) m
  | None => m
  end.

(** The service when the tasks of the flush have been started: the batch
    is no longer pending and its job is registered. *)
Definition started (eventType : EventType) (batch : PendingBatch) (w : World) : World :=
  mkWorld (ext w)
          (JsMap.delete eventType (pendingBatches w))
          (JsMap.set (uuidv4 (uuidCalls w))
             (startedJob (uuidv4 (uuidCalls w)) eventType batch (clock (ext w)))
             (activeBatches w))
          (S (uuidCalls w))
          (timers w).

(** A flush.  With a handler the tasks are awaited, and the evictions that
    fall due meanwhile run before the job is finished; without one nothing
    is awaited.  The job is finished where the map still holds it, and its
    own eviction is scheduled. *)
Definition flushed (this : BatchProcessorService) (eventType : EventType)
    (batch : PendingBatch) (w : World) : World * Result unit :=
  let id := uuidv4 (uuidCalls w) in
  let out := runBatch this eventType (batch_events batch) (ext w) in
  let resumed :=
    match createProcessor (processorFactory this) eventType with
    | Some _ => with_ext (fst out) (started eventType batch w)
    | None => started eventType batch w
    end in
  (setTimeout_delete id 60000
     (set_activeBatches (finishJob id (snd out) (clock (fst out))) resumed),
   batchResult (snd out)).

Lemma processBatch_absent this eventType w :
  JsMap.get eventType (pendingBatches w) = None ->
  processBatch this eventType w = (w, inr tt).
Proof. intros G. unfold processBatch. now rewrite G. Qed.

Ltac run_monad :=
  cbv beta iota zeta delta
    [mbind mfinally mcatch modify draw_uuid now updateJob liftX mthrow mret
     set_activeBatches set_pendingBatches setTimeout_delete
     ext pendingBatches activeBatches uuidCalls timers fst snd].

Ltac same_key := repeat (rewrite JsMap.get_set_same || rewrite JsMap.set_set).

Lemma ext_with_ext e w : ext (with_ext e w) = e.
Proof. reflexivity. Qed.

Lemma pendingBatches_with_ext e w : pendingBatches (with_ext e w) = pendingBatches w.
Proof. reflexivity. Qed.

Lemma uuidCalls_with_ext e w : uuidCalls (with_ext e w) = uuidCalls w.
Proof. reflexivity. Qed.

Lemma processBatch_flush this eventType w batch :
  JsMap.get eventType (pendingBatches w) = Some batch ->
  batch_events batch <> [] ->
  processBatch this eventType w = flushed this eventType batch w.
Proof.
  destruct w as [e pending active drawn tm]. cbn [pendingBatches].
  intros G Hne. unfold processBatch, flushed, runBatch, started, startedJob.
  cbn [pendingBatches]. rewrite G.
  destruct (batch_events batch) as [|e0 es] eqn:Eev; [congruence|].
  cbn [List.length Nat.eqb]. run_monad.
  destruct (createProcessor (processorFactory this) eventType) as [processor|].
  - run_monad.
    destruct (processAll processor (e0 :: es) e) as [e2 r].
    match goal with |- context [with_ext e2 ?w0] => remember (with_ext e2 w0) as w2 eqn:E2 end.
    assert (Hx : ext w2 = e2) by now subst w2.
    clear E2. destruct w2 as [x2 pending2 active2 drawn2 timers2]. cbn [ext] in Hx. subst x2.
    unfold finishJob, finishedJob, batchResult.
    destruct r as [error|[]]; run_monad.
    + destruct (message_of error) as [te|msg]; run_monad;
        destruct (JsMap.get (uuidv4 drawn) active2) as [job|] eqn:Ej;
        same_key; rewrite ?Ej; reflexivity.
    + destruct (JsMap.get (uuidv4 drawn) active2) as [job|] eqn:Ej;
        same_key; rewrite ?Ej; reflexivity.
  - unfold xthrow, noProcessorError, finishJob, finishedJob, batchResult, message_of.
    run_monad. same_key. reflexivity.
Qed.

Lemma processBatch_empty this eventType w batch :
  JsMap.get eventType (pendingBatches w) = Some batch ->
  batch_events batch = [] ->
  processBatch this eventType w = (w, inr tt).
Proof. intros G E. unfold processBatch. now rewrite G, E. Qed.

(** ** The tasks of a batch *)

Lemma clock_call {T} (l : Label) (op : Behaviour T) w :
  clock w <= clock (fst (call l op w)).
Proof.
  unfold call. destruct (op (clock w) (env w)) as [[env' d] [e|v]]; simpl; lia.
Qed.

Lemma clock_sleep ms w : clock w <= clock (fst (sleep ms w)).
Proof. unfold sleep. simpl. lia. Qed.

Lemma clock_retry_loop {T} (l : Label) (op : Behaviour T) maxAttempts delay :
  forall iterations attempt lastError w,
    clock w <= clock (fst (retry_loop (call l op) maxAttempts delay
                                      iterations attempt lastError w)).
Proof.
  induction iterations as [|i IH]; intros attempt lastError w;
    cbn [retry_loop]; [unfold xthrow; simpl; lia|].
  unfold xcatch. pose proof (clock_call l op w) as Hc.
  destruct (call l op w) as [w1 [error|v]]; simpl in Hc; [|simpl; lia].
  destruct (message_of error) as [typeError|msg]; [unfold xthrow; simpl; lia|].
  unfold xbind. destruct (Nat.ltb attempt maxAttempts).
  - pose proof (clock_sleep (delay * 2 ^ Z.of_nat (attempt - 1)) w1) as Hs.
    destruct (sleep (delay * 2 ^ Z.of_nat (attempt - 1)) w1) as [w2 [t|u]];
      simpl in Hs; [simpl; lia|].
    specialize (IH (S attempt) error w2). lia.
  - unfold xret. specialize (IH (S attempt) error w1). lia.
Qed.

(** A task of the batch that is awaited at once is
    [processEventWithRetry], as [retry] and [C8] know it. *)
Lemma run_processEventWithRetry_task (processor : EventProcessorStrategy)
    (event : DomainEvent) (maxRetries : nat) :
  forall iterations attempt lastError w,
    run (processEventWithRetry_task (LProcess event) (process processor event)
                                    maxRetries iterations attempt lastError) w
    = processEventWithRetry_loop (process_call processor) event maxRetries
                                 iterations attempt lastError w.
Proof.
  induction iterations as [|i IH]; intros attempt lastError w;
    cbn [processEventWithRetry_task processEventWithRetry_loop run]; [reflexivity|].
  unfold xcatch, process_call.
  destruct (call (LProcess event) (process processor event) w) as [w' [error|v]];
    [|reflexivity].
  destruct (message_of error) as [typeError|msg]; [reflexivity|].
  unfold xbind. destruct (Nat.ltb attempt maxRetries); cbn [run].
  - unfold sleep at 2. cbn [fst]. apply IH.
  - unfold xret. apply IH.
Qed.

Lemma run_processingTask processor event w :
  run (processingTask processor event) w
  = processEventWithRetry (process_call processor) event 3 w.
Proof. apply run_processEventWithRetry_task. Qed.

Lemma bounded_processEventWithRetry_task l processFn maxRetries :
  forall iterations attempt lastError,
    bounded (2 * iterations)
            (processEventWithRetry_task l processFn maxRetries iterations attempt lastError).
Proof.
  induction iterations as [|i IH]; intros attempt lastError;
    cbn [processEventWithRetry_task]; [constructor|].
  replace (2 * S i)%nat with (S (S (2 * i))) by lia.
  constructor. intros [error|v]; [|constructor].
  destruct (message_of error) as [typeError|msg]; [constructor|].
  destruct (Nat.ltb attempt maxRetries).
  - constructor. apply IH.
  - eapply bounded_le; [apply IH | lia].
Qed.

(** A batch of one event: its task in the loop is [processEventWithRetry]
    as it runs when it is awaited. *)
Lemma processingPromises_alone processor event w :
  processingPromises processor [event] w
  = (mkExt (clock w)
           (env (fst (processEventWithRetry (process_call processor) event 3 w)))
           (trace (fst (processEventWithRetry (process_call processor) event 3 w))),
     [(0%nat,
       mkPromise (clock (fst (processEventWithRetry (process_call processor) event 3 w)))
                 (snd (processEventWithRetry (process_call processor) event 3 w)))]).
Proof.
  unfold processingPromises. cbn [List.length map Nat.mul Nat.add].
  rewrite spawn_all_alone, run_processingTask; [reflexivity|].
  apply (@bounded_processEventWithRetry_task (LProcess event) (process processor event)
           3 3 1 ThrownUndefined).
Qed.

(** *** What the trace shows of the task of an event *)

(** The calls of [process] for the event of id [id] that have settled:
    instant and outcome. *)
Definition attemptOf (id : string) (a : Millis * Action)
  : option (Millis * (Error + unit)) :=
  match snd a with
  | Resolved (LProcess e) =>
      if String.eqb (event_id e) id then Some (fst a, inr tt) else None
  | Rejected (LProcess e) err =>
      if String.eqb (event_id e) id then Some (fst a, inl err) else None
  | _ => None
  end.

Fixpoint attempts (id : string) (tr : list (Millis * Action))
  : list (Millis * (Error + unit)) :=
  match tr with
  | [] => []
  | a :: tr' =>
      match attemptOf id a with
      | Some x => x :: attempts id tr'
      | None => attempts id tr'
      end
  end.

(** The calls of [process] for the event of id [id] that were made. *)
Definition callOf (id : string) (a : Millis * Action) : bool :=
  match snd a with
  | Invoked (LProcess e) => String.eqb (event_id e) id
  | _ => false
  end.

Definition calls (id : string) (tr : list (Millis * Action)) : nat :=
  List.length (filter (callOf id) tr).

Definition failure (x : Millis * Error) : Millis * (Error + unit) :=
  (fst x, inl (snd x)).

(** A whole run of the retry schedule of [budget] attempts, by its settled
    calls: failures and then a success within the budget, at [t]; or as
    many failures as the budget allows, the last one at [t] with [err]. *)
Inductive wholeRun (budget : nat)
  : list (Millis * (Error + unit)) -> Millis -> Result unit -> Prop :=
| run_succeeds errs t :
    (List.length errs < budget)%nat ->
    wholeRun budget (map failure errs ++ [(t, inr tt)]) t (inr tt)
| run_exhausted errs t err :
    (S (List.length errs) = budget)%nat ->
    wholeRun budget (map failure errs ++ [(t, inl err)]) t (inl (ThrownError err)).


(** An action of the task of [e]: a sleep, or a call of [process] for
    [e]. *)
Definition owned (e : DomainEvent) (a : Millis * Action) : Prop :=
  match snd a with
  | Invoked l | Resolved l | Rejected l _ => l = LProcess e
  | Slept _ => True
  end.

Lemma attempts_app id a b : attempts id (a ++ b) = attempts id a ++ attempts id b.
Proof.
  induction a as [|x a IH]; cbn [app attempts]; [reflexivity|].
  destruct (attemptOf id x); cbn [app]; now rewrite IH.
Qed.

Lemma record_of_call (e : DomainEvent) (now t : Millis) (o : Error + unit)
    (acts : list (Millis * Action)) :
  calls (event_id e) ((now, Invoked (LProcess e)) :: (t, settlement (LProcess e) o) :: acts)
  = S (calls (event_id e) acts)
  /\ attempts (event_id e)
       ((now, Invoked (LProcess e)) :: (t, settlement (LProcess e) o) :: acts)
     = (t, match o with inl err => inl err | inr _ => inr tt end)
         :: attempts (event_id e) acts.
Proof.
  unfold calls. cbn [filter attempts]. unfold callOf, attemptOf.
  destruct o as [err|v]; cbn [snd fst settlement]; rewrite String.eqb_refl; auto.
Qed.

Lemma record_of_sleep id (now : Millis) ms (acts : list (Millis * Action)) :
  calls id ((now, Slept ms) :: acts) = calls id acts
  /\ attempts id ((now, Slept ms) :: acts) = attempts id acts.
Proof. split; reflexivity. Qed.

(** The run of a task of the batch that has settled: the shape of its
    record and its promise. *)
Lemma stage_processEventWithRetry_task (e : DomainEvent) (processFn : Behaviour unit) :
  forall iterations attempt lastError now acts ps,
    (1 <= iterations)%nat ->
    (attempt + iterations = 4)%nat ->
    stage (processEventWithRetry_task (LProcess e) processFn 3 iterations attempt lastError)
          now acts [] ps ->
    Forall (owned e) acts
    /\ calls (event_id e) acts = List.length (attempts (event_id e) acts)
    /\ exists t r,
         ps = [mkPromise t r]
         /\ now <= t
         /\ wholeRun iterations (attempts (event_id e) acts) t r.
Proof.
  induction iterations as [|i IH]; intros attempt lastError now acts ps Hpos Hsum Hst;
    [lia|].
  cbn [processEventWithRetry_task] in Hst.
  inversion Hst as [? ? ? ? ? Hs|l b k now0 d o acts' ws ps' Hst'|]; subst.
  { inversion Hs. }
  clear Hst.
  destruct (record_of_call e now (now + Z.of_N d) o acts') as [Hc Ha].
  unfold Millis in *. rewrite Hc, Ha. clear Hc Ha.
  pose proof (N2Z.is_nonneg d) as Hd.
  assert (Hown : forall rest, Forall (owned e) rest ->
            Forall (owned e) ((now, Invoked (LProcess e))
                              :: (now + Z.of_N d, settlement (LProcess e) o) :: rest)).
  { intros rest Hr. constructor; [reflexivity|].
    constructor; [destruct o; reflexivity | exact Hr]. }
  destruct o as [err|[]]; cbn [thrown message_of] in Hst'.
  - (* the call fails *)
    destruct i as [|i].
    + (* the last attempt *)
      assert (Hlt : Nat.ltb attempt 3 = false) by (apply Nat.ltb_ge; lia).
      rewrite Hlt in Hst'. cbn [processEventWithRetry_task] in Hst'.
      inversion Hst' as [? ? ? ? ? Hs| |]; subst. inversion Hs; subst.
      split; [apply Hown; constructor|]. split; [reflexivity|].
      exists (now + Z.of_N d), (inl (ThrownError err)).
      split; [reflexivity|]. split; [lia|].
      apply (@run_exhausted 1 [] (now + Z.of_N d) err). reflexivity.
    + assert (Hlt : Nat.ltb attempt 3 = true) by (apply Nat.ltb_lt; lia).
      rewrite Hlt in Hst'.
      inversion Hst' as [? ? ? ? ? Hs| |ms k0 now1 acts2 ws2 ps2 Hst2]; subst.
      { inversion Hs. }
      assert (H1 : (1 <= S i)%nat) by lia.
      assert (H2 : (S attempt + S i = 4)%nat) by lia.
      destruct (IH (S attempt) (ThrownError err) _ _ _ H1 H2 Hst2)
        as (Hown2 & Hcalls & t & r & Hps & Ht & Hrun).
      destruct (record_of_sleep (event_id e) (now + Z.of_N d)
                  (2 ^ Z.of_nat (attempt - 1) * 1000) acts2) as [Hc Ha].
      unfold Millis in *. rewrite Hc, Ha.
      split; [apply Hown; constructor; [exact I | exact Hown2]|].
      split; [cbn [List.length]; now rewrite Hcalls|].
      exists t, r. split; [exact Hps|]. split; [lia|].
      destruct Hrun as [errs t Hl|errs t err' Hl].
      * apply (@run_succeeds (S (S i)) ((now + Z.of_N d, err) :: errs) t).
        simpl. lia.
      * apply (@run_exhausted (S (S i)) ((now + Z.of_N d, err) :: errs) t err').
        simpl. lia.
  - (* the call succeeds *)
    inversion Hst' as [? ? ? ? ? Hs| |]; subst. inversion Hs; subst.
    split; [apply Hown; constructor|]. split; [reflexivity|].
    exists (now + Z.of_N d), (inr tt). split; [reflexivity|]. split; [lia|].
    apply (@run_succeeds (S i) [] (now + Z.of_N d)). simpl. lia.
Qed.

(** *** The tasks of a batch, run together *)

(** The loop when the tasks of [events] have run. *)
Definition processed (processor : EventProcessorStrategy) (events : list DomainEvent)
    (w : Ext) : Loop :=
  finished (List.length events * 6) (map (processingTask processor) events) w.

(** What the tasks have done, in the order of time. *)
Definition processing (processor : EventProcessorStrategy) (events : list DomainEvent)
    (w : Ext) : list (Millis * Action) :=
  map snd (journal (processed processor events w)).



Lemma processingPromises_processed processor events w :
  processingPromises processor events w
  = (mkExt (clock w) (loop_env (processed processor events w))
           (trace w ++ processing processor events w),
     settled (processed processor events w)).
Proof. reflexivity. Qed.

Lemma processed_settles processor events w :
  agenda (processed processor events w) = []
  /\ List.length (settled (processed processor events w)) = List.length events
  /\ on_stage (map (processingTask processor) events) (clock w)
              (processed processor events w)
  /\ in_order (settled (processed processor events w))
  /\ Forall (fun p => clock w <= settledAt (snd p))
            (settled (processed processor events w)).
Proof.
  unfold processed.
  destruct (@finished_settles 6 (List.length events * 6)
              (map (processingTask processor) events) w) as (Ha & Hl & Hs & Ho & Hc).
  - apply Forall_forall. intros t Ht. apply in_map_iff in Ht as (e & <- & _).
    apply (@bounded_processEventWithRetry_task (LProcess e) (process processor e) 3 3).
  - rewrite length_map. lia.
  - rewrite length_map in Hl. auto.
Qed.

(** Each task by itself: whatever the other tasks do, it runs the whole
    retry schedule. *)
Lemma processed_task processor events w i e :
  nth_error events i = Some e ->
  Forall (owned e) (done_by i (processed processor events w))
  /\ calls (event_id e) (done_by i (processed processor events w))
     = List.length (attempts (event_id e) (done_by i (processed processor events w)))
  /\ exists t r,
       promise_of i (processed processor events w) = [mkPromise t r]
       /\ clock w <= t
       /\ wholeRun 3 (attempts (event_id e) (done_by i (processed processor events w))) t r.
Proof.
  intros Hi. destruct (processed_settles processor events w) as (Ha & _ & Hs & _).
  specialize (Hs i). rewrite nth_error_map, Hi in Hs. cbn [option_map] in Hs.
  assert (Hw : waits_of i (processed processor events w) = [])
    by (unfold waits_of; now rewrite Ha).
  rewrite Hw in Hs. unfold processingTask in Hs.
  apply stage_processEventWithRetry_task in Hs; [exact Hs | lia | lia].
Qed.

Lemma processed_tasks_only processor events w i :
  nth_error events i = None ->
  done_by i (processed processor events w) = []
  /\ promise_of i (processed processor events w) = [].
Proof.
  intros Hi. destruct (processed_settles processor events w) as (_ & _ & Hs & _).
  specialize (Hs i). rewrite nth_error_map, Hi in Hs. cbn [option_map] in Hs.
  destruct Hs as (Hd & _ & Hp). auto.
Qed.


Lemma In_promise_of i p s : In (i, p) (settled s) -> In p (promise_of i s).
Proof.
  intros Hin. unfold promise_of. apply in_map_iff. exists (i, p). split; [reflexivity|].
  apply filter_In. split; [exact Hin | apply Nat.eqb_refl].
Qed.






(** A promise of the batch belongs to the task of an event. *)
Lemma settled_task processor events w i p :
  In (i, p) (settled (processed processor events w)) ->
  exists e,
    nth_error events i = Some e
    /\ promise_of i (processed processor events w) = [p].
Proof.
  intros Hin. apply In_promise_of in Hin.
  destruct (nth_error events i) as [e|] eqn:Hi.
  - exists e. split; [reflexivity|].
    destruct (@processed_task processor events w i e Hi) as (_ & _ & t & r & Hp & _).
    rewrite Hp in *. destruct Hin as [<-|[]]. reflexivity.
  - destruct (@processed_tasks_only processor events w i Hi) as (_ & Hp).
    rewrite Hp in Hin. contradiction.
Qed.

(** A task of the batch rejects with an [Error]. *)
Lemma settled_rejected processor events w i p t :
  In (i, p) (settled (processed processor events w)) ->
  outcome p = inl t -> exists err, t = ThrownError err.
Proof.
  intros Hin Ho. destruct (@settled_task processor events w i p Hin) as (e & Hi & Hp).
  destruct (@processed_task processor events w i e Hi) as (_ & _ & t0 & r & Hp' & _ & Hr).
  rewrite Hp in Hp'. injection Hp' as ->. cbn [outcome] in Ho. subst r.
  inversion Hr; subst. eauto.
Qed.

(** How [await Promise.all(processingPromises)] settles: with the first
    rejection, at its instant, or when every promise is fulfilled, at the
    instant of the last. *)
Lemma processAll_settles processor events w :
  env (fst (processAll processor events w)) = loop_env (processed processor events w)
  /\ trace (fst (processAll processor events w))
     = trace w ++ processing processor events w
  /\ ((find (@is_rejected unit) (settled (processed processor events w)) = None
       /\ snd (processAll processor events w) = inr tt
       /\ clock (fst (processAll processor events w))
          = latest (clock w) (settled (processed processor events w)))
      \/ (exists i p err,
            find (@is_rejected unit) (settled (processed processor events w))
            = Some (i, p)
            /\ outcome p = inl (ThrownError err)
            /\ snd (processAll processor events w) = inl (ThrownError err)
            /\ clock (fst (processAll processor events w)) = settledAt p)).
Proof.
  unfold processAll. rewrite processingPromises_processed.
  unfold await, Promise_all. cbn [clock env trace].
  destruct (processed_settles processor events w) as (_ & _ & _ & _ & Hc).
  destruct (find (@is_rejected unit) (settled (processed processor events w)))
    as [[i p]|] eqn:F; cbn [fst snd clock env trace settledAt outcome].
  - split; [reflexivity|]. split; [reflexivity|]. right.
    destruct (find_first _ _ F) as (l1 & l2 & E & Hr & _).
    assert (Hin : In (i, p) (settled (processed processor events w)))
      by (rewrite E; apply in_or_app; right; left; reflexivity).
    unfold is_rejected in Hr. cbn [snd] in Hr.
    destruct (outcome p) as [t|v] eqn:Ho; [|discriminate].
    destruct (@settled_rejected processor events w i p t Hin Ho) as [err ->].
    exists i, p, err. split; [reflexivity|]. split; [assumption || reflexivity|].
    split; [assumption || reflexivity|].
    rewrite Forall_forall in Hc. specialize (Hc _ Hin). cbn [snd] in Hc. lia.
  - split; [reflexivity|]. split; [reflexivity|]. left.
    split; [reflexivity|]. split; [reflexivity|].
    pose proof (latest_ge_now (clock w) (settled (processed processor events w))). lia.
Qed.

Lemma clock_processAll processor events w :
  clock w <= clock (fst (processAll processor events w)).
Proof.
  destruct (processed_settles processor events w) as (_ & _ & _ & _ & Hc).
  destruct (processAll_settles processor events w)
    as (_ & _ & [(_ & _ & ->)|(i & p & err & F & _ & _ & ->)]).
  - apply latest_ge_now.
  - destruct (find_first _ _ F) as (l1 & l2 & E & _).
    rewrite Forall_forall in Hc. apply (Hc (i, p)).
    rewrite E. apply in_or_app. right. left. reflexivity.
Qed.

Lemma runBatch_thrown this eventType events w t :
  snd (runBatch this eventType events w) = inl t -> exists err, t = ThrownError err.
Proof.
  unfold runBatch.
  destruct (createProcessor (processorFactory this) eventType) as [processor|].
  - destruct (processAll_settles processor events w)
      as (_ & _ & [(_ & Hr & _)|(i & p & err & _ & _ & Hr & _)]);
      rewrite Hr; [discriminate|]. intros [= <-]. now exists err.
  - unfold xthrow, noProcessorError. simpl. intros [= <-]. eauto.
Qed.

Lemma clock_runBatch this eventType events w :
  clock w <= clock (fst (runBatch this eventType events w)).
Proof.
  unfold runBatch.
  destruct (createProcessor (processorFactory this) eventType) as [processor|];
    [apply clock_processAll | cbn; lia].
Qed.

Lemma batchResult_runBatch this eventType events w :
  batchResult (snd (runBatch this eventType events w)) = inr tt.
Proof.
  destruct (snd (runBatch this eventType events w)) as [t|[]] eqn:E; [|reflexivity].
  destruct (runBatch_thrown _ _ _ _ E) as [err ->]. reflexivity.
Qed.

(** [processBatch] itself never rejects. *)
Lemma processBatch_resolves this eventType w :
  snd (processBatch this eventType w) = inr tt.
Proof.
  destruct (JsMap.get eventType (pendingBatches w)) as [batch|] eqn:G.
  - destruct (batch_events batch) as [|e0 es] eqn:E.
    + now rewrite (@processBatch_empty this eventType w batch G E).
    + rewrite (@processBatch_flush this eventType w batch G) by (rewrite E; discriminate).
      unfold flushed. cbn [snd]. apply batchResult_runBatch.
  - now rewrite processBatch_absent.
Qed.

(** *** The job of a flush *)

Lemma get_fold_delete {V} (id : string) (ids : list (Millis * string)) :
  forall m : JsMap.t string V,
    JsMap.get id (fold_left (fun m tm => JsMap.delete (snd tm) m) ids m)
    = if existsb (fun tm => keqb id (snd tm)) ids then None else JsMap.get id m.
Proof.
  induction ids as [|tm ids IH]; intros m; cbn [fold_left existsb]; [reflexivity|].
  rewrite IH. destruct (keqb id (snd tm)) eqn:K; cbn [orb].
  - apply keqb_eq in K. subst id. rewrite JsMap.get_delete_same.
    now destruct (existsb _ ids).
  - apply keqb_neq in K. now rewrite JsMap.get_delete_other.
Qed.

(** An eviction removes the job it was scheduled for and no other. *)
Lemma get_with_ext id e w :
  JsMap.get id (activeBatches (with_ext e w))
  = if existsb (fun tm => keqb id (snd tm))
               (filter (fun tm => fst tm <=? clock e) (timers w))
    then None else JsMap.get id (activeBatches w).
Proof.
  unfold with_ext, runTimers. cbn [activeBatches ext timers]. apply get_fold_delete.
Qed.

Lemma get_with_ext_fresh id e w :
  ~ In id (map snd (timers w)) ->
  JsMap.get id (activeBatches (with_ext e w)) = JsMap.get id (activeBatches w).
Proof.
  intros Hfresh. rewrite get_with_ext.
  destruct (existsb _ _) eqn:E; [|reflexivity].
  apply existsb_exists in E as (tm & Hin & Heq). apply keqb_eq in Heq.
  apply filter_In in Hin as [Hin _]. exfalso. apply Hfresh.
  rewrite Heq. now apply in_map.
Qed.

Lemma get_with_ext_Some id e w job :
  JsMap.get id (activeBatches (with_ext e w)) = Some job ->
  JsMap.get id (activeBatches w) = Some job.
Proof. rewrite get_with_ext. now destruct (existsb _ _). Qed.

Lemma finishedJob_fields job r t :
  job_id (finishedJob job r t) = job_id job
  /\ job_type (finishedJob job r t) = job_type job
  /\ job_events (finishedJob job r t) = job_events job
  /\ job_batchSize (finishedJob job r t) = job_batchSize job
  /\ job_createdAt (finishedJob job r t) = job_createdAt job
  /\ job_startedAt (finishedJob job r t) = job_startedAt job.
Proof.
  unfold finishedJob. destruct r as [error|u]; [destruct (message_of error)|];
    cbn; repeat split.
Qed.

(** The state a flush resumes in when its tasks have been awaited. *)
Definition resumed (this : BatchProcessorService) (eventType : EventType)
    (batch : PendingBatch) (w : World) : World :=
  match createProcessor (processorFactory this) eventType with
  | Some _ =>
      with_ext (fst (runBatch this eventType (batch_events batch) (ext w)))
               (started eventType batch w)
  | None => started eventType batch w
  end.

Lemma flushed_resumed this eventType batch w :
  fst (flushed this eventType batch w)
  = setTimeout_delete (uuidv4 (uuidCalls w)) 60000
      (set_activeBatches
         (finishJob (uuidv4 (uuidCalls w))
                    (snd (runBatch this eventType (batch_events batch) (ext w)))
                    (clock (fst (runBatch this eventType (batch_events batch) (ext w)))))
         (resumed this eventType batch w)).
Proof. reflexivity. Qed.

Lemma ext_resumed this eventType batch w :
  ext (resumed this eventType batch w)
  = fst (runBatch this eventType (batch_events batch) (ext w)).
Proof.
  unfold resumed, runBatch.
  destruct (createProcessor (processorFactory this) eventType); reflexivity.
Qed.

Lemma flushed_ext this eventType batch w :
  ext (fst (flushed this eventType batch w))
  = fst (runBatch this eventType (batch_events batch) (ext w)).
Proof. rewrite flushed_resumed. cbn [setTimeout_delete set_activeBatches ext]. apply ext_resumed. Qed.

Lemma flushed_pending this eventType batch w :
  pendingBatches (fst (flushed this eventType batch w))
  = JsMap.delete eventType (pendingBatches w).
Proof.
  rewrite flushed_resumed. unfold resumed.
  destruct (createProcessor (processorFactory this) eventType); reflexivity.
Qed.

Lemma flushed_flushes this eventType batch w :
  flushes (fst (flushed this eventType batch w)) = S (flushes w).
Proof.
  rewrite flushed_resumed. unfold resumed.
  destruct (createProcessor (processorFactory this) eventType); reflexivity.
Qed.

(** A job that the map holds after a flush is the job of the flush, if
    it bears its id, and was there before otherwise. *)
Lemma flushed_active this eventType batch w id job :
  JsMap.get id (activeBatches (fst (flushed this eventType batch w))) = Some job ->
  (id = uuidv4 (uuidCalls w)
   /\ job = finishedJob (startedJob id eventType batch (clock (ext w)))
              (snd (runBatch this eventType (batch_events batch) (ext w)))
              (clock (fst (runBatch this eventType (batch_events batch) (ext w)))))
  \/ (id <> uuidv4 (uuidCalls w) /\ JsMap.get id (activeBatches w) = Some job).
Proof.
  rewrite flushed_resumed. cbn [setTimeout_delete set_activeBatches activeBatches].
  assert (Hres : forall id' job',
             JsMap.get id' (activeBatches (resumed this eventType batch w)) = Some job' ->
             JsMap.get id' (JsMap.set (uuidv4 (uuidCalls w))
                              (startedJob (uuidv4 (uuidCalls w)) eventType batch
                                          (clock (ext w)))
                              (activeBatches w)) = Some job').
  { intros id' job'. unfold resumed.
    destruct (createProcessor (processorFactory this) eventType);
      [apply get_with_ext_Some | auto]. }
  unfold finishJob.
  destruct (JsMap.get (uuidv4 (uuidCalls w))
                      (activeBatches (resumed this eventType batch w))) as [job0|] eqn:G0.
  - apply Hres in G0. rewrite JsMap.get_set_same in G0. injection G0 as <-.
    destruct (string_dec id (uuidv4 (uuidCalls w))) as [->|Hne].
    + rewrite JsMap.get_set_same. intros [= <-]. left. auto.
    + rewrite JsMap.get_set_other by exact Hne. intros G. apply Hres in G.
      rewrite JsMap.get_set_other in G by exact Hne. right. auto.
  - intros G. destruct (string_dec id (uuidv4 (uuidCalls w))) as [->|Hne];
      [congruence|].
    apply Hres in G. rewrite JsMap.get_set_other in G by exact Hne. right. auto.
Qed.

(** When no eviction is scheduled for the id of the new job, the job is
    there after the flush. *)
Lemma flushed_job this eventType batch w :
  ~ In (uuidv4 (uuidCalls w)) (map snd (timers w)) ->
  JsMap.get (uuidv4 (uuidCalls w)) (activeBatches (fst (flushed this eventType batch w)))
  = Some (finishedJob (startedJob (uuidv4 (uuidCalls w)) eventType batch (clock (ext w)))
            (snd (runBatch this eventType (batch_events batch) (ext w)))
            (clock (fst (runBatch this eventType (batch_events batch) (ext w))))).
Proof.
  intros Hfresh. rewrite flushed_resumed.
  cbn [setTimeout_delete set_activeBatches activeBatches].
  assert (G0 : JsMap.get (uuidv4 (uuidCalls w))
                 (activeBatches (resumed this eventType batch w))
               = Some (startedJob (uuidv4 (uuidCalls w)) eventType batch (clock (ext w)))).
  { unfold resumed.
    destruct (createProcessor (processorFactory this) eventType).
    - rewrite get_with_ext_fresh by exact Hfresh. apply JsMap.get_set_same.
    - apply JsMap.get_set_same. }
  unfold finishJob. rewrite G0. apply JsMap.get_set_same.
Qed.


(** ** Appending to a batch *)

(** The batch an append works on: the pending one, or a fresh one. *)
Definition currentBatch (processor : EventProcessorStrategy) (eventType : EventType)
    (w : World) : PendingBatch :=
  match JsMap.get eventType (pendingBatches w) with
  | Some batch => batch
  | None => mkPendingBatch eventType [] (clock (ext w)) (getBatchSize processor)
  end.

Definition extend (batch : PendingBatch) (events : list DomainEvent) : PendingBatch :=
  mkPendingBatch (batch_eventType batch) (batch_events batch ++ events)
                 (batch_createdAt batch) (batch_maxSize batch).

Definition withPending (eventType : EventType) (batch : PendingBatch) (w : World) : World :=
  set_pendingBatches (JsMap.set eventType batch) w.

Lemma addEventToBatch_batching this event w processor :
  createProcessor (processorFactory this) (event_type event) = Some processor ->
  supportsBatchProcessing processor = true ->
  addEventToBatch this event w
  = let batch' := extend (currentBatch processor (event_type event) w) [event] in
    if Z.of_nat (List.length (batch_events batch')) >=? batch_maxSize batch'
    then flushed this (event_type event) batch' (withPending (event_type event) batch' w)
    else (withPending (event_type event) batch' w, inr tt).
Proof.
  intros Hp Hs. unfold addEventToBatch. rewrite Hp, Hs. cbn [negb].
  unfold currentBatch, push_event, extend, withPending. cbv zeta.
  match goal with |- (if ?c then _ else _) = _ => destruct c eqn:Hc end; [|reflexivity].
  apply processBatch_flush.
  - unfold set_pendingBatches. cbn [pendingBatches]. apply JsMap.get_set_same.
  - cbn [batch_events]. intros E. apply app_eq_nil in E. destruct E; discriminate.
Qed.

Lemma addEventToBatch_skips this event w :
  (forall processor,
      createProcessor (processorFactory this) (event_type event) = Some processor ->
      supportsBatchProcessing processor = false) ->
  addEventToBatch this event w = (w, inr tt).
Proof.
  intros H. unfold addEventToBatch.
  destruct (createProcessor (processorFactory this) (event_type event)) as [p|];
    [|reflexivity].
  now rewrite (H p eq_refl).
Qed.

Lemma mbind_ret_tt (c : M unit) w : mbind c (fun _ => mret tt) w = c w.
Proof. unfold mbind, mret. now destruct (c w) as [w' [t|[]]]. Qed.

Lemma withPending_twice eventType b b' w :
  withPending eventType b' (withPending eventType b w) = withPending eventType b' w.
Proof.
  unfold withPending, set_pendingBatches. cbn. now rewrite JsMap.set_set.
Qed.

Lemma currentBatch_withPending processor eventType b w :
  currentBatch processor eventType (withPending eventType b w) = b.
Proof.
  unfold currentBatch, withPending, set_pendingBatches. cbn [pendingBatches].
  now rewrite JsMap.get_set_same.
Qed.

Lemma extend_extend b es es' : extend (extend b es) es' = extend b (es ++ es').
Proof. unfold extend. cbn. now rewrite app_assoc. Qed.

(** Appending exactly as many events as the batch still lacks: the appends
    before the last only queue, the last one flushes the whole batch. *)
Lemma forEach_add_fills this eventType processor :
  createProcessor (processorFactory this) eventType = Some processor ->
  supportsBatchProcessing processor = true ->
  forall events w,
    events <> [] ->
    Forall (fun e => event_type e = eventType) events ->
    batch_maxSize (currentBatch processor eventType w)
    = Z.of_nat (List.length (batch_events (currentBatch processor eventType w))
                + List.length events) ->
    forEach events (addEventToBatch this) w
    = flushed this eventType (extend (currentBatch processor eventType w) events)
              (withPending eventType
                           (extend (currentBatch processor eventType w) events) w).
Proof.
  intros Hp Hs. induction events as [|e es IH]; intros w Hne Hty Hmax; [congruence|].
  inversion Hty as [|? ? He Hty']; subst. cbn [forEach].
  unfold mbind at 1.
  rewrite (@addEventToBatch_batching this e w processor Hp Hs). cbv zeta.
  set (b := currentBatch processor (event_type e) w) in *.
  cbn [extend batch_events batch_maxSize]. rewrite length_app. cbn [List.length].
  destruct es as [|e' es].
  - cbn [List.length] in Hmax.
    replace (Z.of_nat (List.length (batch_events b) + 1) >=? batch_maxSize b) with true
      by (symmetry; apply Z.geb_le; lia).
    cbn [forEach].
    fold (extend b [e]).
    destruct (flushed this (event_type e) (extend b [e])
                      (withPending (event_type e) (extend b [e]) w)) as [w' [t|[]]];
      reflexivity.
  - cbn [List.length] in Hmax.
    replace (Z.of_nat (List.length (batch_events b) + 1) >=? batch_maxSize b) with false
      by (symmetry; rewrite Z.geb_leb; apply Z.leb_gt; lia).
    fold (extend b [e]).
    rewrite IH; [| discriminate | exact Hty' |].
    + rewrite !currentBatch_withPending, extend_extend, withPending_twice. reflexivity.
    + rewrite currentBatch_withPending. cbn [extend batch_events batch_maxSize].
      rewrite length_app. cbn [List.length]. lia.
Qed.

(** C4. Let the handler resolved for a type support batching and have
    batch size [maxSize >= 1].  Appending [maxSize] events of that type,
    starting with no pending batch for it, flushes exactly once: one job id
    is drawn and no batch is left pending for the type.  Exactly one job is
    produced: a job that the active map holds afterwards is the job of the
    flush, under the id drawn, with the appended events in order and
    [batchSize = maxSize], or a job that was there before.  The job of the
    flush is in the map when no eviction is scheduled for its id. *)
Theorem C4_full_batch_flushes_once
    (this : BatchProcessorService) (eventType : EventType)
    (processor : EventProcessorStrategy) (events : list DomainEvent) (w : World) :
  createProcessor (processorFactory this) eventType = Some processor ->
  supportsBatchProcessing processor = true ->
  1 <= getBatchSize processor ->
  Z.of_nat (List.length events) = getBatchSize processor ->
  Forall (fun e => event_type e = eventType) events ->
  JsMap.get eventType (pendingBatches w) = None ->
  snd (forEach events (addEventToBatch this) w) = inr tt
  /\ JsMap.get eventType (pendingBatches (fst (forEach events (addEventToBatch this) w)))
     = None
  /\ flushes (fst (forEach events (addEventToBatch this) w)) = S (flushes w)
  /\ (forall id job,
        JsMap.get id (activeBatches (fst (forEach events (addEventToBatch this) w)))
        = Some job ->
        (id = uuidv4 (uuidCalls w)
         /\ Z.of_nat (job_batchSize job) = getBatchSize processor
         /\ job_events job = events
         /\ job_type job = EventType_toString eventType)
        \/ (id <> uuidv4 (uuidCalls w) /\ JsMap.get id (activeBatches w) = Some job))
  /\ (~ In (uuidv4 (uuidCalls w)) (map snd (timers w)) ->
      exists job,
        JsMap.get (uuidv4 (uuidCalls w))
                  (activeBatches (fst (forEach events (addEventToBatch this) w)))
        = Some job).
Proof.
  intros Hp Hs Hpos Hlen Hty Hnone.
  assert (Hcur : currentBatch processor eventType w
                 = mkPendingBatch eventType [] (clock (ext w)) (getBatchSize processor)).
  { unfold currentBatch. now rewrite Hnone. }
  rewrite (@forEach_add_fills this eventType processor Hp Hs events w).
  - rewrite Hcur.
    set (batch := extend (mkPendingBatch eventType [] (clock (ext w))
                                         (getBatchSize processor)) events).
    set (w' := withPending eventType batch w).
    split; [unfold flushed; apply batchResult_runBatch|].
    split; [rewrite flushed_pending; apply JsMap.get_delete_same|].
    split; [now rewrite flushed_flushes|].
    split.
    + intros id job G. apply flushed_active in G.
      destruct G as [(-> & ->)|(Hne & G)]; [left|right; auto].
      split; [reflexivity|].
      match goal with |- context [finishedJob ?j ?r ?t] =>
        destruct (finishedJob_fields j r t) as (_ & Hty' & Hev & Hbs & _ & _)
      end.
      rewrite Hty', Hev, Hbs. cbn. repeat split; auto.
    + intros Hfresh. eexists. apply (@flushed_job this eventType batch w' Hfresh).
  - intros ->. cbn in Hlen. lia.
  - exact Hty.
  - rewrite Hcur. cbn. lia.
Qed.

(** ** The dispatcher's two paths *)

Lemma liftX_notify_resolves observers event w :
  snd (liftX (notify observers event) w) = inr tt.
Proof.
  unfold liftX. pose proof (notify_resolves observers event (ext w)) as H.
  destruct (notify observers event (ext w)) as [e r]. exact H.
Qed.

Lemma addEventToBatch_resolves this event w :
  snd (addEventToBatch this event w) = inr tt.
Proof.
  unfold addEventToBatch.
  destruct (createProcessor (processorFactory this) (event_type event)) as [p|];
    [|reflexivity].
  destruct (supportsBatchProcessing p); cbn [negb]; [|reflexivity].
  cbv zeta.
  match goal with |- snd (if ?c then _ else _) = _ => destruct c end;
    [apply processBatch_resolves | reflexivity].
Qed.

(** C6. When the registry holds no entry for the type of an event, the
    lookup returns [None] (it does not raise), and [processEvent] rejects
    with the error "No processor found for event type: <type>" and leaves
    the world as it was: no observer is notified, nothing is queued. *)
Theorem C6_unregistered_type_is_rejected_without_fanout
    (this : EventProcessorService) (event : DomainEvent) (w : World) :
  JsMap.get (event_type event) (processorRegistry (dispatcherFactory this)) = None ->
  createProcessor (dispatcherFactory this) (event_type event) = None
  /\ processEvent this event w
     = (w, inl (ThrownError
                  (mkError (String.append "No processor found for event type: "
                                          (EventType_toString (event_type event))))))
  /\ invoked (actions (ext (fst (processEvent this event w))))
     = invoked (actions (ext w)).
Proof.
  intros G.
  assert (Hc : createProcessor (dispatcherFactory this) (event_type event) = None).
  { unfold createProcessor. now rewrite G. }
  assert (Hp : processEvent this event w
               = (w, inl (ThrownError
                            (mkError (String.append "No processor found for event type: "
                                        (EventType_toString (event_type event))))))).
  { unfold processEvent. rewrite Hc. reflexivity. }
  split; [exact Hc|]. split; [exact Hp|]. now rewrite Hp.
Qed.

(** C1 (as amended).  On the immediate path the fan-out starts at the
    instant [handler.process(event)] resolves, and there is none when it
    rejects: the error goes to the caller.  On the batch path the fan-out
    starts at the instant [addEventToBatch(event)] returns.  When the append
    leaves the batch below [maxSize], that is at once: the event is still
    pending and no handler has been called for it.  When the append fills
    the batch, that is when the flush's [Promise.all] has settled. *)
Theorem C1_fanout_follows_the_processing_step
    (this : EventProcessorService) (event : DomainEvent) (w : World)
    (processor : EventProcessorStrategy) :
  createProcessor (dispatcherFactory this) (event_type event) = Some processor ->
  (supportsBatchProcessing processor = false ->
     processEvent this event w
     = match snd (process_call processor event (ext w)) with
       | inr _ => liftX (notify (eventSubject this) event)
                        (with_ext (fst (process_call processor event (ext w))) w)
       | inl error => (with_ext (fst (process_call processor event (ext w))) w,
                       inl error)
       end)
  /\ (supportsBatchProcessing processor = true ->
       processEvent this event w
       = liftX (notify (eventSubject this) event)
               (fst (addEventToBatch (batchProcessor this) event w))
       /\ (Z.of_nat (List.length
                       (batch_events (currentBatch processor (event_type event) w)) + 1)
           < batch_maxSize (currentBatch processor (event_type event) w) ->
           fst (addEventToBatch (batchProcessor this) event w)
           = withPending (event_type event)
                         (extend (currentBatch processor (event_type event) w) [event]) w)
       /\ (batch_maxSize (currentBatch processor (event_type event) w)
           <= Z.of_nat (List.length
                          (batch_events (currentBatch processor (event_type event) w)) + 1) ->
           addEventToBatch (batchProcessor this) event w
           = flushed (batchProcessor this) (event_type event)
               (extend (currentBatch processor (event_type event) w) [event])
               (withPending (event_type event)
                  (extend (currentBatch processor (event_type event) w) [event]) w))).
Proof.
  intros Hp. split; intros Hs.
  - unfold processEvent. rewrite Hp, Hs. unfold mcatch, mbind, liftX at 1.
    unfold process_call.
    destruct (call_cases (LProcess event) (process processor event) (ext w))
      as [(v & e1 & -> & _)|(err & e1 & -> & _)]; cbn [fst snd].
    + pose proof (liftX_notify_resolves (eventSubject this) event (with_ext e1 w)) as Hn.
      destruct (liftX (notify (eventSubject this) event) _) as [w2 r].
      cbn [snd] in Hn. now rewrite Hn.
    + reflexivity.
  - unfold dispatcherFactory in Hp. split; [|split].
    + unfold processEvent, dispatcherFactory. rewrite Hp, Hs. unfold mcatch, mbind.
      pose proof (addEventToBatch_resolves (batchProcessor this) event w) as Ha.
      destruct (addEventToBatch (batchProcessor this) event w) as [w1 r1].
      cbn [fst snd] in *. rewrite Ha.
      pose proof (liftX_notify_resolves (eventSubject this) event w1) as Hn.
      destruct (liftX (notify (eventSubject this) event) w1) as [w2 r2].
      cbn [snd] in Hn. now rewrite Hn.
    + intros Hlt.
      rewrite (@addEventToBatch_batching (batchProcessor this) event w processor Hp Hs).
      cbv zeta. cbn [extend batch_events batch_maxSize]. rewrite length_app.
      cbn [List.length].
      match goal with |- fst (if ?c then _ else _) = _ =>
        replace c with false by (symmetry; rewrite Z.geb_leb; apply Z.leb_gt; lia)
      end.
      reflexivity.
    + intros Hge.
      rewrite (@addEventToBatch_batching (batchProcessor this) event w processor Hp Hs).
      cbv zeta. cbn [extend batch_events batch_maxSize]. rewrite length_app.
      cbn [List.length].
      match goal with |- (if ?c then _ else _) = _ =>
        replace c with true by (symmetry; apply Z.geb_le; lia)
      end.
      reflexivity.
Qed.

(** ** Invariants of the pending-batches map *)

Definition batch_ok (eventType : EventType) (b : PendingBatch) : Prop :=
  batch_eventType b = eventType
  /\ Forall (fun e => event_type e = eventType) (batch_events b)
  /\ (1 <= List.length (batch_events b))%nat
  /\ Z.of_nat (List.length (batch_events b)) <= batch_maxSize b - 1.

Definition pending_ok (m : JsMap.t EventType PendingBatch) : Prop :=
  JsMap.wf m
  /\ forall eventType b, In (eventType, b) (JsMap.entries m) -> batch_ok eventType b.

(** A batch found under a type before and after an operation is the same
    batch: created at the same instant, with the same threshold, its events
    only appended to. *)
Definition created_unchanged (m m' : JsMap.t EventType PendingBatch) : Prop :=
  forall eventType b b',
    JsMap.get eventType m = Some b ->
    JsMap.get eventType m' = Some b' ->
    batch_createdAt b' = batch_createdAt b
    /\ batch_maxSize b' = batch_maxSize b
    /\ exists appended, batch_events b' = batch_events b ++ appended.

(** [m'] holds some of the entries of [m], untouched. *)
Definition remains (m m' : JsMap.t EventType PendingBatch) : Prop :=
  forall eventType b', JsMap.get eventType m' = Some b' -> JsMap.get eventType m = Some b'.

Inductive PublicOperation : Type :=
| OpAddEventToBatch (event : DomainEvent)
| OpProcessTimedOutBatches
| OpForceBatchProcessing (eventType : option EventType).

Definition runOperation (this : BatchProcessorService) (op : PublicOperation) : M unit :=
  match op with
  | OpAddEventToBatch event => addEventToBatch this event
  | OpProcessTimedOutBatches => processTimedOutBatches this
  | OpForceBatchProcessing eventType => forceBatchProcessing this eventType
  end.

(** Time passes between two operations, and the evictions due by then run. *)
Definition elapse (dt : N) (w : World) : World :=
  with_ext (mkExt (clock (ext w) + Z.of_N dt) (env (ext w)) (trace (ext w))) w.

(** A history of the service: operations, each after some time. *)
Fixpoint runSchedule (this : BatchProcessorService)
    (schedule : list (N * PublicOperation)) (w : World) : World :=
  match schedule with
  | [] => w
  | (dt, op) :: schedule' =>
      runSchedule this schedule' (fst (runOperation this op (elapse dt w)))
  end.

(** The service as constructed: both maps empty. *)
Definition initialWorld (e : Ext) : World := mkWorld e JsMap.empty JsMap.empty 0 [].

Lemma pending_ok_empty : pending_ok JsMap.empty.
Proof. split; [apply JsMap.wf_empty | intros t b []]. Qed.

Lemma pending_ok_delete eventType m : pending_ok m -> pending_ok (JsMap.delete eventType m).
Proof.
  intros [W H]. split; [now apply JsMap.wf_delete|].
  intros t b I. apply JsMap.In_delete in I. apply H. tauto.
Qed.

Lemma pending_ok_set eventType b m :
  pending_ok m -> batch_ok eventType b -> pending_ok (JsMap.set eventType b m).
Proof.
  intros [W H] Hb. split; [now apply JsMap.wf_set|].
  intros t b0 I. apply JsMap.In_set in I. destruct I as [[= -> ->]|I]; auto.
Qed.

Lemma pending_ok_delete_set eventType b m :
  pending_ok m -> pending_ok (JsMap.delete eventType (JsMap.set eventType b m)).
Proof.
  intros [W H]. split; [now apply JsMap.wf_delete, JsMap.wf_set|].
  intros t b0 I. apply JsMap.In_delete in I. destruct I as [I N].
  apply JsMap.In_set in I. destruct I as [[= -> ->]|I]; [now elim N | auto].
Qed.

Lemma remains_refl m : remains m m.
Proof. intros t b. auto. Qed.

Lemma remains_trans m1 m2 m3 : remains m1 m2 -> remains m2 m3 -> remains m1 m3.
Proof. intros H12 H23 t b G. auto. Qed.

Lemma remains_delete eventType m : remains m (JsMap.delete eventType m).
Proof.
  intros t b G. destruct (EventType_eq_dec t eventType) as [->|N].
  - rewrite JsMap.get_delete_same in G. discriminate.
  - now rewrite JsMap.get_delete_other in G.
Qed.

Lemma remains_created_unchanged m m' : remains m m' -> created_unchanged m m'.
Proof.
  intros R t b b' G G'. apply R in G'. rewrite G in G'. injection G' as <-.
  repeat split. exists []. now rewrite app_nil_r.
Qed.

(** What [processBatch] does to the pending map: nothing, or it removes the
    entry of its type. *)
Lemma processBatch_pending this eventType w :
  pendingBatches (fst (processBatch this eventType w)) = pendingBatches w
  \/ pendingBatches (fst (processBatch this eventType w))
     = JsMap.delete eventType (pendingBatches w).
Proof.
  destruct (JsMap.get eventType (pendingBatches w)) as [batch|] eqn:G.
  - destruct (batch_events batch) as [|e0 es] eqn:E.
    + left. now rewrite (@processBatch_empty this eventType w batch G E).
    + right. rewrite (@processBatch_flush this eventType w batch G)
        by (rewrite E; discriminate).
      apply flushed_pending.
  - left. now rewrite processBatch_absent.
Qed.

Lemma processBatch_keeps this eventType w :
  (pending_ok (pendingBatches w) ->
   pending_ok (pendingBatches (fst (processBatch this eventType w))))
  /\ remains (pendingBatches w) (pendingBatches (fst (processBatch this eventType w))).
Proof.
  destruct (processBatch_pending this eventType w) as [-> | ->].
  - split; [auto | apply remains_refl].
  - split; [apply pending_ok_delete | apply remains_delete].
Qed.

Lemma forEach_processBatch_keeps this types :
  forall w,
    (pending_ok (pendingBatches w) ->
     pending_ok (pendingBatches (fst (forEach types (processBatch this) w))))
    /\ remains (pendingBatches w)
               (pendingBatches (fst (forEach types (processBatch this) w))).
Proof.
  induction types as [|t types IH]; intros w; cbn [forEach].
  - split; [auto | apply remains_refl].
  - unfold mbind.
    pose proof (processBatch_keeps this t w) as [Hok Hrem].
    pose proof (processBatch_resolves this t w) as Hr.
    destruct (processBatch this t w) as [w1 r]. cbn [fst snd] in *. subst r.
    destruct (IH w1) as [Hok' Hrem']. split; [auto|].
    eapply remains_trans; eauto.
Qed.

Lemma addEventToBatch_keeps this event w :
  pending_ok (pendingBatches w) ->
  pending_ok (pendingBatches (fst (addEventToBatch this event w)))
  /\ created_unchanged (pendingBatches w)
                       (pendingBatches (fst (addEventToBatch this event w))).
Proof.
  intros Hok.
  destruct (createProcessor (processorFactory this) (event_type event)) as [p|] eqn:Hp.
  2:{ rewrite addEventToBatch_skips by (intros q Hq; congruence).
      split; [exact Hok | apply remains_created_unchanged, remains_refl]. }
  destruct (supportsBatchProcessing p) eqn:Hs.
  2:{ rewrite addEventToBatch_skips by (intros q Hq; congruence).
      split; [exact Hok | apply remains_created_unchanged, remains_refl]. }
  rewrite (@addEventToBatch_batching this event w p Hp Hs). cbv zeta.
  set (cur := currentBatch p (event_type event) w).
  (* the batch appended to is well-typed *)
  assert (Hcur : batch_eventType cur = event_type event
                 /\ Forall (fun e => event_type e = event_type event) (batch_events cur)).
  { unfold cur, currentBatch.
    destruct (JsMap.get (event_type event) (pendingBatches w)) as [b|] eqn:G.
    - apply JsMap.get_In in G. destruct Hok as [_ Hall].
      destruct (Hall _ _ G) as (H1 & H2 & _ & H4). auto.
    - cbn. repeat split. constructor. }
  destruct Hcur as (Hty & Hev).
  assert (Hext : batch_eventType (extend cur [event]) = event_type event
                 /\ Forall (fun e => event_type e = event_type event)
                           (batch_events (extend cur [event]))
                 /\ (1 <= List.length (batch_events (extend cur [event])))%nat
                 /\ List.length (batch_events (extend cur [event]))
                    = S (List.length (batch_events cur))).
  { cbn [extend batch_eventType batch_events]. rewrite length_app. cbn [List.length].
    repeat split; [exact Hty | | lia | lia].
    apply Forall_app. split; [exact Hev | constructor; [reflexivity | constructor]]. }
  destruct Hext as (Hty' & Hev' & Hpos' & Hlen').
  assert (Hunch : created_unchanged (pendingBatches w)
                    (JsMap.set (event_type event) (extend cur [event]) (pendingBatches w))).
  { intros t b b' G G'. destruct (EventType_eq_dec t (event_type event)) as [->|N].
    - rewrite JsMap.get_set_same in G'. injection G' as <-.
      unfold cur, currentBatch. rewrite G. cbn. repeat split. now exists [event].
    - rewrite JsMap.get_set_other in G' by exact N. rewrite G in G'. injection G' as <-.
      repeat split. exists []. now rewrite app_nil_r. }
  match goal with |- context [if ?c then _ else _] => destruct c eqn:Hc end.
  - (* the threshold is reached: the batch is flushed and removed *)
    rewrite flushed_pending. unfold withPending, set_pendingBatches.
    cbn [fst pendingBatches]. split.
    + apply pending_ok_delete_set. exact Hok.
    + intros t b b' G G'. destruct (EventType_eq_dec t (event_type event)) as [->|N].
      * rewrite JsMap.get_delete_same in G'. discriminate.
      * rewrite JsMap.get_delete_other in G' by exact N. eapply Hunch; eauto.
  - unfold withPending, set_pendingBatches. cbn [fst pendingBatches]. split; [|exact Hunch].
    apply pending_ok_set; [exact Hok|]. repeat split; auto.
    cbn [extend batch_maxSize batch_events] in *. rewrite Z.geb_leb in Hc.
    apply Z.leb_gt in Hc. lia.
Qed.

Lemma pendingBatches_elapse dt w : pendingBatches (elapse dt w) = pendingBatches w.
Proof. reflexivity. Qed.

Lemma runOperation_keeps this op w :
  pending_ok (pendingBatches w) ->
  pending_ok (pendingBatches (fst (runOperation this op w)))
  /\ created_unchanged (pendingBatches w) (pendingBatches (fst (runOperation this op w))).
Proof.
  intros Hok. destruct op as [event| |[t|]]; cbn [runOperation].
  - now apply addEventToBatch_keeps.
  - unfold processTimedOutBatches. cbv zeta.
    destruct (Nat.ltb 0 (List.length (timedOutBatches this w))).
    + destruct (forEach_processBatch_keeps this (timedOutBatches this w) w) as [H1 H2].
      split; [auto | now apply remains_created_unchanged].
    + split; [exact Hok | apply remains_created_unchanged, remains_refl].
  - cbn [forceBatchProcessing].
    destruct (processBatch_keeps this t w) as [H1 H2].
    split; [auto | now apply remains_created_unchanged].
  - cbn [forceBatchProcessing].
    destruct (forEach_processBatch_keeps this (JsMap.keys (pendingBatches w)) w)
      as [H1 H2].
    split; [auto | now apply remains_created_unchanged].
Qed.

Lemma runSchedule_keeps this schedule :
  forall w, pending_ok (pendingBatches w) ->
            pending_ok (pendingBatches (runSchedule this schedule w)).
Proof.
  induction schedule as [|[dt op] schedule IH]; intros w Hok;
    cbn [runSchedule]; [exact Hok|].
  apply IH. apply runOperation_keeps.
  now rewrite pendingBatches_elapse.
Qed.

(** Operations are run here one after the other.  In the source the map
    updates of [addEventToBatch] and of each [processBatch] happen in one
    synchronous stretch, before the first suspension; what another
    operation can see in between is the state after such a stretch, which
    [addEventToBatch_keeps] and [processBatch_keeps] cover. *)

(** C9. After any history of public operations from the service as
    constructed, and then any further public operation ([addEventToBatch],
    [processTimedOutBatches], [forceBatchProcessing]), every entry of the
    pending map under a type [T] is a batch with [eventType = T], holding
    only events of type [T], at least 1 and at most [maxSize - 1] of them;
    and a batch that is under [T] both before and after that operation has
    kept its [createdAt].  Nothing is assumed of the batch sizes of the
    handlers: a batch stays in the map only while it is below its
    threshold, so the bound holds in particular when every handler's
    [getBatchSize()] is at least 1. *)
Theorem C9_pending_batches_invariant
    (this : BatchProcessorService) (e0 : Ext)
    (schedule : list (N * PublicOperation)) (dt : N) (op : PublicOperation) :
  pending_ok
    (pendingBatches
       (fst (runOperation this op
               (elapse dt (runSchedule this schedule (initialWorld e0))))))
  /\ created_unchanged
       (pendingBatches (runSchedule this schedule (initialWorld e0)))
       (pendingBatches
          (fst (runOperation this op
                  (elapse dt (runSchedule this schedule (initialWorld e0)))))).
Proof.
  assert (Hreach : pending_ok (pendingBatches (runSchedule this schedule (initialWorld e0)))).
  { apply runSchedule_keeps, pending_ok_empty. }
  destruct (@runOperation_keeps this op
              (elapse dt (runSchedule this schedule (initialWorld e0))))
    as [Hok Hcr].
  - now rewrite pendingBatches_elapse.
  - split; [exact Hok|]. now rewrite pendingBatches_elapse in Hcr.
Qed.

(** ** Statistics *)

Lemma EventType_toString_inj a b :
  EventType_toString a = EventType_toString b -> a = b.
Proof. destruct a, b; cbn; intros E; solve [reflexivity | discriminate E]. Qed.

Definition statsEntry (entry : EventType * PendingBatch) : string * nat :=
  (EventType_toString (fst entry), List.length (batch_events (snd entry))).

Lemma stats_fold (entries : list (EventType * PendingBatch)) :
  forall (byType : JsMap.t string nat) (total : nat),
    NoDup (map fst entries) ->
    (forall entry, In entry entries ->
                   JsMap.get (EventType_toString (fst entry)) byType = None) ->
    fold_left
      (fun acc entry =>
         (JsMap.set (EventType_toString (fst entry))
                    (List.length (batch_events (snd entry))) (fst acc),
          (snd acc + List.length (batch_events (snd entry)))%nat))
      entries (byType, total)
    = (byType ++ map statsEntry entries,
       (total + list_sum (map snd (map statsEntry entries)))%nat).
Proof.
  induction entries as [|[t b] entries IH]; intros byType total ND Hfresh.
  - cbn. now rewrite app_nil_r, Nat.add_0_r.
  - cbn [fold_left fst snd]. inversion ND as [|? ? Hnotin ND']; subst.
    rewrite JsMap.set_absent by (apply (Hfresh (t, b)); now left).
    rewrite IH; [| exact ND' |].
    + cbn [map statsEntry fst snd list_sum]. rewrite <- app_assoc. cbn [app].
      unfold statsEntry. cbn [fst snd]. f_equal.
      unfold list_sum. cbn [fold_right]. lia.
    + intros [t' b'] Hin. cbn [fst].
      rewrite JsMap.get_app_absent by (apply (Hfresh (t', b')); now right).
      cbn. destruct (String.eqb (EventType_toString t') (EventType_toString t)) eqn:E;
        [|reflexivity].
      apply String.eqb_eq, EventType_toString_inj in E. subst t'.
      exfalso. apply Hnotin. apply in_map_iff. now exists (t, b').
Qed.

(** C10. In every state of the service (the pending map holding each key
    once, as a [Map] does and as [reachable_wf] shows of every state the
    service reaches), [getBatchStatistics()] is consistent:
    [batchesByType] has one property per pending batch, in map order, named
    after the batch's type and holding its number of events;
    [totalPendingEvents] is the sum of these numbers; [pendingBatches] and
    [activeBatches] are the sizes of the two maps. *)
Theorem C10_batch_statistics_consistent (w : World) :
  JsMap.wf (pendingBatches w) ->
  stats_batchesByType (getBatchStatistics w)
  = map statsEntry (JsMap.entries (pendingBatches w))
  /\ stats_totalPendingEvents (getBatchStatistics w)
     = list_sum (JsMap.values (stats_batchesByType (getBatchStatistics w)))
  /\ JsMap.size (stats_batchesByType (getBatchStatistics w))
     = JsMap.size (pendingBatches w)
  /\ (forall eventType b,
        JsMap.get eventType (pendingBatches w) = Some b ->
        JsMap.get (EventType_toString eventType)
                  (stats_batchesByType (getBatchStatistics w))
        = Some (List.length (batch_events b)))
  /\ stats_pendingBatches (getBatchStatistics w) = JsMap.size (pendingBatches w)
  /\ stats_activeBatches (getBatchStatistics w) = JsMap.size (activeBatches w).
Proof.
  intros W. unfold getBatchStatistics.
  rewrite (stats_fold (JsMap.entries (pendingBatches w)) JsMap.empty 0 W)
    by (intros entry _; reflexivity).
  cbn [app JsMap.empty stats_batchesByType stats_totalPendingEvents
       stats_pendingBatches stats_activeBatches Nat.add].
  unfold JsMap.entries, JsMap.values, JsMap.size.
  repeat split.
  - now rewrite length_map.
  - intros t b G. revert W G. unfold JsMap.wf, JsMap.keys.
    induction (pendingBatches w) as [|[t0 b0] m IH]; cbn [JsMap.get map];
      [discriminate|].
    intros ND. inversion ND as [|? ? Hnotin ND']; subst.
    destruct (keqb t t0) eqn:E.
    + apply keqb_eq in E. subst t0. intros [= ->]. unfold statsEntry at 1.
      cbn [fst snd JsMap.get]. now rewrite keqb_refl.
    + intros G. unfold statsEntry at 1. cbn [fst snd JsMap.get].
      replace (keqb (EventType_toString t) (EventType_toString t0)) with false.
      * now apply IH.
      * symmetry. apply keqb_neq. intros Heq. apply EventType_toString_inj in Heq.
        subst. rewrite keqb_refl in E. discriminate.
Qed.

(** The pending map of every state the service reaches holds each key
    once, whatever the handlers are. *)
Lemma addEventToBatch_wf this event w :
  JsMap.wf (pendingBatches w) ->
  JsMap.wf (pendingBatches (fst (addEventToBatch this event w))).
Proof.
  intros W. unfold addEventToBatch.
  destruct (createProcessor (processorFactory this) (event_type event)) as [p|];
    [|exact W].
  destruct (supportsBatchProcessing p); cbn [negb]; [|exact W]. cbv zeta.
  match goal with |- context [if ?c then _ else _] => destruct c end.
  - match goal with |- context [processBatch this ?t ?w1] =>
      destruct (processBatch_pending this t w1) as [-> | ->]
    end; cbn [set_pendingBatches pendingBatches];
      [|apply JsMap.wf_delete]; now apply JsMap.wf_set.
  - cbn [fst set_pendingBatches pendingBatches]. now apply JsMap.wf_set.
Qed.

Lemma forEach_processBatch_wf this types :
  forall w, JsMap.wf (pendingBatches w) ->
            JsMap.wf (pendingBatches (fst (forEach types (processBatch this) w))).
Proof.
  induction types as [|t types IH]; intros w W; cbn [forEach]; [exact W|].
  unfold mbind.
  pose proof (processBatch_resolves this t w) as Hr.
  assert (W1 : JsMap.wf (pendingBatches (fst (processBatch this t w)))).
  { destruct (processBatch_pending this t w) as [-> | ->];
      [exact W | now apply JsMap.wf_delete]. }
  destruct (processBatch this t w) as [w1 r]. cbn [fst snd] in *. subst r.
  now apply IH.
Qed.

Lemma reachable_wf this schedule :
  forall w, JsMap.wf (pendingBatches w) ->
            JsMap.wf (pendingBatches (runSchedule this schedule w)).
Proof.
  induction schedule as [|[dt op] schedule IH]; intros w W; cbn [runSchedule];
    [exact W|].
  apply IH. rewrite <- (pendingBatches_elapse dt w) in W.
  destruct op as [event| |[t|]]; cbn [runOperation].
  - now apply addEventToBatch_wf.
  - unfold processTimedOutBatches. cbv zeta.
    destruct (Nat.ltb 0 (List.length (timedOutBatches this (elapse dt w))));
      [now apply forEach_processBatch_wf | exact W].
  - cbn [forceBatchProcessing].
    destruct (processBatch_pending this t (elapse dt w)) as [-> | ->];
      [exact W | now apply JsMap.wf_delete].
  - cbn [forceBatchProcessing]. now apply forEach_processBatch_wf.
Qed.

End Model.

Arguments LOperation {Payload} name.
Arguments LProcess {Payload} e.
Arguments LUpdate {Payload} observer e.
Arguments Invoked {Payload} l.
Arguments Resolved {Payload} l.
Arguments Rejected {Payload} l e.
Arguments Slept {Payload} ms.

(** * Scenarios

    The collaborators are given a state that counts the calls made to
    them; events carry no payload. *)

Definition jobId (n : nat) : string :=
  String.append "job-" (NilZero.string_of_uint (Nat.to_uint n)).

Definition anEvent (id : string) (t : EventType) : DomainEvent unit :=
  mkEvent id t 0 None 1 tt.

Definition freshExt : Ext nat unit := mkExt 0 0%nat [].

(** The contract of [OrderProcessorStrategy]: the three order types, in
    batches of 25.  Here processing the event "order-bad" fails at once and
    processing any other event takes five seconds. *)
Definition orderProcessor : EventProcessorStrategy nat unit :=
  mkStrategy
    (fun t => match t with
              | ORDER_CREATED | ORDER_UPDATED | ORDER_CANCELLED => true
              | _ => false
              end)
    (fun e _ calls =>
       if String.eqb (event_id e) "order-bad"
       then (S calls, 0%N, inl (mkError "order rejected"))
       else (S calls, 5000%N, inr tt))
    25 true.

(** The contract of [NotificationProcessorStrategy]: batches of 100. *)
Definition notificationProcessor : EventProcessorStrategy nat unit :=
  mkStrategy
    (fun t => match t with NOTIFICATION_REQUESTED => true | _ => false end)
    (fun _ _ calls => (S calls, 20%N, inr tt))
    100 true.

(** A handler that keeps the defaults of [BaseEventProcessorStrategy]: no
    batching, batch size 10. *)
Definition paymentProcessor : EventProcessorStrategy nat unit :=
  mkStrategy
    (fun t => match t with PAYMENT_CONFIRMED | PAYMENT_FAILED => true | _ => false end)
    (fun e _ calls =>
       if String.eqb (event_id e) "payment-bad"
       then (S calls, 30%N, inl (mkError "payment rejected"))
       else (S calls, 30%N, inr tt))
    10 false.

(** A handler whose batches hold two events. *)
Definition pairProcessor : EventProcessorStrategy nat unit :=
  mkStrategy
    (fun t => match t with STOCK_UPDATED => true | _ => false end)
    (fun _ _ calls => (S calls, 10%N, inr tt))
    2 true.

(** [AuditObserver]: interested in every type. *)
Definition auditObserver : EventObserver nat unit :=
  mkObserver "AuditObserver" EventType_values (fun _ _ calls => (S calls, 7%N, inr tt)).

Definition batchService : BatchProcessorService nat unit :=
  mkBatchService 50 30000
    (newFactory [orderProcessor; notificationProcessor; paymentProcessor; pairProcessor]).

Definition dispatcher : EventProcessorService nat unit :=
  mkDispatcher [auditObserver] batchService.

Definition freshWorld : World nat unit := initialWorld freshExt.

(** *** The tests of event-processor.strategy.spec.ts *)

(** [mockOperation]: throws "Temporary failure" on its first two calls and
    resolves with "success" on the third. *)
Definition mockOperation : Behaviour nat string :=
  fun _ attemptCount =>
    if Nat.ltb (S attemptCount) 3
    then (S attemptCount, 0%N, inl (mkError "Temporary failure"))
    else (S attemptCount, 0%N, inr "success").

Definition persistentFailure : Behaviour nat string :=
  fun _ calls => (S calls, 0%N, inl (mkError "Persistent failure")).

Example should_retry_failed_operations :
  snd (retry (call (LOperation "mockOperation") mockOperation) 3 100 freshExt)
  = inr "success"
  /\ actions (fst (retry (call (LOperation "mockOperation") mockOperation) 3 100 freshExt))
     = [Invoked (LOperation "mockOperation");
        Rejected (LOperation "mockOperation") (mkError "Temporary failure");
        Slept 100;
        Invoked (LOperation "mockOperation");
        Rejected (LOperation "mockOperation") (mkError "Temporary failure");
        Slept 200;
        Invoked (LOperation "mockOperation");
        Resolved (LOperation "mockOperation")].
Proof. split; reflexivity. Qed.

Example should_throw_after_max_retry_attempts :
  snd (retry (call (LOperation "mockOperation") persistentFailure) 2 100 freshExt)
  = inl (ThrownError (mkError "Persistent failure"))
  /\ actions (fst (retry (call (LOperation "mockOperation") persistentFailure) 2 100 freshExt))
     = [Invoked (LOperation "mockOperation");
        Rejected (LOperation "mockOperation") (mkError "Persistent failure");
        Slept 100;
        Invoked (LOperation "mockOperation");
        Rejected (LOperation "mockOperation") (mkError "Persistent failure")].
Proof. split; reflexivity. Qed.

(** With no attempt allowed the loop body never runs and [lastError] is
    thrown unassigned. *)
Example retry_with_no_attempt :
  retry (call (LOperation "mockOperation") mockOperation) 0 100 freshExt
  = (freshExt, inl ThrownUndefined).
Proof. reflexivity. Qed.

(** An operation that rejects with [undefined]: the [catch] block of the
    first attempt fails to read [error.message], and [retry] rejects with
    that TypeError after one attempt, whatever [maxAttempts] is. *)
Definition rejectsUndefined : X nat unit string := xthrow ThrownUndefined.

Example retry_of_an_undefined_rejection :
  retry rejectsUndefined 3 100 freshExt
  = (freshExt, inl (ThrownError TypeError_message)).
Proof. reflexivity. Qed.

(** C3 as the specification states it, for every operation. *)
Definition retry_runs_as_specified_for_every_operation : Prop :=
  forall (Env Payload T : Type) (operation : X Env Payload T)
         (maxAttempts : nat) (delay : Z) (w : Ext Env Payload),
    (1 <= maxAttempts)%nat ->
    exists n,
      claimedRun operation maxAttempts delay 1 w (retry operation maxAttempts delay w) n.

Lemma C3_undefined_rejection_counterexample :
  ~ retry_runs_as_specified_for_every_operation.
Proof.
  intros claim.
  destruct (claim nat unit string rejectsUndefined 1%nat 100 freshExt (le_n 1))
    as [n Hrun].
  change (retry rejectsUndefined 1 100 freshExt)
    with (freshExt, @inl Thrown string (ThrownError TypeError_message)) in Hrun.
  inversion Hrun as [attempt w w' v Hop|w w' t Hop|attempt w w' t out m Hlt]; subst.
  - unfold rejectsUndefined, xthrow in Hop. discriminate Hop.
  - lia.
Qed.

Lemma C3_retry_witness :
  exists n,
    claimedRun (call (LOperation "mockOperation") mockOperation) 3 100 1 freshExt
               (retry (call (LOperation "mockOperation") mockOperation) 3 100 freshExt) n
    /\ (n <= 3)%nat
    /\ (forall t,
          snd (retry (call (LOperation "mockOperation") mockOperation) 3 100 freshExt)
          = inl t -> n = 3%nat).
Proof.
  apply (@C3_retry_attempts_and_backoff nat unit string
           (call (LOperation "mockOperation") mockOperation) 3%nat 100 freshExt).
  - lia.
  - apply call_rejectsWithErrors.
Defined.

(** *** The tests of event-observer.pattern.spec.ts *)

Definition mockOrderObserver : EventObserver nat unit :=
  mkObserver "MockOrderObserver" [ORDER_CREATED; ORDER_UPDATED]
             (fun _ _ updateCallCount => (S updateCallCount, 0%N, inr tt)).

(** [MockNotificationObserver] with [shouldThrow = true]. *)
Definition throwingObserver : EventObserver nat unit :=
  mkObserver "MockNotificationObserver" [NOTIFICATION_REQUESTED]
             (fun _ _ updateCallCount =>
                (S updateCallCount, 0%N, inl (mkError "Mock observer error"))).

Definition notification1 : DomainEvent unit :=
  anEvent "test-notification-1" NOTIFICATION_REQUESTED.

Example should_notify_interested_observers :
  invoked (actions (fst (notify [mockOrderObserver; throwingObserver]
                                (anEvent "test-order-1" ORDER_CREATED) freshExt)))
  = [LUpdate "MockOrderObserver" (anEvent "test-order-1" ORDER_CREATED)].
Proof. reflexivity. Qed.

Example should_handle_observer_errors_gracefully :
  snd (notify [throwingObserver] notification1 freshExt) = inr tt
  /\ actions (fst (notify [throwingObserver] notification1 freshExt))
     = [Invoked (LUpdate "MockNotificationObserver" notification1);
        Rejected (LUpdate "MockNotificationObserver" notification1)
                 (mkError "Mock observer error")].
Proof. split; reflexivity. Qed.

(** An observer that always throws, ahead of one that does not: both run. *)
Example failing_observer_does_not_stop_its_sibling :
  snd (notify [throwingObserver;
               mkObserver "AuditObserver" EventType_values
                          (fun _ _ calls => (S calls, 7%N, inr tt))]
              notification1 freshExt) = inr tt
  /\ invoked (actions (fst (notify [throwingObserver;
                                    mkObserver "AuditObserver" EventType_values
                                               (fun _ _ calls => (S calls, 7%N, inr tt))]
                                   notification1 freshExt)))
     = [LUpdate "MockNotificationObserver" notification1;
        LUpdate "AuditObserver" notification1]
  /\ trace (fst (notify [throwingObserver;
                         mkObserver "AuditObserver" EventType_values
                                    (fun _ _ calls => (S calls, 7%N, inr tt))]
                        notification1 freshExt))
     = [(0, Invoked (LUpdate "MockNotificationObserver" notification1));
        (0, Invoked (LUpdate "AuditObserver" notification1));
        (0, Rejected (LUpdate "MockNotificationObserver" notification1)
                     (mkError "Mock observer error"));
        (7, Resolved (LUpdate "AuditObserver" notification1))].
Proof. repeat split. Qed.

(** *** One order event on the batch path (end-to-end scenario 1) *)

Definition order1 : DomainEvent unit := anEvent "order-1" ORDER_CREATED.
Definition order2 : DomainEvent unit := anEvent "order-2" ORDER_CREATED.
Definition orderBad : DomainEvent unit := anEvent "order-bad" ORDER_CREATED.

(** The first order of a batch of 25: the audit observer is told about it
    at once, while it sits in the pending batch, before any handler has
    been called and before any job exists. *)
Example order_is_notified_while_still_pending :
  trace (ext (fst (processEvent jobId dispatcher order1 freshWorld)))
  = [(0, Invoked (LUpdate "AuditObserver" order1));
     (7, Resolved (LUpdate "AuditObserver" order1))]
  /\ pendingBatches (fst (processEvent jobId dispatcher order1 freshWorld))
     = [(ORDER_CREATED, mkPendingBatch ORDER_CREATED [order1] 0 25)]
  /\ getActiveBatches (fst (processEvent jobId dispatcher order1 freshWorld)) = []
  /\ getBatchStatistics (fst (processEvent jobId dispatcher order1 freshWorld))
     = mkBatchStatistics 1 0 1 [("ORDER_CREATED", 1%nat)].
Proof. repeat split. Qed.

(** C1 as the specification states it, for the batch path: an observer is
    told about an event only once a job holding the event has completed. *)
Definition fanout_only_after_flush : Prop :=
  forall (Env Payload : Type) (uuidv4 : nat -> string)
         (this : EventProcessorService Env Payload) (event : DomainEvent Payload)
         (w : World Env Payload) (processor : EventProcessorStrategy Env Payload)
         (acts : list (Action Payload)),
    createProcessor (dispatcherFactory this) (event_type event) = Some processor ->
    supportsBatchProcessing processor = true ->
    actions (ext (fst (processEvent uuidv4 this event w))) = actions (ext w) ++ acts ->
    forall observer,
      In (Invoked (LUpdate observer event)) acts ->
      exists job,
        In job (getActiveBatches (fst (processEvent uuidv4 this event w)))
        /\ In event (job_events job)
        /\ job_completedAt job <> None.

Lemma C1_fanout_before_flush_counterexample : ~ fanout_only_after_flush.
Proof.
  intros claim.
  destruct (claim nat unit jobId dispatcher order1 freshWorld orderProcessor
              [Invoked (LUpdate "AuditObserver" order1);
               Resolved (LUpdate "AuditObserver" order1)]
              eq_refl eq_refl eq_refl "AuditObserver" (or_introl eq_refl))
    as (job & Hin & _).
  vm_compute in Hin. exact Hin.
Qed.

Lemma C1_fanout_witness :
  (supportsBatchProcessing orderProcessor = false ->
     processEvent jobId dispatcher order1 freshWorld
     = match snd (process_call orderProcessor order1 (ext freshWorld)) with
       | inr _ => liftX (notify (eventSubject dispatcher) order1)
                        (with_ext (fst (process_call orderProcessor order1 (ext freshWorld)))
                                  freshWorld)
       | inl error => (with_ext (fst (process_call orderProcessor order1 (ext freshWorld)))
                                freshWorld,
                       inl error)
       end)
  /\ (supportsBatchProcessing orderProcessor = true ->
       processEvent jobId dispatcher order1 freshWorld
       = liftX (notify (eventSubject dispatcher) order1)
               (fst (addEventToBatch jobId (batchProcessor dispatcher) order1 freshWorld))
       /\ (Z.of_nat (List.length
                       (batch_events
                          (currentBatch orderProcessor (event_type order1) freshWorld)) + 1)
           < batch_maxSize (currentBatch orderProcessor (event_type order1) freshWorld) ->
           fst (addEventToBatch jobId (batchProcessor dispatcher) order1 freshWorld)
           = withPending (event_type order1)
               (extend (currentBatch orderProcessor (event_type order1) freshWorld) [order1])
               freshWorld)
       /\ (batch_maxSize (currentBatch orderProcessor (event_type order1) freshWorld)
           <= Z.of_nat (List.length
                          (batch_events
                             (currentBatch orderProcessor (event_type order1) freshWorld)) + 1) ->
           addEventToBatch jobId (batchProcessor dispatcher) order1 freshWorld
           = flushed jobId (batchProcessor dispatcher) (event_type order1)
               (extend (currentBatch orderProcessor (event_type order1) freshWorld) [order1])
               (withPending (event_type order1)
                  (extend (currentBatch orderProcessor (event_type order1) freshWorld) [order1])
                  freshWorld))).
Proof.
  apply (@C1_fanout_follows_the_processing_step nat unit jobId dispatcher order1
           freshWorld orderProcessor).
  reflexivity.
Defined.

(** *** Two payment events on the immediate path *)

Definition payment1 : DomainEvent unit := anEvent "payment-1" PAYMENT_CONFIRMED.
Definition paymentBad : DomainEvent unit := anEvent "payment-bad" PAYMENT_FAILED.

Example immediate_event_is_notified_when_process_resolves :
  processEvent jobId dispatcher payment1 freshWorld
  = (mkWorld (mkExt 37 2%nat
                [(0, Invoked (LProcess payment1));
                 (30, Resolved (LProcess payment1));
                 (30, Invoked (LUpdate "AuditObserver" payment1));
                 (37, Resolved (LUpdate "AuditObserver" payment1))])
             [] [] 0 [],
     inr tt).
Proof. reflexivity. Qed.

Example immediate_failure_reaches_the_caller_without_fanout :
  processEvent jobId dispatcher paymentBad freshWorld
  = (mkWorld (mkExt 30 1%nat
                [(0, Invoked (LProcess paymentBad));
                 (30, Rejected (LProcess paymentBad) (mkError "payment rejected"))])
             [] [] 0 [],
     inl (ThrownError (mkError "payment rejected"))).
Proof. reflexivity. Qed.

(** *** A batch in which one task fails early *)

(** Two orders are pending; the first is the one whose processing fails. *)
Definition twoPending : World nat unit :=
  fst (forEach [orderBad; order2] (addEventToBatch jobId batchService) freshWorld).

Example twoPending_batch :
  JsMap.get ORDER_CREATED (pendingBatches twoPending)
  = Some (mkPendingBatch ORDER_CREATED [orderBad; order2] 0 25).
Proof. reflexivity. Qed.

(** Forcing the flush: both tasks are started at 0; the task of
    "order-bad" fails at 0, 1000 and 3000 and rejects at 3000; the job is
    FAILED and completed at 3000; the task of "order-2" is still running
    then and resolves at 5000. *)
Example failed_job_is_finalized_before_the_other_task_settles :
  snd (processingPromises orderProcessor [orderBad; order2] (ext twoPending))
  = [(0%nat, mkPromise 3000 (inl (ThrownError (mkError "order rejected"))));
     (1%nat, mkPromise 5000 (inr tt))]
  /\ getActiveBatches
       (fst (forceBatchProcessing jobId batchService (Some ORDER_CREATED) twoPending))
     = [mkBatchJob "job-0" "ORDER_CREATED" [orderBad; order2] 2 FAILED 0
                   (Some 0) (Some 3000) (Some "order rejected")]
  /\ trace (ext (fst (forceBatchProcessing jobId batchService (Some ORDER_CREATED)
                                           twoPending)))
     = [(0, Invoked (LProcess orderBad));
        (0, Invoked (LProcess order2));
        (0, Rejected (LProcess orderBad) (mkError "order rejected"));
        (0, Slept 1000);
        (1000, Invoked (LProcess orderBad));
        (1000, Rejected (LProcess orderBad) (mkError "order rejected"));
        (1000, Slept 2000);
        (3000, Invoked (LProcess orderBad));
        (3000, Rejected (LProcess orderBad) (mkError "order rejected"));
        (5000, Resolved (LProcess order2))].
Proof. repeat split. Qed.


Definition twoOrders_batch : PendingBatch unit :=
  mkPendingBatch ORDER_CREATED [orderBad; order2] 0 25.

Lemma twoPending_not_empty : batch_events twoOrders_batch <> [].
Proof. discriminate. Qed.




(** *** A batch filled by appends (the shape of end-to-end scenario 2) *)

Definition stock1 : DomainEvent unit := anEvent "stock-1" STOCK_UPDATED.
Definition stock2 : DomainEvent unit := anEvent "stock-2" STOCK_UPDATED.

Example two_appends_fill_a_batch_of_two :
  pendingBatches (fst (addEventToBatch jobId batchService stock1 freshWorld))
  = [(STOCK_UPDATED, mkPendingBatch STOCK_UPDATED [stock1] 0 2)]
  /\ getActiveBatches (fst (addEventToBatch jobId batchService stock1 freshWorld)) = []
  /\ pendingBatches (fst (forEach [stock1; stock2] (addEventToBatch jobId batchService)
                                  freshWorld)) = []
  /\ getActiveBatches (fst (forEach [stock1; stock2] (addEventToBatch jobId batchService)
                                    freshWorld))
     = [mkBatchJob "job-0" "STOCK_UPDATED" [stock1; stock2] 2 COMPLETED 0
                   (Some 0) (Some 10) None].
Proof. repeat split. Qed.

Lemma C4_full_batch_witness :
  snd (forEach [stock1; stock2] (addEventToBatch jobId batchService) freshWorld) = inr tt
  /\ JsMap.get STOCK_UPDATED
       (pendingBatches (fst (forEach [stock1; stock2] (addEventToBatch jobId batchService)
                                     freshWorld)))
     = None
  /\ flushes (fst (forEach [stock1; stock2] (addEventToBatch jobId batchService)
                           freshWorld))
     = S (flushes freshWorld)
  /\ (forall id job,
        JsMap.get id
          (activeBatches (fst (forEach [stock1; stock2]
                                       (addEventToBatch jobId batchService) freshWorld)))
        = Some job ->
        (id = jobId (uuidCalls freshWorld)
         /\ Z.of_nat (job_batchSize job) = getBatchSize pairProcessor
         /\ job_events job = [stock1; stock2]
         /\ job_type job = EventType_toString STOCK_UPDATED)
        \/ (id <> jobId (uuidCalls freshWorld)
            /\ JsMap.get id (activeBatches freshWorld) = Some job))
  /\ (~ In (jobId (uuidCalls freshWorld)) (map snd (timers freshWorld)) ->
      exists job,
        JsMap.get (jobId (uuidCalls freshWorld))
          (activeBatches (fst (forEach [stock1; stock2]
                                       (addEventToBatch jobId batchService) freshWorld)))
        = Some job).
Proof.
  apply (@C4_full_batch_flushes_once nat unit jobId batchService STOCK_UPDATED
           pairProcessor [stock1; stock2] freshWorld).
  - reflexivity.
  - reflexivity.
  - simpl. lia.
  - reflexivity.
  - repeat constructor.
  - reflexivity.
Defined.

(** *** An eviction that falls due while a later flush is awaited *)

Definition stock3 : DomainEvent unit := anEvent "stock-3" STOCK_UPDATED.
Definition stock4 : DomainEvent unit := anEvent "stock-4" STOCK_UPDATED.

(** The first batch is flushed at 0 and its job completed at 10, so that
    its eviction is due at 60010.  The second batch is flushed at 60005 and
    its tasks settle at 60015: when its job is completed the first job is
    gone. *)
Definition secondFlush : World nat unit :=
  fst (forEach [stock3; stock4] (addEventToBatch jobId batchService)
         (elapse 59995
            (fst (forEach [stock1; stock2] (addEventToBatch jobId batchService)
                          freshWorld)))).

Example first_job_is_evicted_during_the_second_flush :
  timers (fst (forEach [stock1; stock2] (addEventToBatch jobId batchService) freshWorld))
  = [(60010, "job-0")]
  /\ clock (ext secondFlush) = 60015
  /\ getActiveBatches secondFlush
     = [mkBatchJob "job-1" "STOCK_UPDATED" [stock3; stock4] 2 COMPLETED 60005
                   (Some 60005) (Some 60015) None]
  /\ timers secondFlush = [(120015, "job-1")].
Proof. repeat split. Qed.

(** *** An event type nobody handles (end-to-end scenario 4) *)

Definition reserved9 : DomainEvent unit := anEvent "stock-9" STOCK_RESERVED.

Lemma C6_unregistered_type_witness :
  createProcessor (dispatcherFactory dispatcher) (event_type reserved9) = None
  /\ processEvent jobId dispatcher reserved9 freshWorld
     = (freshWorld,
        inl (ThrownError
               (mkError (String.append "No processor found for event type: "
                           (EventType_toString (event_type reserved9))))))
  /\ invoked (actions (ext (fst (processEvent jobId dispatcher reserved9 freshWorld))))
     = invoked (actions (ext freshWorld)).
Proof.
  apply (@C6_unregistered_type_is_rejected_without_fanout nat unit jobId dispatcher
           reserved9 freshWorld).
  reflexivity.
Defined.

Example unregistered_type_error_message :
  snd (processEvent jobId dispatcher reserved9 freshWorld)
  = inl (ThrownError (mkError "No processor found for event type: STOCK_RESERVED")).
Proof. reflexivity. Qed.

(** *** A history with a sweep *)

Definition twoOrders : list (N * PublicOperation unit) :=
  [(0%N, OpAddEventToBatch order1); (1000%N, OpAddEventToBatch stock1);
   (1000%N, OpAddEventToBatch order2)].

(** Forty seconds later the sweep flushes both batches. *)
Example sweep_flushes_old_batches :
  pendingBatches (runSchedule jobId batchService twoOrders (initialWorld freshExt))
  = [(ORDER_CREATED, mkPendingBatch ORDER_CREATED [order1; order2] 0 25);
     (STOCK_UPDATED, mkPendingBatch STOCK_UPDATED [stock1] 1000 2)]
  /\ pendingBatches
       (fst (runOperation jobId batchService (OpProcessTimedOutBatches unit)
               (elapse 40000
                  (runSchedule jobId batchService twoOrders (initialWorld freshExt)))))
     = []
  /\ map (@job_id unit)
         (getActiveBatches
            (fst (runOperation jobId batchService (OpProcessTimedOutBatches unit)
                    (elapse 40000
                       (runSchedule jobId batchService twoOrders
                                    (initialWorld freshExt))))))
     = ["job-0"; "job-1"].
Proof. repeat split. Qed.

Lemma C9_pending_batches_witness :
  pending_ok
    (pendingBatches
       (fst (runOperation jobId batchService (OpAddEventToBatch order2)
               (elapse 500
                  (runSchedule jobId batchService twoOrders (initialWorld freshExt))))))
  /\ created_unchanged
       (pendingBatches (runSchedule jobId batchService twoOrders (initialWorld freshExt)))
       (pendingBatches
          (fst (runOperation jobId batchService (OpAddEventToBatch order2)
                  (elapse 500
                     (runSchedule jobId batchService twoOrders (initialWorld freshExt)))))).
Proof.
  apply (@C9_pending_batches_invariant nat unit jobId batchService freshExt twoOrders
           500%N (OpAddEventToBatch order2)).
Defined.

(** A handler with a batch size of 0: each append reaches the threshold,
    so every event is flushed by itself and no batch of the type is ever
    left pending. *)
Definition eagerProcessor : EventProcessorStrategy nat unit :=
  mkStrategy
    (fun t => match t with STOCK_RESERVED => true | _ => false end)
    (fun _ _ calls => (S calls, 10%N, inr tt))
    0 true.

Definition eagerService : BatchProcessorService nat unit :=
  mkBatchService 50 30000 (newFactory [eagerProcessor]).

Example batch_size_zero_leaves_nothing_pending :
  pendingBatches
    (fst (addEventToBatch jobId eagerService (anEvent "stock-8" STOCK_RESERVED) freshWorld))
  = []
  /\ map (@job_batchSize unit)
         (getActiveBatches
            (fst (addEventToBatch jobId eagerService (anEvent "stock-8" STOCK_RESERVED)
                                  freshWorld)))
     = [1%nat].
Proof. repeat split. Qed.

(** *** Statistics of a state with two pending batches *)

Definition twoBatches : World nat unit :=
  runSchedule jobId batchService twoOrders (initialWorld freshExt).

Example statistics_of_two_batches :
  getBatchStatistics twoBatches
  = mkBatchStatistics 2 0 3 [("ORDER_CREATED", 2%nat); ("STOCK_UPDATED", 1%nat)].
Proof. reflexivity. Qed.

Lemma twoBatches_wf : JsMap.wf (pendingBatches twoBatches).
Proof.
  vm_compute. repeat constructor; simpl; intuition discriminate.
Qed.

Lemma C10_batch_statistics_witness :
  stats_batchesByType (getBatchStatistics twoBatches)
  = map (@statsEntry unit) (JsMap.entries (pendingBatches twoBatches))
  /\ stats_totalPendingEvents (getBatchStatistics twoBatches)
     = list_sum (JsMap.values (stats_batchesByType (getBatchStatistics twoBatches)))
  /\ JsMap.size (stats_batchesByType (getBatchStatistics twoBatches))
     = JsMap.size (pendingBatches twoBatches)
  /\ (forall eventType b,
        JsMap.get eventType (pendingBatches twoBatches) = Some b ->
        JsMap.get (EventType_toString eventType)
                  (stats_batchesByType (getBatchStatistics twoBatches))
        = Some (List.length (batch_events b)))
  /\ stats_pendingBatches (getBatchStatistics twoBatches)
     = JsMap.size (pendingBatches twoBatches)
  /\ stats_activeBatches (getBatchStatistics twoBatches)
     = JsMap.size (activeBatches twoBatches).
Proof.
  apply (@C10_batch_statistics_consistent nat unit twoBatches).
  exact twoBatches_wf.
Defined.

(** * The observer list of [EventSubject]
      (common/observers/event-observer.pattern.ts) *)

Section Subject.

Variable Env : Type.
Variable Payload : Type.

(** An observer as [attach] and [detach] see it: an object.  [includes]
    and [indexOf] compare objects by reference. *)
Record ObserverObject : Type := mkObserverObject {
  object_ref : nat;
  object_observer : EventObserver Env Payload
}.

(** [this.observers.includes(observer)] *)
Definition includes (observers : list ObserverObject) (observer : ObserverObject) : bool :=
  existsb (fun o => Nat.eqb (object_ref o) (object_ref observer)) observers.

(** [this.observers.indexOf(observer)]: the first position, or -1. *)
Fixpoint indexOf (observers : list ObserverObject) (observer : ObserverObject) : Z :=
  match observers with
  | [] => -1
  | o :: observers' =>
      if Nat.eqb (object_ref o) (object_ref observer) then 0
      else let i := indexOf observers' observer in
           if i =? -1 then -1 else i + 1
  end.

(** [array.splice(index, 1)] for an index from 0 on: what is left. *)
Definition splice1 {A} (index : Z) (l : list A) : list A :=
  firstn (Z.to_nat index) l ++ skipn (Z.to_nat index + 1) l.

Definition attach (observer : ObserverObject) (observers : list ObserverObject)
  : list ObserverObject :=
  if includes observers observer then observers else observers ++ [observer].

Definition detach (observer : ObserverObject) (observers : list ObserverObject)
  : list ObserverObject :=
  let observerIndex := indexOf observers observer in
  if observerIndex =? -1 then observers else splice1 observerIndex observers.

Definition getObserversCount (observers : list ObserverObject) : nat :=
  List.length observers.

(** [notify] on the subject's list. *)
Definition subject_notify (observers : list ObserverObject) (event : DomainEvent Payload)
  : X Env Payload unit :=
  notify (map object_observer observers) event.

Definition refs (observers : list ObserverObject) : list nat := map object_ref observers.

Lemma includes_In observers observer :
  includes observers observer = true <-> In (object_ref observer) (refs observers).
Proof.
  unfold includes, refs. rewrite existsb_exists, in_map_iff. split.
  - intros (o & Hin & E). apply Nat.eqb_eq in E. eauto.
  - intros (o & E & Hin). exists o. split; [exact Hin | now apply Nat.eqb_eq].
Qed.

Lemma includes_app l1 l2 observer :
  includes (l1 ++ l2) observer = includes l1 observer || includes l2 observer.
Proof. unfold includes. apply existsb_app. Qed.

(** Where [indexOf] points. *)
Lemma indexOf_found observers observer :
  includes observers observer = true ->
  exists before o after,
    observers = before ++ o :: after
    /\ object_ref o = object_ref observer
    /\ includes before observer = false
    /\ indexOf observers observer = Z.of_nat (List.length before).
Proof.
  induction observers as [|o observers IH]; cbn [includes existsb indexOf];
    [discriminate|].
  destruct (Nat.eqb (object_ref o) (object_ref observer)) eqn:E; cbn [orb].
  - intros _. exists [], o, observers. apply Nat.eqb_eq in E. now repeat split.
  - intros Hin. destruct (IH Hin) as (before & o' & after & -> & Hr & Hb & Hi).
    exists (o :: before), o', after. repeat split; auto.
    + cbn [includes existsb]. rewrite E. exact Hb.
    + cbv zeta. rewrite Hi.
      replace (Z.of_nat (List.length before) =? -1) with false
        by (symmetry; apply Z.eqb_neq; lia).
      cbn [List.length]. lia.
Qed.

Lemma indexOf_absent observers observer :
  includes observers observer = false -> indexOf observers observer = -1.
Proof.
  induction observers as [|o observers IH]; cbn [includes existsb indexOf];
    [reflexivity|].
  destruct (Nat.eqb (object_ref o) (object_ref observer)); cbn [orb]; [discriminate|].
  intros Hin. cbv zeta. now rewrite (IH Hin).
Qed.

Lemma splice1_middle {A} (before : list A) x after :
  splice1 (Z.of_nat (List.length before)) (before ++ x :: after) = before ++ after.
Proof.
  unfold splice1. rewrite Nat2Z.id.
  rewrite firstn_app, firstn_all, Nat.sub_diag. cbn [firstn]. rewrite app_nil_r.
  f_equal. rewrite skipn_app.
  rewrite skipn_all2 by lia.
  replace (List.length before + 1 - List.length before)%nat with 1%nat by lia.
  reflexivity.
Qed.

Lemma detach_found observers observer :
  includes observers observer = true ->
  exists before o after,
    observers = before ++ o :: after
    /\ object_ref o = object_ref observer
    /\ includes before observer = false
    /\ detach observer observers = before ++ after.
Proof.
  intros Hin. destruct (indexOf_found _ _ Hin) as (before & o & after & -> & Hr & Hb & Hi).
  exists before, o, after. repeat split; auto.
  unfold detach. cbv zeta. rewrite Hi.
  replace (Z.of_nat (List.length before) =? -1) with false
    by (symmetry; apply Z.eqb_neq; lia).
  apply splice1_middle.
Qed.

(** X1. [attach] is idempotent and never stores an observer twice: the
    observer is in the list afterwards, the count grows by one exactly when
    it was not there, attaching it again changes nothing, and a list of
    distinct observers stays one. *)
Theorem X1_attach_is_idempotent_and_keeps_observers_distinct
    (observer : ObserverObject) (observers : list ObserverObject) :
  includes (attach observer observers) observer = true
  /\ attach observer (attach observer observers) = attach observer observers
  /\ getObserversCount (attach observer observers)
     = (getObserversCount observers + if includes observers observer then 0 else 1)%nat
  /\ (NoDup (refs observers) -> NoDup (refs (attach observer observers))).
Proof.
  assert (Hin : includes (attach observer observers) observer = true).
  { unfold attach. destruct (includes observers observer) eqn:E; [exact E|].
    rewrite includes_app, E. cbn. now rewrite Nat.eqb_refl. }
  split; [exact Hin|]. split; [|split].
  - unfold attach at 1. now rewrite Hin.
  - unfold attach, getObserversCount.
    destruct (includes observers observer); [lia|].
    rewrite length_app. reflexivity.
  - intros ND. unfold attach. destruct (includes observers observer) eqn:E; [exact ND|].
    unfold refs. rewrite map_app. apply NoDup_app; [exact ND | | ].
    + cbn. constructor; [intros [] | constructor].
    + intros r Hr [<-|[]].
      apply includes_In in Hr. congruence.
Qed.

(** X2. [detach] removes the observer and nothing else: an observer that
    is not attached leaves the list as it is; detaching right after
    attaching a new observer gives the list back; and from a list of
    distinct observers the detached one is gone while every other observer
    stays. *)
Theorem X2_detach_removes_only_the_observer
    (observer : ObserverObject) (observers : list ObserverObject) :
  (includes observers observer = false -> detach observer observers = observers)
  /\ (includes observers observer = false ->
      detach observer (attach observer observers) = observers)
  /\ (NoDup (refs observers) ->
      includes (detach observer observers) observer = false
      /\ NoDup (refs (detach observer observers))
      /\ forall other,
           object_ref other <> object_ref observer ->
           includes (detach observer observers) other = includes observers other).
Proof.
  split; [|split].
  - intros H. unfold detach. cbv zeta. now rewrite (indexOf_absent _ _ H).
  - intros H. unfold attach. rewrite H.
    assert (Hin : includes (observers ++ [observer]) observer = true).
    { rewrite includes_app, H. cbn. now rewrite Nat.eqb_refl. }
    destruct (detach_found _ _ Hin) as (before & o & after & E & Hr & Hb & ->).
    (* the first occurrence is the one just appended *)
    assert (Hafter : after = []).
    { destruct after as [|a after]; [reflexivity|]. exfalso.
      assert (Hlen : List.length (observers ++ [observer])
                     = List.length (before ++ o :: a :: after)) by now rewrite E.
      assert (Hpre : observers = firstn (List.length observers) (before ++ o :: a :: after)).
      { rewrite <- E, firstn_app, firstn_all, Nat.sub_diag. cbn. now rewrite app_nil_r. }
      rewrite !length_app in Hlen. cbn [List.length] in Hlen.
      assert (Hin' : In o observers).
      { rewrite Hpre. rewrite firstn_app.
        apply in_or_app. right.
        replace (List.length observers - List.length before)%nat
          with (S (List.length observers - List.length before - 1))%nat by lia.
        now left. }
      assert (Hc : includes observers observer = true).
      { apply includes_In. rewrite <- Hr. unfold refs. now apply in_map. }
      congruence. }
    subst after. rewrite app_nil_r.
    apply app_inj_tail in E. now destruct E.
  - intros ND. destruct (includes observers observer) eqn:Hin.
    + destruct (detach_found _ _ Hin) as (before & o & after & -> & Hr & Hb & ->).
      unfold refs in ND. rewrite map_app in ND. cbn [map] in ND.
      apply NoDup_remove in ND. destruct ND as [ND Hnotin].
      rewrite <- map_app in ND, Hnotin. split; [|split].
      * apply not_true_is_false. intros Hc. apply includes_In in Hc.
        rewrite <- Hr in Hc. exact (Hnotin Hc).
      * exact ND.
      * intros other Hneq. rewrite !includes_app. cbn [includes existsb].
        replace (Nat.eqb (object_ref o) (object_ref other)) with false
          by (symmetry; apply Nat.eqb_neq; congruence).
        reflexivity.
    + unfold detach. cbv zeta. rewrite (indexOf_absent _ _ Hin). cbn.
      repeat split; auto.
Qed.

(** X3. Attaching the same observer twice yields one notification per
    event: after two [attach] calls for an observer that was not attached,
    [notify] calls the [update] of the observers that were there, in order,
    and then the new observer's, once, if it is interested in the event's
    type. *)
Theorem X3_observer_attached_twice_is_notified_once
    (observer : ObserverObject) (observers : list ObserverObject)
    (event : DomainEvent Payload) (w : Ext Env Payload) :
  includes observers observer = false ->
  exists acts,
    actions (fst (subject_notify (attach observer (attach observer observers)) event w))
    = actions w ++ acts
    /\ invoked acts
       = map (fun o => LUpdate (getName o) event)
             (interestedObservers (map object_observer observers) event)
         ++ (if isInterestedIn (object_observer observer) (event_type event)
             then [LUpdate (getName (object_observer observer)) event]
             else []).
Proof.
  intros Hnew.
  assert (E : attach observer (attach observer observers) = observers ++ [observer]).
  { unfold attach. rewrite Hnew, includes_app, Hnew. cbn. now rewrite Nat.eqb_refl. }
  rewrite E. unfold subject_notify.
  destruct (notify_invoked (map object_observer (observers ++ [observer])) event w)
    as (acts & Ha & Hi).
  exists acts. split; [exact Ha|].
  rewrite Hi. unfold interestedObservers.
  rewrite map_app, filter_app, map_app. f_equal.
  cbn [map filter].
  now destruct (isInterestedIn (object_observer observer) (event_type event)).
Qed.
End Subject.

(** * The application as [onModuleInit] wires it
      (modules/event-processor/event-processor.service.ts,
       modules/order/strategies/order-processor.strategy.ts,
       modules/notification/strategies/notification-processor.strategy.ts,
       modules/audit/observers/audit.observer.ts) *)

Section Wiring.

Variable Env : Type.
Variable Payload : Type.
Variable uuidv4 : nat -> string.

Local Abbreviation EventProcessorStrategy := (EventProcessorStrategy Env Payload).
Local Abbreviation ConcreteEventProcessorFactory := (ConcreteEventProcessorFactory Env Payload).
Local Abbreviation World := (World Env Payload).

(** [OrderProcessorStrategy], as the registry and the batch service see it:
    [canHandle] is [[ORDER_CREATED, ORDER_UPDATED, ORDER_CANCELLED].includes],
    the batch size is 25 and batching is on. *)
Definition OrderProcessorStrategy
    (process : DomainEvent Payload -> Behaviour Env unit) : EventProcessorStrategy :=
  mkStrategy
    (fun eventType =>
       existsb (fun t => keqb t eventType) [ORDER_CREATED; ORDER_UPDATED; ORDER_CANCELLED])
    process 25 true.

(** [NotificationProcessorStrategy]: [canHandle] is
    [eventType === NOTIFICATION_REQUESTED], the batch size is 100 and
    batching is on. *)
Definition NotificationProcessorStrategy
    (process : DomainEvent Payload -> Behaviour Env unit) : EventProcessorStrategy :=
  mkStrategy (fun eventType => keqb eventType NOTIFICATION_REQUESTED) process 100 true.

(** [AuditObserver]: interested in [Object.values(EventType)]. *)
Definition AuditObserver
    (update : DomainEvent Payload -> Behaviour Env unit) : EventObserver Env Payload :=
  mkObserver "AuditObserver" EventType_values update.

(** [initializeProcessors]: the processor list of the shared factory is
    overwritten and [initializeRegistry] runs again on the same map. *)
Definition initializeProcessors (orderProcessor notificationProcessor : EventProcessorStrategy)
    (processorFactory : ConcreteEventProcessorFactory) : ConcreteEventProcessorFactory :=
  reinitialize [orderProcessor; notificationProcessor] processorFactory.

Definition initializeObservers (auditObserver : ObserverObject Env Payload)
    (eventSubject : list (ObserverObject Env Payload)) : list (ObserverObject Env Payload) :=
  attach auditObserver eventSubject.

(** The dispatcher after [onModuleInit], from the providers of
    [CommonModule]: [new ConcreteEventProcessorFactory([])] and a new
    [EventSubject]. *)
Definition onModuleInit (batchSize batchTimeout : Z)
    (orderProcessor notificationProcessor : EventProcessorStrategy)
    (auditObserver : ObserverObject Env Payload) : EventProcessorService Env Payload :=
  mkDispatcher
    (map (@object_observer Env Payload) (initializeObservers auditObserver []))
    (mkBatchService batchSize batchTimeout
       (initializeProcessors orderProcessor notificationProcessor (newFactory []))).

(** X4. Running the registration again never removes an entry: after
    [initializeRegistry] has run over a new processor list [ps] on a
    registry that was already filled, a type that some handler of [ps]
    claims goes to the last such handler, and a type that none of them
    claims still goes to the handler it had before. *)
Theorem X4_registration_overwrites_and_never_removes
    (ps : list EventProcessorStrategy) (f : ConcreteEventProcessorFactory)
    (t : EventType) :
  createProcessor (reinitialize ps f) t
  = match lastHandlerFor ps t with
    | Some p => Some p
    | None => createProcessor f t
    end
  /\ (In t (getSupportedEventTypes f) ->
      In t (getSupportedEventTypes (reinitialize ps f)))
  /\ (forall p, In p ps -> canHandle p t = true ->
      In t (getSupportedEventTypes (reinitialize ps f))).
Proof.
  assert (G : JsMap.get t (processorRegistry (reinitialize ps f))
              = match lastHandlerFor ps t with
                | Some p => Some (fun _ : unit => p)
                | None => JsMap.get t (processorRegistry f)
                end).
  { unfold reinitialize, initializeRegistry. cbn [processorRegistry processors].
    apply get_fold_registerProcessor. }
  split; [|split].
  - unfold createProcessor. rewrite G.
    now destruct (lastHandlerFor ps t).
  - unfold getSupportedEventTypes. rewrite <- !JsMap.get_Some_keys.
    intros [v Hv]. rewrite G, Hv.
    destruct (lastHandlerFor ps t); eauto.
  - intros p Hin Hc. unfold getSupportedEventTypes. rewrite <- JsMap.get_Some_keys.
    rewrite G. destruct (lastHandlerFor ps t) as [q|] eqn:L; [eauto|].
    rewrite (proj1 (lastHandlerFor_None ps t) L p Hin) in Hc. discriminate.
Qed.

Lemma createProcessor_onModuleInit batchSize batchTimeout orderProcess notificationProcess
    auditObserver (t : EventType) :
  createProcessor
    (dispatcherFactory
       (onModuleInit batchSize batchTimeout (OrderProcessorStrategy orderProcess)
          (NotificationProcessorStrategy notificationProcess) auditObserver)) t
  = match t with
    | ORDER_CREATED | ORDER_UPDATED | ORDER_CANCELLED =>
        Some (OrderProcessorStrategy orderProcess)
    | NOTIFICATION_REQUESTED => Some (NotificationProcessorStrategy notificationProcess)
    | _ => None
    end.
Proof.
  unfold dispatcherFactory, onModuleInit, initializeProcessors.
  cbn [batchProcessor processorFactory].
  rewrite createProcessor_reinitialize.
  destruct t; reflexivity.
Qed.

(** X5. In the application as wired, the registry lists the three order
    types and NOTIFICATION_REQUESTED, in this order, and every handler
    batches, with a size of at least 25.  An event of one of these types is
    queued, [processEvent] resolves whatever the handlers and the audit
    observer do, and the fan-out after the append is one call of the audit
    observer.  An event of a payment or stock type is rejected with "No
    processor found" and changes nothing. *)
Theorem X5_wired_application_accepts_order_and_notification_events
    (batchSize batchTimeout : Z)
    (orderProcess notificationProcess : DomainEvent Payload -> Behaviour Env unit)
    (ref : nat) (update : DomainEvent Payload -> Behaviour Env unit)
    (event : DomainEvent Payload) (w : World) :
  let this := onModuleInit batchSize batchTimeout (OrderProcessorStrategy orderProcess)
                (NotificationProcessorStrategy notificationProcess)
                (mkObserverObject ref (AuditObserver update)) in
  getSupportedEventTypes (dispatcherFactory this)
  = [ORDER_CREATED; ORDER_UPDATED; ORDER_CANCELLED; NOTIFICATION_REQUESTED]
  /\ (forall eventType processor,
        createProcessor (dispatcherFactory this) eventType = Some processor ->
        supportsBatchProcessing processor = true /\ 25 <= getBatchSize processor)
  /\ match event_type event with
     | ORDER_CREATED | ORDER_UPDATED | ORDER_CANCELLED | NOTIFICATION_REQUESTED =>
         snd (processEvent uuidv4 this event w) = inr tt
         /\ exists acts,
              actions (ext (fst (processEvent uuidv4 this event w)))
              = actions (ext (fst (addEventToBatch uuidv4 (batchProcessor this) event w)))
                ++ acts
              /\ invoked acts = [LUpdate "AuditObserver" event]
     | _ =>
         processEvent uuidv4 this event w
         = (w, inl (ThrownError
                      (mkError (String.append "No processor found for event type: "
                                  (EventType_toString (event_type event))))))
     end.
Proof.
  intros this.
  split; [reflexivity|]. split.
  - intros eventType processor. unfold this.
    rewrite createProcessor_onModuleInit.
    destruct eventType; intros [= <-]; cbn; split; (reflexivity || lia).
  - assert (Hsub : eventSubject this = [AuditObserver update]) by reflexivity.
    assert (Hacc : forall processor,
               createProcessor (dispatcherFactory this) (event_type event) = Some processor ->
               supportsBatchProcessing processor = true ->
               snd (processEvent uuidv4 this event w) = inr tt
               /\ exists acts,
                    actions (ext (fst (processEvent uuidv4 this event w)))
                    = actions (ext (fst (addEventToBatch uuidv4 (batchProcessor this) event w)))
                      ++ acts
                    /\ invoked acts = [LUpdate "AuditObserver" event]).
    { intros processor Hp Hs.
      assert (E : processEvent uuidv4 this event w
                  = liftX (notify (eventSubject this) event)
                          (fst (addEventToBatch uuidv4 (batchProcessor this) event w))).
      { unfold processEvent. rewrite Hp, Hs. unfold mcatch, mbind.
        pose proof (addEventToBatch_resolves uuidv4 (batchProcessor this) event w) as Ha.
        destruct (addEventToBatch uuidv4 (batchProcessor this) event w) as [w1 r1].
        cbn [fst snd] in *. rewrite Ha.
        pose proof (liftX_notify_resolves (eventSubject this) event w1) as Hn.
        destruct (liftX (notify (eventSubject this) event) w1) as [w2 r2].
        cbn [snd] in Hn. now rewrite Hn. }
      rewrite E. split; [apply liftX_notify_resolves|].
      set (w1 := fst (addEventToBatch uuidv4 (batchProcessor this) event w)).
      destruct (notify_invoked (eventSubject this) event (ext w1)) as (acts & Ha & Hi).
      exists acts. split.
      - unfold liftX. destruct (notify (eventSubject this) event (ext w1)) as [e r].
        exact Ha.
      - rewrite Hi, Hsub. unfold interestedObservers, isInterestedIn.
        cbn [filter AuditObserver getInterestedEvents getName map].
        replace (existsb (fun t => keqb t (event_type event)) EventType_values) with true;
          [reflexivity|].
        symmetry. apply existsb_exists. exists (event_type event).
        split; [destruct (event_type event); cbn; tauto | apply keqb_refl]. }
    assert (Hrej : createProcessor (dispatcherFactory this) (event_type event) = None ->
               processEvent uuidv4 this event w
               = (w, inl (ThrownError
                            (mkError (String.append "No processor found for event type: "
                                        (EventType_toString (event_type event))))))).
    { intros Hc. unfold processEvent. rewrite Hc. reflexivity. }
    pose proof (createProcessor_onModuleInit batchSize batchTimeout orderProcess
                  notificationProcess (mkObserverObject ref (AuditObserver update))
                  (event_type event)) as Hc.
    fold this in Hc.
    destruct (event_type event);
      first [ apply Hrej; exact Hc | eapply Hacc; [exact Hc | reflexivity] ].
Qed.
End Wiring.

(** * Further properties of the batch service *)

Section BatchService.

Variable Env : Type.
Variable Payload : Type.
Variable uuidv4 : nat -> string.

Local Abbreviation World := (World Env Payload).
Local Abbreviation BatchProcessorService := (BatchProcessorService Env Payload).

(** Whether [processBatch] finds something to flush under a type. *)
Definition flushable (eventType : EventType) (w : World) : bool :=
  match JsMap.get eventType (pendingBatches w) with
  | Some batch => negb (Nat.eqb (List.length (batch_events batch)) 0)
  | None => false
  end.

Lemma processBatch_cases (this : BatchProcessorService) eventType (w : World) :
  (flushable eventType w = false /\ processBatch uuidv4 this eventType w = (w, inr tt))
  \/ (exists batch,
        flushable eventType w = true
        /\ JsMap.get eventType (pendingBatches w) = Some batch
        /\ batch_events batch <> []
        /\ processBatch uuidv4 this eventType w = flushed uuidv4 this eventType batch w).
Proof.
  unfold flushable.
  destruct (JsMap.get eventType (pendingBatches w)) as [batch|] eqn:G.
  - destruct (batch_events batch) as [|e0 es] eqn:E.
    + left. split; [reflexivity|]. now apply processBatch_empty with (batch := batch).
    + right. exists batch. rewrite E. repeat split; [discriminate|].
      apply processBatch_flush; [exact G | rewrite E; discriminate].
  - left. split; [reflexivity|]. now apply processBatch_absent.
Qed.

(** X6. A second [processBatch] for a type, right after a first one, finds
    nothing to do: it resolves and changes nothing, whatever the first one
    did.  Likewise any [processBatch] for a type with no pending batch. *)
Theorem X6_second_flush_is_a_no_op (this : BatchProcessorService)
    (eventType : EventType) (w : World) :
  processBatch uuidv4 this eventType (fst (processBatch uuidv4 this eventType w))
  = (fst (processBatch uuidv4 this eventType w), inr tt)
  /\ (JsMap.get eventType (pendingBatches w) = None ->
      forceBatchProcessing uuidv4 this (Some eventType) w = (w, inr tt)).
Proof.
  split.
  - destruct (processBatch_cases this eventType w) as [[Hf E]|(batch & Hf & G & Hne & E)];
      rewrite E; cbn [fst].
    + exact E.
    + apply processBatch_absent. rewrite flushed_pending. apply JsMap.get_delete_same.
  - intros G. cbn [forceBatchProcessing]. now apply processBatch_absent.
Qed.

(** What one [processBatch] does to the pending batch of each type and to
    the number of flushes. *)
Lemma processBatch_effect (this : BatchProcessorService) eventType (w : World) :
  (forall t,
      JsMap.get t (pendingBatches (fst (processBatch uuidv4 this eventType w)))
      = if keqb t eventType && flushable eventType w
        then None else JsMap.get t (pendingBatches w))
  /\ flushes (fst (processBatch uuidv4 this eventType w))
     = (flushes w + if flushable eventType w then 1 else 0)%nat
  /\ snd (processBatch uuidv4 this eventType w) = inr tt.
Proof.
  destruct (processBatch_cases this eventType w) as [[Hf E]|(batch & Hf & G & Hne & E)];
    rewrite E, Hf; cbn [fst snd].
  - split; [|split; [lia | reflexivity]].
    intros t. now rewrite andb_false_r.
  - split; [|split].
    + intros t. rewrite flushed_pending, andb_true_r.
      destruct (keqb t eventType) eqn:K.
      * apply keqb_eq in K. subst. apply JsMap.get_delete_same.
      * apply keqb_neq in K. now apply JsMap.get_delete_other.
    + rewrite flushed_flushes. lia.
    + rewrite <- E. apply processBatch_resolves.
Qed.

Lemma flushable_after (this : BatchProcessorService) eventType t (w : World) :
  t <> eventType ->
  flushable t (fst (processBatch uuidv4 this eventType w)) = flushable t w.
Proof.
  intros N. unfold flushable.
  destruct (processBatch_effect this eventType w) as (Hget & _).
  rewrite Hget. apply keqb_neq in N. now rewrite N.
Qed.

(** [for (const t of types) await this.processBatch(t)] over distinct types. *)
Lemma forEach_processBatch_effect (this : BatchProcessorService) (types : list EventType) :
  NoDup types ->
  forall w : World,
    (forall t,
        JsMap.get t (pendingBatches (fst (forEach types (processBatch uuidv4 this) w)))
        = if existsb (keqb t) types && flushable t w
          then None else JsMap.get t (pendingBatches w))
    /\ flushes (fst (forEach types (processBatch uuidv4 this) w))
       = (flushes w + List.length (filter (fun t => flushable t w) types))%nat
    /\ snd (forEach types (processBatch uuidv4 this) w) = inr tt.
Proof.
  induction 1 as [|t0 types Hnotin ND IH]; intros w; cbn [forEach].
  - cbn. repeat split. lia.
  - unfold mbind.
    destruct (processBatch_effect this t0 w) as (Hget & Hfl & Hres).
    pose proof (fun t => @flushable_after this t0 t w) as Hlater.
    destruct (processBatch uuidv4 this t0 w) as [w1 r]. cbn [fst snd] in *. subst r.
    destruct (IH w1) as (Hget' & Hfl' & Hres'). split; [|split; [|exact Hres']].
    + intros t. rewrite Hget'. cbn [existsb].
      destruct (keqb t t0) eqn:K.
      * apply keqb_eq in K. subst t0. cbn [orb].
        replace (existsb (keqb t) types) with false.
        2:{ symmetry. apply not_true_is_false. intros Hex.
            apply existsb_exists in Hex. destruct Hex as (x & Hx & Kx).
            apply keqb_eq in Kx. subst x. contradiction. }
        cbn [andb]. rewrite Hget, keqb_refl. cbn [andb].
        now destruct (flushable t w).
      * cbn [orb]. rewrite Hlater by (apply keqb_neq; exact K).
        rewrite Hget, K. cbn [andb]. reflexivity.
    + rewrite Hfl', Hfl. cbn [filter].
      replace (filter (fun t => flushable t w1) types)
        with (filter (fun t => flushable t w) types).
      * destruct (flushable t0 w); cbn [List.length]; lia.
      * apply filter_ext_in. intros t Hin. symmetry. apply Hlater.
        intros ->. contradiction.
Qed.

(** A batch is due when its age has reached the timeout and it holds an
    event: the test of [processTimedOutBatches]. *)
Definition due (this : BatchProcessorService) (w : World) (batch : PendingBatch Payload)
  : bool :=
  (clock (ext w) - batch_createdAt batch >=? batchTimeout this)
  && Nat.ltb 0 (List.length (batch_events batch)).

Lemma timedOutBatches_spec (this : BatchProcessorService) (w : World) t :
  JsMap.wf (pendingBatches w) ->
  existsb (keqb t) (timedOutBatches this w) = true
  <-> exists batch, JsMap.get t (pendingBatches w) = Some batch /\ due this w batch = true.
Proof.
  intros W. unfold timedOutBatches, JsMap.entries. rewrite existsb_exists. split.
  - intros (x & Hin & K). apply keqb_eq in K. subst x.
    apply in_map_iff in Hin. destruct Hin as ([t' b] & <- & Hin).
    apply filter_In in Hin. destruct Hin as [Hin Hd]. cbn [fst snd] in *.
    exists b. split; [now apply JsMap.In_get | exact Hd].
  - intros (b & G & Hd). exists t. split; [|apply keqb_refl].
    apply in_map_iff. exists (t, b). split; [reflexivity|].
    apply filter_In. split; [now apply JsMap.get_In | exact Hd].
Qed.

Lemma NoDup_map_fst_filter {A B} (f : A * B -> bool) (l : list (A * B)) :
  NoDup (map fst l) -> NoDup (map fst (filter f l)).
Proof.
  induction l as [|x l IH]; cbn; [auto|].
  intros ND. inversion ND as [|? ? Hn ND']; subst.
  destruct (f x); cbn; auto. constructor; auto.
  intros Hin. apply Hn. apply in_map_iff in Hin. destruct Hin as (y & E & Hy).
  apply filter_In in Hy. apply in_map_iff. exists y. tauto.
Qed.

Lemma filter_all {A} (f : A -> bool) (l : list A) :
  (forall x, In x l -> f x = true) -> filter f l = l.
Proof.
  induction l as [|x l IH]; cbn; intros H; [reflexivity|].
  rewrite (H x (or_introl eq_refl)). f_equal. auto.
Qed.

Lemma due_flushable (this : BatchProcessorService) (w : World) t batch :
  JsMap.get t (pendingBatches w) = Some batch ->
  due this w batch = true -> flushable t w = true.
Proof.
  intros G Hd. unfold flushable. rewrite G. unfold due in Hd.
  apply andb_true_iff in Hd. destruct Hd as [_ Hl]. apply Nat.ltb_lt in Hl.
  destruct (batch_events batch); cbn in *; [lia | reflexivity].
Qed.

(** X8. The sweep flushes exactly the pending batches that are due (age at
    least [batchTimeout], at least one event), one flush each, and leaves
    every other pending batch as it is; it resolves. *)
Theorem X8_sweep_flushes_exactly_the_due_batches
    (this : BatchProcessorService) (w : World) :
  JsMap.wf (pendingBatches w) ->
  (forall t batch,
      JsMap.get t (pendingBatches w) = Some batch ->
      JsMap.get t (pendingBatches (fst (processTimedOutBatches uuidv4 this w)))
      = if due this w batch then None else Some batch)
  /\ (forall t,
        JsMap.get t (pendingBatches w) = None ->
        JsMap.get t (pendingBatches (fst (processTimedOutBatches uuidv4 this w))) = None)
  /\ flushes (fst (processTimedOutBatches uuidv4 this w))
     = (flushes w
        + List.length (filter (fun entry => due this w (snd entry))
                              (JsMap.entries (pendingBatches w))))%nat
  /\ snd (processTimedOutBatches uuidv4 this w) = inr tt.
Proof.
  intros W.
  assert (ND : NoDup (timedOutBatches this w)).
  { unfold timedOutBatches. now apply NoDup_map_fst_filter. }
  assert (Hsame : processTimedOutBatches uuidv4 this w
                  = forEach (timedOutBatches this w) (processBatch uuidv4 this) w).
  { unfold processTimedOutBatches. cbv zeta.
    destruct (timedOutBatches this w) as [|t ts]; reflexivity. }
  rewrite Hsame.
  destruct (forEach_processBatch_effect this ND w) as (Hget & Hfl & Hres).
  split; [|split; [|split; [|exact Hres]]].
  - intros t batch G. rewrite Hget, G.
    destruct (due this w batch) eqn:Hd.
    + replace (existsb (keqb t) (timedOutBatches this w)) with true
        by (symmetry; apply timedOutBatches_spec; eauto).
      now rewrite (due_flushable this w t G Hd).
    + replace (existsb (keqb t) (timedOutBatches this w)) with false; [reflexivity|].
      symmetry. apply not_true_is_false. intros Hex.
      apply timedOutBatches_spec in Hex; [|exact W].
      destruct Hex as (b & G' & Hd'). congruence.
  - intros t G. rewrite Hget, G. now destruct (_ && _).
  - rewrite Hfl. f_equal. rewrite filter_all.
    + unfold timedOutBatches, JsMap.entries. apply length_map.
    + intros t Hin.
      assert (Hex : existsb (keqb t) (timedOutBatches this w) = true).
      { apply existsb_exists. exists t. split; [exact Hin | apply keqb_refl]. }
      apply timedOutBatches_spec in Hex; [|exact W].
      destruct Hex as (b & G & Hd). exact (due_flushable this w t G Hd).
Qed.

Lemma get_all_None {V} (m : JsMap.t EventType V) :
  (forall t, JsMap.get t m = None) -> m = [].
Proof.
  destruct m as [|[t v] m]; [reflexivity|].
  intros H. specialize (H t). cbn [JsMap.get] in H. rewrite keqb_refl in H.
  discriminate.
Qed.

(** X9. [forceBatchProcessing()] with no type drains the service: when
    every pending batch holds an event (as every batch that
    [addEventToBatch] leaves does), each is flushed once and the pending map
    is left empty. *)
Theorem X9_force_all_drains_the_pending_map
    (this : BatchProcessorService) (w : World) :
  JsMap.wf (pendingBatches w) ->
  (forall t batch, In (t, batch) (JsMap.entries (pendingBatches w)) ->
                   batch_events batch <> []) ->
  pendingBatches (fst (forceBatchProcessing uuidv4 this None w)) = []
  /\ flushes (fst (forceBatchProcessing uuidv4 this None w))
     = (flushes w + JsMap.size (pendingBatches w))%nat
  /\ snd (forceBatchProcessing uuidv4 this None w) = inr tt.
Proof.
  intros W Hne. cbn [forceBatchProcessing].
  destruct (forEach_processBatch_effect this W w) as (Hget & Hfl & Hres).
  assert (Hall : forall t, In t (JsMap.keys (pendingBatches w)) -> flushable t w = true).
  { intros t Hin. apply JsMap.get_Some_keys in Hin. destruct Hin as [b G].
    unfold flushable. rewrite G. apply JsMap.get_In in G.
    specialize (Hne t b G). destruct (batch_events b); [congruence | reflexivity]. }
  split; [|split; [|exact Hres]].
  - apply get_all_None. intros t. rewrite Hget.
    destruct (JsMap.get t (pendingBatches w)) as [b|] eqn:G.
    + assert (Hin : In t (JsMap.keys (pendingBatches w)))
        by (apply JsMap.get_Some_keys; eauto).
      rewrite (Hall t Hin), andb_true_r.
      replace (existsb (keqb t) (JsMap.keys (pendingBatches w))) with true; [reflexivity|].
      symmetry. apply existsb_exists. exists t. split; [exact Hin | apply keqb_refl].
    + now destruct (_ && _).
  - rewrite Hfl, (filter_all _ _ Hall). unfold JsMap.keys, JsMap.size.
    now rewrite length_map.
Qed.

(** Every pending batch belongs to a handler that supports batching, and
    its threshold is the batch size of that handler. *)
Definition handled (this : BatchProcessorService)
    (m : JsMap.t EventType (PendingBatch Payload)) : Prop :=
  forall t b,
    JsMap.get t m = Some b ->
    exists p,
      createProcessor (processorFactory this) t = Some p
      /\ supportsBatchProcessing p = true
      /\ batch_maxSize b = getBatchSize p.

Lemma handled_remains (this : BatchProcessorService) m m' :
  remains m m' -> handled this m -> handled this m'.
Proof. intros R H t b G. apply H, R, G. Qed.

Lemma addEventToBatch_handled (this : BatchProcessorService) event (w : World) :
  handled this (pendingBatches w) ->
  handled this (pendingBatches (fst (addEventToBatch uuidv4 this event w))).
Proof.
  intros Hw.
  destruct (createProcessor (processorFactory this) (event_type event)) as [p|] eqn:Hp.
  2:{ rewrite addEventToBatch_skips by (intros q Hq; congruence). exact Hw. }
  destruct (supportsBatchProcessing p) eqn:Hs.
  2:{ rewrite addEventToBatch_skips by (intros q Hq; congruence). exact Hw. }
  rewrite (@addEventToBatch_batching _ _ uuidv4 this event w p Hp Hs). cbv zeta.
  set (cur := currentBatch p (event_type event) w).
  assert (Hset : handled this (JsMap.set (event_type event) (extend cur [event])
                                         (pendingBatches w))).
  { intros t b G. destruct (EventType_eq_dec t (event_type event)) as [->|N].
    - rewrite JsMap.get_set_same in G. injection G as <-. exists p.
      split; [exact Hp|]. split; [exact Hs|].
      cbn [extend batch_maxSize]. unfold cur, currentBatch.
      destruct (JsMap.get (event_type event) (pendingBatches w)) as [b0|] eqn:G0;
        [|reflexivity].
      destruct (Hw _ _ G0) as (q & Hq & _ & Hm). congruence.
    - rewrite JsMap.get_set_other in G by exact N. now apply Hw. }
  match goal with |- context [if ?c then _ else _] => destruct c end.
  - rewrite flushed_pending. unfold withPending, set_pendingBatches.
    cbn [pendingBatches]. eapply handled_remains; [apply remains_delete | exact Hset].
  - exact Hset.
Qed.

Lemma runOperation_handled (this : BatchProcessorService) op (w : World) :
  handled this (pendingBatches w) ->
  handled this (pendingBatches (fst (runOperation uuidv4 this op w))).
Proof.
  intros Hw. destruct op as [event| |[t|]]; cbn [runOperation].
  - now apply addEventToBatch_handled.
  - unfold processTimedOutBatches. cbv zeta.
    destruct (Nat.ltb 0 (List.length (timedOutBatches this w))); [|exact Hw].
    eapply handled_remains; [|exact Hw].
    apply (forEach_processBatch_keeps uuidv4 this (timedOutBatches this w) w).
  - cbn [forceBatchProcessing].
    eapply handled_remains; [|exact Hw]. apply (processBatch_keeps uuidv4 this t w).
  - cbn [forceBatchProcessing].
    eapply handled_remains; [|exact Hw].
    apply (forEach_processBatch_keeps uuidv4 this (JsMap.keys (pendingBatches w)) w).
Qed.

Lemma runSchedule_handled (this : BatchProcessorService) schedule :
  forall w : World,
    handled this (pendingBatches w) ->
    handled this (pendingBatches (runSchedule uuidv4 this schedule w)).
Proof.
  induction schedule as [|[dt op] schedule IH]; intros w Hw; cbn [runSchedule];
    [exact Hw|].
  apply IH, runOperation_handled. now rewrite pendingBatches_elapse.
Qed.

(** X7. After any history of public operations from the service as
    constructed, every pending batch is of a type whose handler supports
    batching, and its threshold is the batch size of that handler; so the
    [try] block of a flush of that batch finds the handler and starts the
    tasks: the "No processor found" branch of [processBatch] is not taken
    by a flush that the public operations lead to. *)
Theorem X7_pending_batches_have_a_batching_handler
    (this : BatchProcessorService) (e0 : Ext Env Payload)
    (schedule : list (N * PublicOperation Payload))
    (eventType : EventType) (batch : PendingBatch Payload) :
  JsMap.get eventType
            (pendingBatches (runSchedule uuidv4 this schedule (initialWorld e0)))
  = Some batch ->
  exists processor,
    createProcessor (processorFactory this) eventType = Some processor
    /\ supportsBatchProcessing processor = true
    /\ batch_maxSize batch = getBatchSize processor
    /\ runBatch this eventType (batch_events batch)
       = processAll processor (batch_events batch).
Proof.
  intros G.
  assert (H0 : handled this (pendingBatches (initialWorld e0)))
    by (intros t b G0; discriminate G0).
  destruct (@runSchedule_handled this schedule (initialWorld e0) H0 _ _ G)
    as (p & Hp & Hs & Hm).
  exists p. split; [exact Hp|]. split; [exact Hs|]. split; [exact Hm|].
  unfold runBatch. now rewrite Hp.
Qed.

(** X10. Whatever [processEvent] does with an event, the pending batches
    of the other event types stay as they are; so do they under
    [processBatch] for one type. *)
Theorem X10_other_types_are_left_alone
    (dispatcher : EventProcessorService Env Payload) (event : DomainEvent Payload)
    (eventType other : EventType) (w : World) :
  (other <> event_type event ->
   JsMap.get other (pendingBatches (fst (processEvent uuidv4 dispatcher event w)))
   = JsMap.get other (pendingBatches w))
  /\ (other <> eventType ->
      JsMap.get other
        (pendingBatches (fst (processBatch uuidv4 (batchProcessor dispatcher) eventType w)))
      = JsMap.get other (pendingBatches w)).
Proof.
  split; intros N.
  - unfold processEvent, mcatch.
    destruct (createProcessor (dispatcherFactory dispatcher) (event_type event))
      as [processor|] eqn:Hp; [|reflexivity].
    unfold mbind.
    assert (Hstep : JsMap.get other
              (pendingBatches
                 (fst ((if supportsBatchProcessing processor
                        then addEventToBatch uuidv4 (batchProcessor dispatcher) event
                        else liftX (process_call processor event)) w)))
            = JsMap.get other (pendingBatches w)).
    { destruct (supportsBatchProcessing processor) eqn:Hs.
      - unfold dispatcherFactory in Hp.
        rewrite (@addEventToBatch_batching _ _ uuidv4 (batchProcessor dispatcher)
                   event w processor Hp Hs).
        cbv zeta.
        match goal with |- context [if ?c then _ else _] => destruct c end.
        + rewrite flushed_pending. unfold withPending, set_pendingBatches.
          cbn [pendingBatches].
          rewrite JsMap.get_delete_other by exact N.
          now apply JsMap.get_set_other.
        + unfold withPending, set_pendingBatches. cbn [fst pendingBatches].
          now apply JsMap.get_set_other.
      - unfold liftX. now destruct (process_call processor event (ext w)). }
    destruct ((if supportsBatchProcessing processor
               then addEventToBatch uuidv4 (batchProcessor dispatcher) event
               else liftX (process_call processor event)) w) as [w1 [t|u]];
      cbn [fst] in Hstep.
    + destruct (message_of t); exact Hstep.
    + unfold liftX.
      destruct (notify (eventSubject dispatcher) event (ext w1)) as [e2 [t|u2]];
        cbn [fst pendingBatches]; [destruct (message_of t)|]; exact Hstep.
  - destruct (processBatch_effect (batchProcessor dispatcher) eventType w) as (Hget & _).
    rewrite Hget. apply keqb_neq in N. now rewrite N.
Qed.

(** ** Long runs of appends *)

Lemma forEach_app {A} (xs ys : list A) (body : A -> M Env Payload unit) (w : World) :
  snd (forEach xs body w) = inr tt ->
  forEach (xs ++ ys) body w = forEach ys body (fst (forEach xs body w)).
Proof.
  revert w. induction xs as [|x xs IH]; intros w; cbn [forEach app].
  - reflexivity.
  - unfold mbind. destruct (body x w) as [w1 [t|u]]; cbn [fst snd].
    + discriminate.
    + apply IH.
Qed.

(** Appends that stay below the threshold only queue. *)
Lemma forEach_add_queues (this : BatchProcessorService) eventType processor :
  createProcessor (processorFactory this) eventType = Some processor ->
  supportsBatchProcessing processor = true ->
  forall events (w : World),
    events <> [] ->
    Forall (fun e => event_type e = eventType) events ->
    Z.of_nat (List.length (batch_events (currentBatch processor eventType w))
              + List.length events)
    < batch_maxSize (currentBatch processor eventType w) ->
    forEach events (addEventToBatch uuidv4 this) w
    = (withPending eventType (extend (currentBatch processor eventType w) events) w,
       inr tt).
Proof.
  intros Hp Hs. induction events as [|e es IH]; intros w Hne Hty Hmax; [congruence|].
  inversion Hty as [|? ? He Hty']; subst. cbn [forEach].
  unfold mbind at 1.
  rewrite (@addEventToBatch_batching _ _ uuidv4 this e w processor Hp Hs). cbv zeta.
  set (b := currentBatch processor (event_type e) w) in *.
  cbn [extend batch_events batch_maxSize]. rewrite length_app. cbn [List.length] in *.
  replace (Z.of_nat (List.length (batch_events b) + 1) >=? batch_maxSize b) with false
    by (symmetry; rewrite Z.geb_leb; apply Z.leb_gt; lia).
  fold (extend b [e]).
  destruct es as [|e' es].
  - reflexivity.
  - rewrite IH; [| discriminate | exact Hty' |].
    + rewrite !currentBatch_withPending, extend_extend, withPending_twice. reflexivity.
    + rewrite currentBatch_withPending. cbn [extend batch_events batch_maxSize].
      rewrite length_app. cbn [List.length] in *. lia.
Qed.

Definition pendingEvents (eventType : EventType) (w : World)
  : option (list (DomainEvent Payload)) :=
  option_map (@batch_events Payload) (JsMap.get eventType (pendingBatches w)).

(** With no batch pending and at least [m] events to append, the first
    [m] appends end in a flush and the others go on from there. *)
Lemma forEach_add_first_batch (this : BatchProcessorService) eventType processor (m : nat) :
  createProcessor (processorFactory this) eventType = Some processor ->
  supportsBatchProcessing processor = true ->
  getBatchSize processor = Z.of_nat m ->
  (1 <= m)%nat ->
  forall events (w : World),
    (m <= List.length events)%nat ->
    Forall (fun e => event_type e = eventType) events ->
    JsMap.get eventType (pendingBatches w) = None ->
    forEach events (addEventToBatch uuidv4 this) w
    = forEach (skipn m events) (addEventToBatch uuidv4 this)
        (fst (flushed uuidv4 this eventType
                (mkPendingBatch eventType (firstn m events) (clock (ext w)) (Z.of_nat m))
                (withPending eventType
                   (mkPendingBatch eventType (firstn m events) (clock (ext w)) (Z.of_nat m))
                   w))).
Proof.
  intros Hp Hs Hsize Hm events w Hge Hty Hnone.
  assert (Hcur : currentBatch processor eventType w
                 = mkPendingBatch eventType [] (clock (ext w)) (Z.of_nat m)).
  { unfold currentBatch. now rewrite Hnone, Hsize. }
  assert (Hfirst : List.length (firstn m events) = m)
    by (rewrite length_firstn; lia).
  assert (Hfill : forEach (firstn m events) (addEventToBatch uuidv4 this) w
                  = flushed uuidv4 this eventType
                      (extend (currentBatch processor eventType w) (firstn m events))
                      (withPending eventType
                         (extend (currentBatch processor eventType w) (firstn m events))
                         w)).
  { apply forEach_add_fills; auto.
    - intros E. rewrite E in Hfirst. cbn in Hfirst. lia.
    - rewrite <- (firstn_skipn m events) in Hty. now apply Forall_app in Hty.
    - rewrite Hcur. cbn [batch_events batch_maxSize List.length Nat.add].
      now rewrite Hfirst. }
  rewrite Hcur in Hfill. unfold extend in Hfill.
  cbn [batch_eventType batch_events batch_createdAt batch_maxSize app] in Hfill.
  rewrite <- (firstn_skipn m events) at 1. rewrite forEach_app.
  - now rewrite Hfill.
  - rewrite Hfill. unfold flushed. cbn [snd]. apply batchResult_runBatch.
Qed.

Lemma bulk_appends (this : BatchProcessorService) eventType processor (m : nat) :
  createProcessor (processorFactory this) eventType = Some processor ->
  supportsBatchProcessing processor = true ->
  getBatchSize processor = Z.of_nat m ->
  (1 <= m)%nat ->
  forall (n : nat) events (w : World),
    List.length events = n ->
    Forall (fun e => event_type e = eventType) events ->
    JsMap.get eventType (pendingBatches w) = None ->
    flushes (fst (forEach events (addEventToBatch uuidv4 this) w))
    = (flushes w + n / m)%nat
    /\ pendingEvents eventType (fst (forEach events (addEventToBatch uuidv4 this) w))
       = (if Nat.eqb (n mod m) 0 then None else Some (skipn (n - n mod m) events))
    /\ snd (forEach events (addEventToBatch uuidv4 this) w) = inr tt.
Proof.
  intros Hp Hs Hsize Hm.
  induction n as [n IH] using lt_wf_ind. intros events w Hlen Hty Hnone.
  assert (Hcur : currentBatch processor eventType w
                 = mkPendingBatch eventType [] (clock (ext w)) (Z.of_nat m)).
  { unfold currentBatch. now rewrite Hnone, Hsize. }
  destruct (Nat.lt_ge_cases n m) as [Hlt|Hge].
  - (* fewer events than a batch holds: they are queued *)
    rewrite (Nat.div_small n m Hlt), (Nat.mod_small n m Hlt), Nat.sub_diag, Nat.add_0_r.
    destruct events as [|e es].
    + cbn in Hlen. subst n. cbn. unfold pendingEvents. rewrite Hnone. now repeat split.
    + rewrite (@forEach_add_queues this eventType processor Hp Hs (e :: es) w);
        [| discriminate | exact Hty
         | rewrite Hcur; cbn [batch_events batch_maxSize]; cbn [List.length] in *; lia].
      rewrite Hcur. unfold pendingEvents, withPending, set_pendingBatches, extend.
      cbn [fst snd pendingBatches flushes uuidCalls].
      rewrite JsMap.get_set_same. cbn [option_map batch_events app skipn].
      replace (Nat.eqb n 0) with false by (symmetry; apply Nat.eqb_neq; cbn in Hlen; lia).
      now repeat split.
  - (* at least a batch: the first [m] events fill one, which is flushed *)
    rewrite (@forEach_add_first_batch this eventType processor m Hp Hs Hsize Hm events w
               ltac:(lia) Hty Hnone).
    set (w1 := fst (flushed uuidv4 this eventType _ _)).
    assert (Hnone1 : JsMap.get eventType (pendingBatches w1) = None).
    { unfold w1. rewrite flushed_pending. apply JsMap.get_delete_same. }
    assert (Hfl1 : flushes w1 = S (flushes w))
      by (unfold w1; now rewrite flushed_flushes).
    destruct (IH (n - m)%nat ltac:(lia) (skipn m events) w1) as (Hf & Hpe & Hr).
    + rewrite length_skipn. lia.
    + rewrite <- (firstn_skipn m events) in Hty. now apply Forall_app in Hty.
    + exact Hnone1.
    + assert (Hdiv : (n / m = S ((n - m) / m))%nat).
      { replace n with ((n - m) + 1 * m)%nat at 1 by lia.
        rewrite Nat.div_add by lia. lia. }
      assert (Hmod : (n mod m = (n - m) mod m)%nat).
      { replace n with ((n - m) + 1 * m)%nat at 1 by lia.
        now rewrite Nat.Div0.mod_add. }
      rewrite Hf, Hpe, Hfl1, Hdiv, Hmod. split; [lia|]. split; [|exact Hr].
      destruct (Nat.eqb ((n - m) mod m) 0); [reflexivity|].
      rewrite skipn_skipn. do 2 f_equal.
      pose proof (Nat.Div0.mod_le (n - m) m). lia.
Qed.

(** X11. Let the handler of a type support batching with batch size
    [m >= 1].  Appending [n] events of the type, starting with no pending
    batch for it, flushes [n / m] times; afterwards the last [n mod m]
    events are pending, in the order they were appended, and none when [m]
    divides [n]. *)
Theorem X11_bulk_appends_flush_every_full_batch
    (this : BatchProcessorService) (eventType : EventType)
    (processor : EventProcessorStrategy Env Payload) (m : nat)
    (events : list (DomainEvent Payload)) (w : World) :
  createProcessor (processorFactory this) eventType = Some processor ->
  supportsBatchProcessing processor = true ->
  getBatchSize processor = Z.of_nat m ->
  (1 <= m)%nat ->
  Forall (fun e => event_type e = eventType) events ->
  JsMap.get eventType (pendingBatches w) = None ->
  flushes (fst (forEach events (addEventToBatch uuidv4 this) w))
  = (flushes w + List.length events / m)%nat
  /\ pendingEvents eventType (fst (forEach events (addEventToBatch uuidv4 this) w))
     = (if Nat.eqb (List.length events mod m) 0 then None
        else Some (skipn (List.length events - List.length events mod m) events))
  /\ snd (forEach events (addEventToBatch uuidv4 this) w) = inr tt.
Proof.
  intros Hp Hs Hsize Hm Hty Hnone.
  exact (@bulk_appends this eventType processor m Hp Hs Hsize Hm
           (List.length events) events w eq_refl Hty Hnone).
Qed.

(** ** Statistics across an append *)

Definition pendingEventCount (m : JsMap.t EventType (PendingBatch Payload)) : nat :=
  list_sum (map (fun entry => List.length (batch_events (snd entry))) m).

Lemma totalPendingEvents_count (w : World) :
  JsMap.wf (pendingBatches w) ->
  stats_totalPendingEvents (getBatchStatistics w) = pendingEventCount (pendingBatches w).
Proof.
  intros W. unfold getBatchStatistics.
  rewrite (@stats_fold Payload (JsMap.entries (pendingBatches w)) JsMap.empty 0 W)
    by (intros entry _; reflexivity).
  cbn [stats_totalPendingEvents Nat.add]. unfold pendingEventCount, JsMap.entries.
  rewrite map_map. reflexivity.
Qed.

Lemma pendingEventCount_set eventType b (m : JsMap.t EventType (PendingBatch Payload)) :
  (pendingEventCount (JsMap.set eventType b m)
   + match JsMap.get eventType m with
     | Some old => List.length (batch_events old)
     | None => 0
     end
   = pendingEventCount m + List.length (batch_events b))%nat.
Proof.
  unfold pendingEventCount.
  induction m as [|[t0 b0] m IH]; cbn [JsMap.set JsMap.get map list_sum fold_right].
  - unfold list_sum. cbn [map snd fold_right]. lia.
  - destruct (keqb eventType t0) eqn:K; cbn [map snd list_sum fold_right].
    + unfold list_sum. cbn [fold_right]. lia.
    + unfold list_sum in *. cbn [fold_right snd]. lia.
Qed.

Lemma pendingEventCount_delete eventType (m : JsMap.t EventType (PendingBatch Payload)) :
  JsMap.wf m ->
  (pendingEventCount (JsMap.delete eventType m)
   + match JsMap.get eventType m with
     | Some old => List.length (batch_events old)
     | None => 0
     end
   = pendingEventCount m)%nat.
Proof.
  unfold pendingEventCount, JsMap.wf, JsMap.keys.
  induction m as [|[t0 b0] m IH]; cbn [JsMap.delete filter JsMap.get map]; intros ND.
  - reflexivity.
  - inversion ND as [|? ? Hnotin ND']; subst. cbn [fst].
    destruct (keqb eventType t0) eqn:K; cbn [negb map snd].
    + apply keqb_eq in K. subst t0.
      fold (JsMap.delete eventType m).
      rewrite JsMap.delete_absent by (apply JsMap.get_None_keys; exact Hnotin).
      unfold list_sum. cbn [fold_right]. lia.
    + fold (JsMap.delete eventType m). specialize (IH ND').
      unfold list_sum in *. cbn [fold_right]. lia.
Qed.

(** X12. An append of an event with a batching handler moves
    [totalPendingEvents] as follows: up by one when the batch stays below
    its threshold; down by the number of events that were waiting in the
    batch when the append fills it (they and the new event are flushed). *)
Theorem X12_total_pending_events_follows_appends
    (this : BatchProcessorService) (event : DomainEvent Payload)
    (processor : EventProcessorStrategy Env Payload) (w : World) :
  createProcessor (processorFactory this) (event_type event) = Some processor ->
  supportsBatchProcessing processor = true ->
  JsMap.wf (pendingBatches w) ->
  (Z.of_nat (List.length (batch_events (currentBatch processor (event_type event) w)) + 1)
   < batch_maxSize (currentBatch processor (event_type event) w) ->
   stats_totalPendingEvents
     (getBatchStatistics (fst (addEventToBatch uuidv4 this event w)))
   = S (stats_totalPendingEvents (getBatchStatistics w)))
  /\ (batch_maxSize (currentBatch processor (event_type event) w)
      <= Z.of_nat (List.length
                     (batch_events (currentBatch processor (event_type event) w)) + 1) ->
      (stats_totalPendingEvents
         (getBatchStatistics (fst (addEventToBatch uuidv4 this event w)))
       + List.length (batch_events (currentBatch processor (event_type event) w))
       = stats_totalPendingEvents (getBatchStatistics w))%nat).
Proof.
  intros Hp Hs W.
  assert (W' : JsMap.wf (pendingBatches (fst (addEventToBatch uuidv4 this event w))))
    by now apply addEventToBatch_wf.
  rewrite (@totalPendingEvents_count w W), (@totalPendingEvents_count _ W').
  rewrite (@addEventToBatch_batching _ _ uuidv4 this event w processor Hp Hs).
  cbv zeta. cbn [extend batch_events batch_maxSize]. rewrite length_app.
  cbn [List.length].
  set (cur := currentBatch processor (event_type event) w).
  pose proof (pendingEventCount_set (event_type event) (extend cur [event])
                (pendingBatches w)) as Hset.
  cbn [extend batch_events] in Hset. rewrite length_app in Hset. cbn [List.length] in Hset.
  assert (Hcur : match JsMap.get (event_type event) (pendingBatches w) with
                 | Some old => List.length (batch_events old)
                 | None => 0%nat
                 end = List.length (batch_events cur)).
  { unfold cur, currentBatch.
    now destruct (JsMap.get (event_type event) (pendingBatches w)). }
  rewrite Hcur in Hset. fold (extend cur [event]) in Hset.
  split; intros Hcmp.
  - replace (Z.of_nat (List.length (batch_events cur) + 1) >=? batch_maxSize cur)
      with false by (symmetry; rewrite Z.geb_leb; apply Z.leb_gt; lia).
    unfold withPending, set_pendingBatches. cbn [fst pendingBatches].
    fold (extend cur [event]). lia.
  - replace (Z.of_nat (List.length (batch_events cur) + 1) >=? batch_maxSize cur)
      with true by (symmetry; apply Z.geb_le; lia).
    rewrite flushed_pending. unfold withPending, set_pendingBatches.
    cbn [pendingBatches]. fold (extend cur [event]).
    pose proof (@pendingEventCount_delete (event_type event)
                  (JsMap.set (event_type event) (extend cur [event]) (pendingBatches w))
                  (JsMap.wf_set _ _ W)) as Hdel.
    rewrite JsMap.get_set_same in Hdel.
    cbn [extend batch_events] in Hdel. rewrite length_app in Hdel.
    cbn [List.length] in Hdel. fold (extend cur [event]) in Hdel. lia.
Qed.

(** ** Jobs in the active map *)

(** A job as a caller finds it once the flush that made it has returned. *)
Definition job_ok (key : string) (job : BatchJob Payload) : Prop :=
  job_id job = key
  /\ job_batchSize job = List.length (job_events job)
  /\ (1 <= job_batchSize job)%nat
  /\ ((job_status job = COMPLETED /\ job_error job = None)
      \/ (job_status job = FAILED /\ exists msg, job_error job = Some msg))
  /\ exists startedAt completedAt,
       job_startedAt job = Some startedAt
       /\ job_completedAt job = Some completedAt
       /\ job_createdAt job <= startedAt
       /\ startedAt <= completedAt.

Definition service_ok (w : World) : Prop :=
  (forall t b, In (t, b) (JsMap.entries (pendingBatches w)) ->
               batch_createdAt b <= clock (ext w))
  /\ JsMap.wf (activeBatches w)
  /\ Forall (fun entry => job_ok (fst entry) (snd entry))
            (JsMap.entries (activeBatches w)).

Lemma wf_fold_delete {V} (ids : list (Millis * string)) :
  forall m : JsMap.t string V,
    JsMap.wf m -> JsMap.wf (fold_left (fun m tm => JsMap.delete (snd tm) m) ids m).
Proof.
  induction ids as [|tm ids IH]; intros m Hm; cbn [fold_left]; [exact Hm|].
  apply IH. now apply JsMap.wf_delete.
Qed.

Lemma wf_with_ext (e : Ext Env Payload) (w : World) :
  JsMap.wf (activeBatches w) -> JsMap.wf (activeBatches (with_ext e w)).
Proof. intros Hw. unfold with_ext, runTimers. cbn [activeBatches]. now apply wf_fold_delete. Qed.

Lemma flushed_wf (this : BatchProcessorService) eventType batch (w : World) :
  JsMap.wf (activeBatches w) ->
  JsMap.wf (activeBatches (fst (flushed uuidv4 this eventType batch w))).
Proof.
  intros Hw. rewrite flushed_resumed.
  cbn [setTimeout_delete set_activeBatches activeBatches].
  assert (Hres : JsMap.wf (activeBatches (resumed uuidv4 this eventType batch w))).
  { unfold resumed.
    destruct (createProcessor (processorFactory this) eventType);
      [apply wf_with_ext|]; cbn [started activeBatches]; now apply JsMap.wf_set. }
  unfold finishJob.
  destruct (JsMap.get _ _); [now apply JsMap.wf_set | exact Hres].
Qed.

Lemma Forall_set {V} (P : string * V -> Prop) k v (m : JsMap.t string V) :
  Forall P m -> P (k, v) -> Forall P (JsMap.set k v m).
Proof.
  intros Hm Hkv. apply Forall_forall. intros x Hin.
  apply JsMap.In_set in Hin. destruct Hin as [->|Hin]; [exact Hkv|].
  rewrite Forall_forall in Hm. auto.
Qed.

Lemma finishedJob_ok (this : BatchProcessorService) eventType batch (e : Ext Env Payload) id :
  batch_events batch <> [] ->
  batch_createdAt batch <= clock e ->
  job_ok id (finishedJob (startedJob id eventType batch (clock e))
               (snd (runBatch this eventType (batch_events batch) e))
               (clock (fst (runBatch this eventType (batch_events batch) e)))).
Proof.
  intros Hne Hcr.
  pose proof (@clock_runBatch _ _ this eventType (batch_events batch) e) as Hclock.
  destruct (snd (runBatch this eventType (batch_events batch) e))
    as [t|u] eqn:Er.
  - destruct (runBatch_thrown _ _ _ _ Er) as [err ->].
    unfold job_ok, finishedJob, startedJob. cbn.
    repeat split; auto.
    + destruct (batch_events batch); [congruence | cbn; lia].
    + right. split; [reflexivity | eauto].
    + eexists _, _. repeat split; auto.
  - unfold job_ok, finishedJob, startedJob. cbn.
    repeat split; auto.
    + destruct (batch_events batch); [congruence | cbn; lia].
    + eexists _, _. repeat split; auto.
Qed.

Lemma flushed_ok (this : BatchProcessorService) eventType batch (w : World) :
  service_ok w ->
  batch_events batch <> [] ->
  batch_createdAt batch <= clock (ext w) ->
  service_ok (fst (flushed uuidv4 this eventType batch w)).
Proof.
  intros (Hp & Hwf & Ha) Hne Hcr. unfold service_ok.
  rewrite flushed_pending, flushed_ext.
  pose proof (@clock_runBatch _ _ this eventType (batch_events batch) (ext w))
    as Hclock.
  split; [|split].
  - intros t b Hin. apply JsMap.In_delete in Hin. destruct Hin as [Hin _].
    specialize (Hp t b Hin). lia.
  - now apply flushed_wf.
  - apply Forall_forall. intros [id job] Hin. cbn [fst snd].
    apply JsMap.In_get in Hin; [|now apply flushed_wf].
    apply flushed_active in Hin. destruct Hin as [(-> & ->)|(_ & G)].
    + now apply finishedJob_ok.
    + apply JsMap.get_In in G. rewrite Forall_forall in Ha. apply (Ha _ G).
Qed.

Lemma processBatch_ok (this : BatchProcessorService) eventType (w : World) :
  service_ok w -> service_ok (fst (processBatch uuidv4 this eventType w)).
Proof.
  intros Hok.
  destruct (processBatch_cases this eventType w) as [[_ E]|(batch & _ & G & Hne & E)];
    rewrite E; [exact Hok|].
  apply flushed_ok; auto.
  destruct Hok as [Hp _]. apply (Hp eventType). now apply JsMap.get_In.
Qed.

Lemma forEach_processBatch_ok (this : BatchProcessorService) types :
  forall w : World,
    service_ok w -> service_ok (fst (forEach types (processBatch uuidv4 this) w)).
Proof.
  induction types as [|t types IH]; intros w Hok; cbn [forEach]; [exact Hok|].
  unfold mbind.
  pose proof (processBatch_ok this t Hok) as H1.
  pose proof (@processBatch_resolves _ _ uuidv4 this t w) as Hr.
  destruct (processBatch uuidv4 this t w) as [w1 r]. cbn [fst snd] in *. subst r.
  now apply IH.
Qed.

Lemma addEventToBatch_ok (this : BatchProcessorService) event (w : World) :
  service_ok w -> service_ok (fst (addEventToBatch uuidv4 this event w)).
Proof.
  intros Hok.
  destruct (createProcessor (processorFactory this) (event_type event)) as [p|] eqn:Hp.
  2:{ rewrite addEventToBatch_skips by (intros q Hq; congruence). exact Hok. }
  destruct (supportsBatchProcessing p) eqn:Hs.
  2:{ rewrite addEventToBatch_skips by (intros q Hq; congruence). exact Hok. }
  rewrite (@addEventToBatch_batching _ _ uuidv4 this event w p Hp Hs). cbv zeta.
  set (cur := currentBatch p (event_type event) w).
  assert (Hcur : batch_createdAt cur <= clock (ext w)).
  { unfold cur, currentBatch.
    destruct (JsMap.get (event_type event) (pendingBatches w)) as [b|] eqn:G.
    - destruct Hok as [Hpend _]. apply (Hpend (event_type event)). now apply JsMap.get_In.
    - cbn. lia. }
  assert (Hok' : service_ok (withPending (event_type event) (extend cur [event]) w)).
  { destruct Hok as [Hpend Hact]. split; [|exact Hact].
    intros t b Hin. unfold withPending, set_pendingBatches in Hin.
    cbn [pendingBatches ext] in *. apply JsMap.In_set in Hin.
    destruct Hin as [[= -> ->]|Hin]; [exact Hcur | eauto]. }
  match goal with |- context [if ?c then _ else _] => destruct c end; [|exact Hok'].
  apply flushed_ok; auto.
  cbn. intros E. apply app_eq_nil in E. destruct E; discriminate.
Qed.

Lemma Forall_fold_delete {V} (P : string * V -> Prop) (ids : list (Millis * string)) :
  forall m : JsMap.t string V,
    Forall P m -> Forall P (fold_left (fun m tm => JsMap.delete (snd tm) m) ids m).
Proof.
  induction ids as [|tm ids IH]; intros m Hm; cbn [fold_left]; [exact Hm|].
  apply IH. apply Forall_forall. intros x Hin. apply JsMap.In_delete in Hin.
  rewrite Forall_forall in Hm. apply Hm. tauto.
Qed.

Lemma elapse_ok dt (w : World) : service_ok w -> service_ok (elapse dt w).
Proof.
  intros (Hp & Hwf & Ha). unfold elapse, with_ext, runTimers, service_ok.
  cbn [ext pendingBatches activeBatches clock timers]. split; [|split].
  - intros t b Hin. specialize (Hp t b Hin). lia.
  - now apply wf_fold_delete.
  - now apply Forall_fold_delete.
Qed.

Lemma runOperation_ok (this : BatchProcessorService) op (w : World) :
  service_ok w -> service_ok (fst (runOperation uuidv4 this op w)).
Proof.
  intros Hok. destruct op as [event| |[t|]]; cbn [runOperation].
  - now apply addEventToBatch_ok.
  - unfold processTimedOutBatches. cbv zeta.
    destruct (Nat.ltb 0 (List.length (timedOutBatches this w)));
      [now apply forEach_processBatch_ok | exact Hok].
  - cbn [forceBatchProcessing]. now apply processBatch_ok.
  - cbn [forceBatchProcessing]. now apply forEach_processBatch_ok.
Qed.

(** X13. After any history of public operations, every job in the active
    map is stored under its own id, is COMPLETED with no error or FAILED
    with an error message, never PENDING or PROCESSING, holds at least
    one event with [batchSize = events.length], and has
    [createdAt <= startedAt <= completedAt]. *)
Theorem X13_active_jobs_are_terminal_and_well_formed
    (this : BatchProcessorService) (e0 : Ext Env Payload)
    (schedule : list (N * PublicOperation Payload)) :
  Forall (fun entry => job_ok (fst entry) (snd entry))
         (JsMap.entries
            (activeBatches (runSchedule uuidv4 this schedule (initialWorld e0)))).
Proof.
  assert (Hall : forall w : World,
             service_ok w -> service_ok (runSchedule uuidv4 this schedule w)).
  { induction schedule as [|[dt op] schedule IH]; intros w Hok; cbn [runSchedule];
      [exact Hok|].
    apply IH, runOperation_ok, elapse_ok, Hok. }
  apply Hall. split; [intros t b [] | split; constructor].
Qed.

(** ** Retention of finished jobs *)

Lemma timers_with_ext (e : Ext Env Payload) (w : World) :
  timers (with_ext e w) = filter (fun tm => negb (fst tm <=? clock e)) (timers w).
Proof. reflexivity. Qed.

Lemma timers_resumed (this : BatchProcessorService) eventType batch (w : World) tm :
  In tm (timers (resumed uuidv4 this eventType batch w)) -> In tm (timers w).
Proof.
  unfold resumed. destruct (createProcessor (processorFactory this) eventType).
  - rewrite timers_with_ext. intros Hin. apply filter_In in Hin. apply Hin.
  - auto.
Qed.

(** The evictions after a flush: those that were scheduled and are not yet
    due, and that of the new job, 60 seconds after the instant the flush
    settles at. *)
Lemma flushed_timers (this : BatchProcessorService) eventType batch (w : World) :
  timers (fst (flushed uuidv4 this eventType batch w))
  = timers (resumed uuidv4 this eventType batch w)
    ++ [(clock (ext (fst (flushed uuidv4 this eventType batch w))) + 60000,
         uuidv4 (uuidCalls w))].
Proof.
  rewrite flushed_ext, flushed_resumed.
  cbn [setTimeout_delete set_activeBatches timers ext]. now rewrite ext_resumed.
Qed.

(** X14. A job stays in the active map for 60 seconds after its flush
    settles and is gone afterwards: provided no eviction already scheduled
    bears the same id, the job is found after a wait of [dt] milliseconds
    exactly when [dt < 60000]. *)
Theorem X14_finished_job_is_kept_for_one_minute
    (this : BatchProcessorService) (eventType : EventType) (w : World)
    (batch : PendingBatch Payload) (dt : N) :
  JsMap.get eventType (pendingBatches w) = Some batch ->
  batch_events batch <> [] ->
  ~ In (uuidv4 (uuidCalls w)) (map snd (timers w)) ->
  JsMap.has (uuidv4 (uuidCalls w))
            (activeBatches (elapse dt (fst (processBatch uuidv4 this eventType w))))
  = (Z.of_N dt <? 60000).
Proof.
  intros G Hne Hfresh.
  rewrite (@processBatch_flush _ _ uuidv4 this eventType w batch G Hne).
  unfold elapse, JsMap.has. rewrite get_with_ext. cbn [clock].
  rewrite (@flushed_job _ _ uuidv4 this eventType batch w Hfresh), flushed_timers.
  set (id := uuidv4 (uuidCalls w)) in *.
  set (c := clock (ext (fst (flushed uuidv4 this eventType batch w)))).
  rewrite filter_app, existsb_app. cbn [filter fst snd].
  match goal with |- context [if ?old || _ then _ else _] =>
    assert (Hold : old = false)
  end.
  { apply not_true_is_false. intros Hex. apply existsb_exists in Hex.
    destruct Hex as (tm & Hin & K). apply keqb_eq in K.
    apply filter_In in Hin. destruct Hin as [Hin _]. apply timers_resumed in Hin.
    apply Hfresh. rewrite K. now apply in_map. }
  rewrite Hold. cbn [orb].
  destruct (c + 60000 <=? c + Z.of_N dt) eqn:L; cbn [existsb snd orb].
  - rewrite keqb_refl. cbn. apply Z.leb_le in L. symmetry. apply Z.ltb_ge. lia.
  - apply Z.leb_gt in L. symmetry. apply Z.ltb_lt. lia.
Qed.
End BatchService.

(** * What a retried operation costs
      (common/strategies/event-processor.strategy.ts,
       modules/batch/services/batch-processor.service.ts) *)

Section RetryCost.

Variable Env : Type.
Variable Payload : Type.

Local Abbreviation X := (X Env Payload).
Local Abbreviation Ext := (Ext Env Payload).
Local Abbreviation Action := (Action Payload).

(** The time spent in the sleeps of a trace. *)
Definition total_sleep (acts : list Action) : Z := fold_right Z.add 0 (sleeps acts).

(** Every run of [operation] starts at most [calls] external calls and
    sleeps at most [slept] milliseconds. *)
Definition within {T} (calls : nat) (slept : Z) (operation : X T) : Prop :=
  forall w : Ext,
    exists acts,
      actions (fst (operation w)) = actions w ++ acts
      /\ (invocations acts <= calls)%nat
      /\ total_sleep acts <= slept.

(** Every run of [operation] rejects with [e], after exactly the external
    calls [calls], in this order, and [slept] milliseconds of sleep. *)
Definition fails_with {T} (calls : list (Label Payload)) (slept : Z) (e : Error)
    (operation : X T) : Prop :=
  forall w : Ext,
    exists acts,
      actions (fst (operation w)) = actions w ++ acts
      /\ invoked acts = calls
      /\ total_sleep acts = slept
      /\ snd (operation w) = inl (ThrownError e).

Definition backoff_total (delay : Z) (first n : nat) : Z :=
  fold_right Z.add 0 (backoffs delay first n).

Lemma total_sleep_app a b : total_sleep (a ++ b) = total_sleep a + total_sleep b.
Proof.
  unfold total_sleep. rewrite sleeps_app.
  induction (sleeps a) as [|x l IH]; cbn [app fold_right]; lia.
Qed.

Lemma backoff_total_S delay first n :
  backoff_total delay first (S n)
  = delay * 2 ^ Z.of_nat (first - 1) + backoff_total delay (S first) n.
Proof. reflexivity. Qed.

Lemma backoff_total_nonneg delay : 0 <= delay ->
  forall n first, 0 <= backoff_total delay first n.
Proof.
  intros Hd. induction n as [|n IH]; intros first.
  - cbv. discriminate.
  - rewrite backoff_total_S. specialize (IH (S first)).
    assert (0 <= 2 ^ Z.of_nat (first - 1)) by (apply Z.pow_nonneg; lia). nia.
Qed.

(** [delay * (2^0 + ... + 2^(n-1)) = delay * (2^n - 1)] *)
Lemma backoff_total_closed delay : forall n first, (1 <= first)%nat ->
  backoff_total delay first n
  = delay * 2 ^ Z.of_nat (first - 1) * (2 ^ Z.of_nat n - 1).
Proof.
  induction n as [|n IH]; intros first Hf.
  - cbn. lia.
  - rewrite backoff_total_S, IH by lia.
    replace (Z.of_nat (S first - 1)) with (Z.of_nat (first - 1) + 1) by lia.
    replace (Z.of_nat (S n)) with (Z.of_nat n + 1) by lia.
    rewrite !Z.pow_add_r by lia. ring.
Qed.

Lemma xthrow_actions {T} (t : Thrown) (w : Ext) :
  actions (fst (@xthrow Env Payload T t w)) = actions w ++ [].
Proof. now rewrite app_nil_r. Qed.

Lemma within_call {T} (l : Label Payload) (b : Behaviour Env T) : within 1 0 (call l b).
Proof.
  intros w.
  destruct (call_cases l b w) as [(v & w' & -> & Ha)|(e & w' & -> & Ha)];
    eexists; (split; [exact Ha|]); split; cbv; (lia || discriminate).
Qed.

Lemma within_weaken {T} (operation : X T) calls slept calls' slept' :
  within calls slept operation -> (calls <= calls')%nat -> slept <= slept' ->
  within calls' slept' operation.
Proof.
  intros H Hc Hs w. destruct (H w) as (acts & Ha & Hi & Ht).
  exists acts. split; [exact Ha|]. split; lia.
Qed.

Lemma retry_loop_within {T} (operation : X T) (calls : nat) (slept : Z)
    (maxAttempts : nat) (delay : Z) :
  within calls slept operation -> 0 <= slept -> 0 <= delay ->
  forall iterations attempt lastError,
    (attempt + iterations = maxAttempts + 1)%nat ->
    within (iterations * calls)
           (Z.of_nat iterations * slept + backoff_total delay attempt (iterations - 1))
           (retry_loop operation maxAttempts delay iterations attempt lastError).
Proof.
  intros Hop Hs Hd.
  induction iterations as [|i IH]; intros attempt lastError Hsum w.
  - exists []. cbn [retry_loop]. split; [apply xthrow_actions|]. split; cbv; (lia || discriminate).
  - cbn [retry_loop]. unfold xcatch.
    destruct (Hop w) as (acts1 & Ha1 & Hi1 & Ht1).
    pose proof (backoff_total_nonneg Hd (S i - 1) attempt) as Hnn.
    destruct (operation w) as [w1 [error|v]]; cbn [fst] in Ha1.
    + destruct (message_of error) as [typeError|msg].
      * exists acts1. split; [exact Ha1|]. split; [nia|nia].
      * unfold xbind.
        destruct i as [|i].
        -- assert (Hlt : Nat.ltb attempt maxAttempts = false) by (apply Nat.ltb_ge; lia).
           rewrite Hlt. cbn [xret retry_loop xthrow fst].
           exists acts1. split; [exact Ha1|]. split; [nia|nia].
        -- assert (Hlt : Nat.ltb attempt maxAttempts = true) by (apply Nat.ltb_lt; lia).
           rewrite Hlt.
           pose proof (actions_sleep (delay * 2 ^ Z.of_nat (attempt - 1)) w1) as Hsl.
           destruct (sleep (delay * 2 ^ Z.of_nat (attempt - 1)) w1) as [w2 [t|[]]] eqn:Es;
             [unfold sleep in Es; discriminate|].
           cbn [fst] in Hsl.
           destruct (IH (S attempt) error ltac:(lia) w2) as (acts2 & Ha2 & Hi2 & Ht2).
           exists (acts1 ++ [Slept (delay * 2 ^ Z.of_nat (attempt - 1))] ++ acts2).
           split; [|split].
           ++ rewrite Ha2, Hsl, Ha1. now rewrite <- !app_assoc.
           ++ rewrite !invocations_app.
              replace (invocations [Slept (delay * 2 ^ Z.of_nat (attempt - 1))]) with 0%nat
                by reflexivity.
              nia.
           ++ rewrite !total_sleep_app.
              replace (total_sleep [Slept (delay * 2 ^ Z.of_nat (attempt - 1))])
                with (delay * 2 ^ Z.of_nat (attempt - 1)) by (cbv [total_sleep sleeps fold_right]; lia).
              replace (S (S i) - 1)%nat with (S i) by lia.
              rewrite backoff_total_S.
              replace (S i - 1)%nat with i in Ht2 by lia.
              nia.
    + exists acts1. split; [exact Ha1|]. split; [nia|nia].
Qed.

Lemma retry_loop_fails_with {T} (operation : X T) (calls : list (Label Payload))
    (slept : Z) (e : Error) (maxAttempts : nat) (delay : Z) :
  fails_with calls slept e operation ->
  forall iterations attempt lastError,
    (1 <= iterations)%nat ->
    (attempt + iterations = maxAttempts + 1)%nat ->
    fails_with (List.concat (repeat calls iterations))
               (Z.of_nat iterations * slept + backoff_total delay attempt (iterations - 1)) e
               (retry_loop operation maxAttempts delay iterations attempt lastError).
Proof.
  intros Hop.
  induction iterations as [|i IH]; intros attempt lastError Hpos Hsum w; [lia|].
  cbn [retry_loop]. unfold xcatch.
  destruct (Hop w) as (acts1 & Ha1 & Hi1 & Ht1 & Hr1).
  destruct (operation w) as [w1 r1]; cbn [fst snd] in Ha1, Hr1. subst r1.
  cbn [message_of]. unfold xbind.
  destruct i as [|i].
  - assert (Hlt : Nat.ltb attempt maxAttempts = false) by (apply Nat.ltb_ge; lia).
    rewrite Hlt. cbn [xret retry_loop xthrow fst snd].
    exists acts1. split; [exact Ha1|].
    split; [cbn [repeat List.concat]; now rewrite app_nil_r|]. split; [|reflexivity].
    cbn [Nat.sub]. unfold backoff_total, backoffs. cbn [seq map fold_right]. lia.
  - assert (Hlt : Nat.ltb attempt maxAttempts = true) by (apply Nat.ltb_lt; lia).
    rewrite Hlt.
    pose proof (actions_sleep (delay * 2 ^ Z.of_nat (attempt - 1)) w1) as Hsl.
    destruct (sleep (delay * 2 ^ Z.of_nat (attempt - 1)) w1) as [w2 [t|[]]] eqn:Es;
      [unfold sleep in Es; discriminate|].
    cbn [fst] in Hsl.
    destruct (IH (S attempt) (ThrownError e) ltac:(lia) ltac:(lia) w2)
      as (acts2 & Ha2 & Hi2 & Ht2 & Hr2).
    exists (acts1 ++ [Slept (delay * 2 ^ Z.of_nat (attempt - 1))] ++ acts2).
    split; [|split; [|split]].
    + rewrite Ha2, Hsl, Ha1. now rewrite <- !app_assoc.
    + rewrite !invoked_app, Hi1, Hi2. reflexivity.
    + rewrite !total_sleep_app.
      replace (total_sleep [Slept (delay * 2 ^ Z.of_nat (attempt - 1))])
        with (delay * 2 ^ Z.of_nat (attempt - 1)) by (cbv [total_sleep sleeps fold_right]; lia).
      replace (S (S i) - 1)%nat with (S i) by lia.
      rewrite backoff_total_S.
      replace (S i - 1)%nat with i in Ht2 by lia.
      nia.
    + exact Hr2.
Qed.

Lemma retry_within {T} (operation : X T) calls slept maxAttempts delay :
  within calls slept operation -> 0 <= slept -> 0 <= delay ->
  within (maxAttempts * calls)
         (Z.of_nat maxAttempts * slept + delay * (2 ^ Z.of_nat (maxAttempts - 1) - 1))
         (retry operation maxAttempts delay).
Proof.
  intros Hop Hs Hd. unfold retry.
  pose proof (@retry_loop_within T operation calls slept maxAttempts delay Hop Hs Hd
                maxAttempts 1%nat ThrownUndefined ltac:(lia)) as H.
  rewrite backoff_total_closed in H by lia.
  cbn [Nat.sub Z.of_nat] in H. rewrite Z.pow_0_r, Z.mul_1_r in H. exact H.
Qed.

Lemma retry_fails_with {T} (operation : X T) calls slept e maxAttempts delay :
  fails_with calls slept e operation -> (1 <= maxAttempts)%nat ->
  fails_with (List.concat (repeat calls maxAttempts))
             (Z.of_nat maxAttempts * slept + delay * (2 ^ Z.of_nat (maxAttempts - 1) - 1)) e
             (retry operation maxAttempts delay).
Proof.
  intros Hop HM. unfold retry.
  pose proof (@retry_loop_fails_with T operation calls slept e maxAttempts delay Hop
                maxAttempts 1%nat ThrownUndefined HM ltac:(lia)) as H.
  rewrite backoff_total_closed in H by lia.
  cbn [Nat.sub Z.of_nat] in H. rewrite Z.pow_0_r, Z.mul_1_r in H. exact H.
Qed.

Lemma within_ext {T} (operation operation' : X T) calls slept :
  (forall w, operation w = operation' w) ->
  within calls slept operation -> within calls slept operation'.
Proof. intros E H w. rewrite <- E. apply H. Qed.

Lemma fails_with_ext {T} (operation operation' : X T) calls slept e :
  (forall w, operation w = operation' w) ->
  fails_with calls slept e operation -> fails_with calls slept e operation'.
Proof. intros E H w. rewrite <- E. apply H. Qed.

Lemma processEventWithRetry_retry {T} (processFn : DomainEvent Payload -> X T)
    (event : DomainEvent Payload) (maxRetries : nat) (w : Ext) :
  retry (processFn event) maxRetries 1000 w
  = processEventWithRetry processFn event maxRetries w.
Proof.
  unfold processEventWithRetry, retry. symmetry.
  apply processEventWithRetry_loop_retry_loop.
Qed.

Lemma within_xret {T} (v : T) : within 0 0 (@xret Env Payload T v).
Proof. intros w. exists []. cbn. rewrite app_nil_r. repeat split; cbv; (lia || discriminate). Qed.

Lemma within_xthrow {T} (t : Thrown) : within 0 0 (@xthrow Env Payload T t).
Proof. intros w. exists []. cbn. rewrite app_nil_r. repeat split; cbv; (lia || discriminate). Qed.

Lemma within_sleep (ms : Z) : within 0 ms (@sleep Env Payload ms).
Proof.
  intros w. exists [Slept ms]. split; [apply actions_sleep|].
  split; [cbv; lia | cbv [total_sleep sleeps fold_right]; lia].
Qed.

Lemma within_xbind {A B} (c : X A) (k : A -> X B) calls slept calls' slept' :
  within calls slept c -> (forall v, within calls' slept' (k v)) ->
  0 <= slept' ->
  within (calls + calls') (slept + slept') (xbind c k).
Proof.
  intros Hc Hk Hs w. unfold xbind.
  destruct (Hc w) as (acts1 & Ha1 & Hi1 & Ht1).
  destruct (c w) as [w1 [t|v]]; cbn [fst] in Ha1.
  - exists acts1. split; [exact Ha1|]. split; lia.
  - destruct (Hk v w1) as (acts2 & Ha2 & Hi2 & Ht2).
    exists (acts1 ++ acts2). split; [|split].
    + rewrite Ha2, Ha1. now rewrite app_assoc.
    + rewrite invocations_app. lia.
    + rewrite total_sleep_app. lia.
Qed.

Lemma within_xcatch {A} (c : X A) (h : Thrown -> X A) calls slept calls' slept' :
  within calls slept c -> (forall t, within calls' slept' (h t)) ->
  0 <= slept' ->
  within (calls + calls') (slept + slept') (xcatch c h).
Proof.
  intros Hc Hh Hs w. unfold xcatch.
  destruct (Hc w) as (acts1 & Ha1 & Hi1 & Ht1).
  destruct (c w) as [w1 [t|v]]; cbn [fst] in Ha1.
  - destruct (Hh t w1) as (acts2 & Ha2 & Hi2 & Ht2).
    exists (acts1 ++ acts2). split; [|split].
    + rewrite Ha2, Ha1. now rewrite app_assoc.
    + rewrite invocations_app. lia.
    + rewrite total_sleep_app. lia.
  - exists acts1. split; [exact Ha1|]. split; lia.
Qed.

(** X15. The cost of [retry] is bounded by the cost of the operation: if
    a run of the operation starts at most [calls] external calls and
    sleeps at most [slept] ms, then [retry(operation, maxAttempts, delay)]
    starts at most [maxAttempts * calls] calls and sleeps at most
    [maxAttempts * slept + delay * (2^(maxAttempts-1) - 1)] ms.  The bound
    is reached when every run of the operation fails the same way: the
    operation's calls are then repeated [maxAttempts] times and [retry]
    rejects with the operation's error. *)
Theorem X15_retry_cost_is_bounded {T} (operation : X T) (calls : nat) (slept : Z)
    (maxAttempts : nat) (delay : Z) :
  within calls slept operation -> 0 <= slept -> 0 <= delay ->
  within (maxAttempts * calls)
         (Z.of_nat maxAttempts * slept + delay * (2 ^ Z.of_nat (maxAttempts - 1) - 1))
         (retry operation maxAttempts delay)
  /\ (forall labels e,
        fails_with labels slept e operation -> (1 <= maxAttempts)%nat ->
        fails_with (List.concat (repeat labels maxAttempts))
                   (Z.of_nat maxAttempts * slept
                    + delay * (2 ^ Z.of_nat (maxAttempts - 1) - 1)) e
                   (retry operation maxAttempts delay)).
Proof.
  intros Hop Hs Hd. split.
  - now apply retry_within.
  - intros labels e Hf HM. now apply retry_fails_with.
Qed.
End RetryCost.

(** * The order handler (modules/order/strategies/order-processor.strategy.ts) *)

Section OrderStrategy.

Variable Env : Type.
Variable Payload : Type.

Local Abbreviation X := (X Env Payload).
Local Abbreviation DomainEvent := (DomainEvent Payload).

(** The entities, and what the handler reads of a payload and writes to an
    order. *)
Variable Order : Type.
Variable OrderItem : Type.
Variable orderId : Payload -> string.
(** [orderRepository.create({ id, customerId, totalAmount, status: PENDING })] *)
Variable createOrder : Payload -> Order.
(** [payload.items.map(item => orderItemRepository.create({ orderId: savedOrder.id, ... }))] *)
Variable createOrderItems : Order -> Payload -> list OrderItem.
(** [order.status = payload.status; order.updatedAt = new Date()] *)
Variable updateStatus : Payload -> Millis -> Order -> Order.
(** [order.status = CANCELLED; order.updatedAt = new Date()] *)
Variable cancel : Millis -> Order -> Order.

(** The two repositories. *)
Variable orderRepository_save : Order -> Behaviour Env Order.
Variable orderRepository_findOne : string -> Behaviour Env (option Order).
Variable orderItemRepository_save : list OrderItem -> Behaviour Env unit.

Definition orderNotFound (event : DomainEvent) : Error :=
  mkError (String.append "Order "
             (String.append (orderId (event_payload event)) " not found")).

(** The arrow functions handed to [this.retry]. *)
Definition createOrder_operation (event : DomainEvent) : X unit :=
  xbind (call (LOperation "orderRepository.save")
              (orderRepository_save (createOrder (event_payload event))))
        (fun savedOrder =>
           xbind (call (LOperation "orderItemRepository.save")
                       (orderItemRepository_save
                          (createOrderItems savedOrder (event_payload event))))
                 (fun _ => xret tt)).

Definition updateOrder_operation (event : DomainEvent) : X unit :=
  xbind (call (LOperation "orderRepository.findOne")
              (orderRepository_findOne (orderId (event_payload event))))
        (fun found =>
           match found with
           | None => xthrow (ThrownError (orderNotFound event))
           | Some order =>
               fun w =>
                 xbind (call (LOperation "orderRepository.save")
                             (orderRepository_save
                                (updateStatus (event_payload event) (clock w) order)))
                       (fun _ => xret tt) w
           end).

Definition cancelOrder_operation (event : DomainEvent) : X unit :=
  xbind (call (LOperation "orderRepository.findOne")
              (orderRepository_findOne (orderId (event_payload event))))
        (fun found =>
           match found with
           | None => xthrow (ThrownError (orderNotFound event))
           | Some order =>
               fun w =>
                 xbind (call (LOperation "orderRepository.save")
                             (orderRepository_save (cancel (clock w) order)))
                       (fun _ => xret tt) w
           end).

Definition handleOrderCreated (event : DomainEvent) : X unit :=
  retry (createOrder_operation event) 3 1000.

Definition handleOrderUpdated (event : DomainEvent) : X unit :=
  retry (updateOrder_operation event) 3 1000.

Definition handleOrderCancelled (event : DomainEvent) : X unit :=
  retry (cancelOrder_operation event) 3 1000.

Definition unsupportedEventType (eventType : EventType) : Error :=
  mkError (String.append "Unsupported event type: " (EventType_toString eventType)).

(** [OrderProcessorStrategy.process] *)
Definition OrderProcessorStrategy_process (event : DomainEvent) : X unit :=
  match event_type event with
  | ORDER_CREATED => handleOrderCreated event
  | ORDER_UPDATED => handleOrderUpdated event
  | ORDER_CANCELLED => handleOrderCancelled event
  | _ => xthrow (ThrownError (unsupportedEventType (event_type event)))
  end.

Lemma within_createOrder_operation event : within 2 0 (createOrder_operation event).
Proof.
  unfold createOrder_operation.
  apply (@within_xbind _ _ _ _ _ _ 1 0 1 0); [apply within_call | | lia].
  intros savedOrder.
  apply (@within_xbind _ _ _ _ _ _ 1 0 0 0); [apply within_call | | lia].
  intros _. apply within_xret.
Qed.

Lemma within_found_save (update : Millis -> Order) :
  within 1 0 (fun w : Ext Env Payload =>
                xbind (call (LOperation "orderRepository.save")
                            (orderRepository_save (update (clock w))))
                      (fun _ => xret tt) w).
Proof.
  intros w.
  apply (@within_xbind _ _ _ _ _ _ 1 0 0 0); [apply within_call | | lia].
  intros _. apply within_xret.
Qed.

Lemma within_updateOrder_operation event : within 2 0 (updateOrder_operation event).
Proof.
  unfold updateOrder_operation.
  apply (@within_xbind _ _ _ _ _ _ 1 0 1 0); [apply within_call | | lia].
  intros [order|].
  - apply (within_found_save
             (fun t => updateStatus (event_payload event) t order)).
  - apply (@within_weaken _ _ _ _ 0%nat 0); [apply within_xthrow | lia | lia].
Qed.

Lemma within_cancelOrder_operation event : within 2 0 (cancelOrder_operation event).
Proof.
  unfold cancelOrder_operation.
  apply (@within_xbind _ _ _ _ _ _ 1 0 1 0); [apply within_call | | lia].
  intros [order|].
  - apply (within_found_save (fun t => cancel t order)).
  - apply (@within_weaken _ _ _ _ 0%nat 0); [apply within_xthrow | lia | lia].
Qed.

Lemma within_OrderProcessorStrategy_process event :
  within 6 3000 (OrderProcessorStrategy_process event).
Proof.
  unfold OrderProcessorStrategy_process.
  pose proof (@retry_within _ _ _ _ 2%nat 0 3%nat 1000
                (within_createOrder_operation event) ltac:(lia) ltac:(lia)) as Hc.
  pose proof (@retry_within _ _ _ _ 2%nat 0 3%nat 1000
                (within_updateOrder_operation event) ltac:(lia) ltac:(lia)) as Hu.
  pose proof (@retry_within _ _ _ _ 2%nat 0 3%nat 1000
                (within_cancelOrder_operation event) ltac:(lia) ltac:(lia)) as Hx.
  destruct (event_type event);
    first [ exact Hc | exact Hu | exact Hx
          | apply (@within_weaken _ _ _ _ 0%nat 0); [apply within_xthrow | lia | lia] ].
Qed.

Lemma fails_with_xthrow {T} (e : Error) :
  fails_with [] 0 e (@xthrow Env Payload T (ThrownError e)).
Proof.
  intros w. exists []. cbn. rewrite app_nil_r. repeat split.
Qed.

(** The order is not there whenever it is looked up. *)
Definition neverFound (id : string) : Prop :=
  forall (t : Millis) (s : Env),
    exists s' d, orderRepository_findOne id t s = (s', d, inr None).

Lemma fails_with_not_found event (save : Order -> X unit) :
  neverFound (orderId (event_payload event)) ->
  fails_with [LOperation "orderRepository.findOne"] 0 (orderNotFound event)
    (xbind (call (LOperation "orderRepository.findOne")
                 (orderRepository_findOne (orderId (event_payload event))))
           (fun found =>
              match found with
              | None => xthrow (ThrownError (orderNotFound event))
              | Some order => save order
              end)).
Proof.
  intros Hnf w. unfold xbind, call.
  destruct (Hnf (clock w) (env w)) as (s' & d & ->).
  cbn [xthrow fst snd].
  exists [Invoked (LOperation "orderRepository.findOne");
          Resolved (LOperation "orderRepository.findOne")].
  split; [|split; [|split]]; [|reflexivity..].
  unfold actions. cbn [trace]. rewrite map_app. reflexivity.
Qed.

(** X16. One event in a batch costs at most 18 repository calls and 12
    seconds of back-off: [processEventWithRetry] runs the order handler's
    [process] up to 3 times, and [process] runs its operation, of at most 2
    repository calls, up to 3 times.  When the order of an ORDER_UPDATED or
    ORDER_CANCELLED event is never found, the look-up is made 9 times,
    nothing is saved, 12 seconds are slept and the task rejects with "Order
    <id> not found".  An event of a type that is none of the three order
    types costs no call and 3 seconds, and rejects with "Unsupported event
    type: <type>". *)
Theorem X16_one_batched_order_event_costs_at_most_nine_runs (event : DomainEvent) :
  within 18 12000 (processEventWithRetry OrderProcessorStrategy_process event 3)
  /\ (event_type event = ORDER_UPDATED \/ event_type event = ORDER_CANCELLED ->
      neverFound (orderId (event_payload event)) ->
      fails_with (repeat (LOperation "orderRepository.findOne") 9) 12000
                 (orderNotFound event)
                 (processEventWithRetry OrderProcessorStrategy_process event 3))
  /\ (event_type event <> ORDER_CREATED ->
      event_type event <> ORDER_UPDATED ->
      event_type event <> ORDER_CANCELLED ->
      fails_with [] 3000 (unsupportedEventType (event_type event))
                 (processEventWithRetry OrderProcessorStrategy_process event 3)).
Proof.
  split; [|split].
  - eapply within_ext; [intros w; apply processEventWithRetry_retry|].
    exact (@retry_within _ _ _ _ 6%nat 3000 3%nat 1000
             (within_OrderProcessorStrategy_process event) ltac:(lia) ltac:(lia)).
  - intros Ht Hnf.
    eapply fails_with_ext; [intros w; apply processEventWithRetry_retry|].
    assert (Hin : fails_with (List.concat (repeat [LOperation "orderRepository.findOne"] 3))
                    (Z.of_nat 3 * 0 + 1000 * (2 ^ Z.of_nat (3 - 1) - 1))
                    (orderNotFound event) (OrderProcessorStrategy_process event)).
    { unfold OrderProcessorStrategy_process.
      destruct Ht as [-> | ->].
      - apply retry_fails_with; [|lia].
        apply (fails_with_not_found event
                 (fun order w =>
                    xbind (call (LOperation "orderRepository.save")
                                (orderRepository_save
                                   (updateStatus (event_payload event) (clock w) order)))
                          (fun _ => xret tt) w) Hnf).
      - apply retry_fails_with; [|lia].
        apply (fails_with_not_found event
                 (fun order w =>
                    xbind (call (LOperation "orderRepository.save")
                                (orderRepository_save (cancel (clock w) order)))
                          (fun _ => xret tt) w) Hnf). }
    exact (@retry_fails_with _ _ _ _ _ _ _ 3%nat 1000 Hin ltac:(lia)).
  - intros N1 N2 N3.
    eapply fails_with_ext; [intros w; apply processEventWithRetry_retry|].
    assert (Hin : fails_with [] 0 (unsupportedEventType (event_type event))
                    (OrderProcessorStrategy_process event)).
    { unfold OrderProcessorStrategy_process.
      destruct (event_type event); try congruence; apply fails_with_xthrow. }
    exact (@retry_fails_with _ _ _ _ _ _ _ 3%nat 1000 Hin ltac:(lia)).
Qed.
End OrderStrategy.

(** * The audit observer (modules/audit/observers/audit.observer.ts) *)

Module EventStatus.
Inductive t : Type := PENDING | PROCESSING | COMPLETED | FAILED | RETRY | DEAD_LETTER.
End EventStatus.

Section Audit.

Variable Env : Type.
Variable Payload : Type.

Local Abbreviation X := (X Env Payload).
Local Abbreviation Ext := (Ext Env Payload).
Local Abbreviation DomainEvent := (DomainEvent Payload).

(** The [payload] column: the event, or [{ error, originalEvent }]. *)
Inductive AuditPayload : Type :=
| AuditedEvent (event : DomainEvent)
| AuditFailure (error : string) (originalEvent : DomainEvent).

(** What [processedEventRepository.create] is given. *)
Record ProcessedEvent : Type := mkProcessedEvent {
  processed_eventId : string;
  processed_eventType : EventType;
  processed_payload : AuditPayload;
  processed_status : EventStatus.t;
  processed_processingAttempts : Z;
  processed_processedAt : option Millis;
  processed_lastAttemptAt : option Millis
}.

Variable processedEventRepository_save : ProcessedEvent -> Behaviour Env ProcessedEvent.

Definition processedEvent (event : DomainEvent) (now : Millis) : ProcessedEvent :=
  mkProcessedEvent (event_id event) (event_type event) (AuditedEvent event)
                   EventStatus.COMPLETED 1 (Some now) None.

Definition failedEvent (event : DomainEvent) (error : string) (now : Millis)
  : ProcessedEvent :=
  mkProcessedEvent (event_id event) (event_type event) (AuditFailure error event)
                   EventStatus.FAILED 1 None (Some now).

Definition saveRecord (record : ProcessedEvent) : X unit :=
  xbind (call (LOperation "processedEventRepository.save")
              (processedEventRepository_save record))
        (fun _ => xret tt).

(** [AuditObserver.update]: both [catch] blocks read the [message] of
    what they caught; the inner one does not rethrow, the outer one
    rethrows the error of the first [save]. *)
Definition AuditObserver_update (event : DomainEvent) : X unit :=
  xcatch
    (fun w => saveRecord (processedEvent event (clock w)) w)
    (fun error =>
       match message_of error with
       | inl typeError => xthrow (ThrownError typeError)
       | inr errorMessage =>
           xbind
             (xcatch
                (fun w => saveRecord (failedEvent event errorMessage (clock w)) w)
                (fun auditError =>
                   match message_of auditError with
                   | inl typeError => xthrow (ThrownError typeError)
                   | inr _ => xret tt
                   end))
             (fun _ => xthrow error)
       end).

Lemma saveRecord_cases (record : ProcessedEvent) (w : Ext) :
  (exists w', saveRecord record w = (w', inr tt)
              /\ actions w'
                 = actions w ++ [Invoked (LOperation "processedEventRepository.save");
                                 Resolved (LOperation "processedEventRepository.save")])
  \/ (exists e w', saveRecord record w = (w', inl (ThrownError e))
                   /\ actions w'
                      = actions w ++ [Invoked (LOperation "processedEventRepository.save");
                                      Rejected (LOperation "processedEventRepository.save") e]).
Proof.
  unfold saveRecord, xbind.
  destruct (call_cases (LOperation "processedEventRepository.save")
              (processedEventRepository_save record) w)
    as [(v & w' & -> & Ha)|(e & w' & -> & Ha)];
    [left; exists w' | right; exists e, w']; (split; [reflexivity | exact Ha]).
Qed.

(** X17. [AuditObserver.update] settles as its first [save] does.  When
    that [save] resolves, nothing else is done.  When it rejects with an
    error, a second [save] is made, of a FAILED record that carries the
    error's message and the event, stamped at the instant the first one
    failed; [update] then rejects with the first error, also when the
    second [save] fails.  There are never more than two calls and no sleep. *)
Theorem X17_audit_update_settles_as_its_first_save
    (event : DomainEvent) (w : Ext) :
  match saveRecord (processedEvent event (clock w)) w with
  | (w1, inr _) => AuditObserver_update event w = (w1, inr tt)
  | (w1, inl error) =>
      exists e,
        error = ThrownError e
        /\ AuditObserver_update event w
           = (fst (saveRecord (failedEvent event (message e) (clock w1)) w1),
              inl (ThrownError e))
  end
  /\ within 2 0 (AuditObserver_update event).
Proof.
  split.
  - unfold AuditObserver_update, xcatch.
    destruct (saveRecord_cases (processedEvent event (clock w)) w)
      as [(w1 & -> & _)|(e & w1 & -> & _)]; [reflexivity|].
    exists e. split; [reflexivity|].
    cbn [message_of]. unfold xbind.
    destruct (saveRecord_cases (failedEvent event (message e) (clock w1)) w1)
      as [(w2 & -> & _)|(e2 & w2 & -> & _)]; reflexivity.
  - assert (Hsave : forall record : Millis -> ProcessedEvent,
               within 1 0 (fun w0 : Ext => saveRecord (record (clock w0)) w0)).
    { intros record w0. unfold saveRecord.
      apply (@within_xbind _ _ _ _ _ _ 1 0 0 0); [apply within_call | | lia].
      intros _. apply within_xret. }
    unfold AuditObserver_update.
    apply (@within_xcatch _ _ _ _ _ 1 0 1 0);
      [apply (Hsave (processedEvent event)) | | lia].
    intros error. destruct (message_of error) as [typeError|errorMessage].
    + apply (@within_weaken _ _ _ _ 0%nat 0); [apply within_xthrow | lia | lia].
    + apply (@within_xbind _ _ _ _ _ _ 1 0 0 0); [| intros _; apply within_xthrow | lia].
      apply (@within_xcatch _ _ _ _ _ 1 0 0 0);
        [apply (Hsave (failedEvent event errorMessage)) | | lia].
      intros auditError. destruct (message_of auditError);
        [apply within_xthrow | apply within_xret].
Qed.

End Audit.

(** * The notification handler
      (modules/notification/strategies/notification-processor.strategy.ts) *)

Section NotificationStrategy.

Variable Env : Type.
Variable Payload : Type.

Local Abbreviation X := (X Env Payload).
Local Abbreviation Ext := (Ext Env Payload).
Local Abbreviation DomainEvent := (DomainEvent Payload).

(** The notification record, and what the handler reads of it and writes
    to it. *)
Variable Notification : Type.
Variable notification_channel : Notification -> string.
(** [notificationRepository.create({ recipientId, ..., status: 'PENDING' })] *)
Variable createNotification : Payload -> Notification.
(** [notification.status = 'SENT'; notification.sentAt = new Date()] *)
Variable markSent : Millis -> Notification -> Notification.
(** [notification.status = 'FAILED'] *)
Variable markFailed : Notification -> Notification.

Variable notificationRepository_save : Notification -> Behaviour Env Notification.

Definition unsupportedChannel (channel : string) : Error :=
  mkError (String.append "Unsupported notification channel: " channel).

(** The [switch] of [sendNotification]: the delay of [sendEmail], [sendSMS]
    or [sendPushNotification]; no case for any other channel. *)
Definition sendDelay (channel : string) : option Z :=
  if String.eqb channel "EMAIL" then Some 100
  else if String.eqb channel "SMS" then Some 50
  else if String.eqb channel "PUSH" then Some 30
  else None.

(** The [try] block of [sendNotification].  It works on the notification
    object in place, so it is run with the object and hands it back as it
    leaves it, whether it completes or throws. *)
Definition trySend (notification : Notification) (w : Ext)
  : Ext * Notification * Result unit :=
  match sendDelay (notification_channel notification) with
  | None =>
      (w, notification,
       inl (ThrownError (unsupportedChannel (notification_channel notification))))
  | Some ms =>
      let w1 := fst (sleep ms w) in
      let sent := markSent (clock w1) notification in
      let '(w2, r) := call (LOperation "notificationRepository.save")
                           (notificationRepository_save sent) w1 in
      (w2, sent, match r with inl t => inl t | inr _ => inr tt end)
  end.

(** [sendNotification]: the [catch] block reads [error.message], marks the
    object FAILED, saves it and rethrows. *)
Definition sendNotification (notification : Notification) : X unit :=
  fun w =>
    let '(w1, notification1, r) := trySend notification w in
    match r with
    | inr _ => (w1, inr tt)
    | inl error =>
        match message_of error with
        | inl typeError => (w1, inl (ThrownError typeError))
        | inr _ =>
            xbind (call (LOperation "notificationRepository.save")
                        (notificationRepository_save (markFailed notification1)))
                  (fun _ => xthrow error) w1
        end
    end.

(** The arrow function that [handleNotificationRequested] hands to
    [this.retry]. *)
Definition notification_operation (event : DomainEvent) : X unit :=
  xbind (call (LOperation "notificationRepository.save")
              (notificationRepository_save (createNotification (event_payload event))))
        (fun savedNotification => sendNotification savedNotification).

Definition handleNotificationRequested (event : DomainEvent) : X unit :=
  retry (notification_operation event) 3 1000.

(** [NotificationProcessorStrategy.process] *)
Definition NotificationProcessorStrategy_process (event : DomainEvent) : X unit :=
  if negb (keqb (event_type event) NOTIFICATION_REQUESTED)
  then xthrow (ThrownError
                 (mkError (String.append "Unsupported event type: "
                             (EventType_toString (event_type event)))))
  else handleNotificationRequested event.

Lemma sendDelay_bounds channel ms : sendDelay channel = Some ms -> 0 <= ms <= 100.
Proof.
  unfold sendDelay.
  destruct (String.eqb channel "EMAIL"); [intros [= <-]; lia|].
  destruct (String.eqb channel "SMS"); [intros [= <-]; lia|].
  destruct (String.eqb channel "PUSH"); [intros [= <-]; lia | discriminate].
Qed.

Lemma within_sendNotification notification : within 2 100 (sendNotification notification).
Proof.
  intros w. unfold sendNotification, trySend.
  destruct (sendDelay (notification_channel notification)) as [ms|] eqn:D.
  - pose proof (sendDelay_bounds _ D) as Hms.
    pose proof (actions_sleep ms w) as Hsl.
    set (w1 := fst (sleep ms w)) in *.
    set (sent := markSent (clock w1) notification).
    destruct (call_cases (LOperation "notificationRepository.save")
                (notificationRepository_save sent) w1)
      as [(v & w2 & -> & Ha)|(e & w2 & -> & Ha)].
    + eexists. split; [cbn [fst]; rewrite Ha, Hsl, <- app_assoc; reflexivity|].
      split; [cbv; lia | cbv [total_sleep sleeps fold_right app]; lia].
    + cbn [message_of]. unfold xbind.
      destruct (call_cases (LOperation "notificationRepository.save")
                  (notificationRepository_save (markFailed sent)) w2)
        as [(v3 & w3 & -> & Ha3)|(e3 & w3 & -> & Ha3)];
        (eexists; split;
         [cbn [fst xthrow]; rewrite Ha3, Ha, Hsl, <- !app_assoc; reflexivity|];
         split; [cbv; lia | cbv [total_sleep sleeps fold_right app]; lia]).
  - cbn [message_of]. unfold xbind.
    destruct (call_cases (LOperation "notificationRepository.save")
                (notificationRepository_save (markFailed notification)) w)
      as [(v3 & w3 & -> & Ha3)|(e3 & w3 & -> & Ha3)];
      (eexists; split; [cbn [fst xthrow]; rewrite Ha3; reflexivity|];
       split; [cbv; lia | cbv [total_sleep sleeps fold_right app]; lia]).
Qed.

Lemma within_notification_operation event : within 3 100 (notification_operation event).
Proof.
  unfold notification_operation.
  apply (@within_xbind _ _ _ _ _ _ 1 0 2 100); [apply within_call | | lia].
  intros savedNotification. apply within_sendNotification.
Qed.

(** X18. [sendNotification] resolves only when the channel is one of
    EMAIL, SMS and PUSH and the record, marked SENT, is saved.  For any
    other channel nothing is sent and no time passes.  In every failing
    case the record is marked FAILED and saved once more (after a failed
    save it still carries the SENT stamp), and the call rejects with the
    first error, or with the error of that second save when it fails too.
    There are at most two saves and 100 ms of sleep. *)
Theorem X18_send_notification_marks_failures_and_rethrows
    (notification : Notification) (w : Ext) :
  match sendDelay (notification_channel notification) with
  | None =>
      sendNotification notification w
      = xbind (call (LOperation "notificationRepository.save")
                    (notificationRepository_save (markFailed notification)))
              (fun _ => xthrow (ThrownError
                                  (unsupportedChannel (notification_channel notification))))
              w
  | Some ms =>
      0 <= ms <= 100
      /\ match call (LOperation "notificationRepository.save")
                    (notificationRepository_save
                       (markSent (clock (fst (sleep ms w))) notification))
                    (fst (sleep ms w)) with
         | (w2, inr _) => sendNotification notification w = (w2, inr tt)
         | (w2, inl error) =>
             sendNotification notification w
             = xbind (call (LOperation "notificationRepository.save")
                           (notificationRepository_save
                              (markFailed
                                 (markSent (clock (fst (sleep ms w))) notification))))
                     (fun _ => xthrow error) w2
         end
  end
  /\ within 2 100 (sendNotification notification).
Proof.
  split; [|apply within_sendNotification].
  unfold sendNotification, trySend.
  destruct (sendDelay (notification_channel notification)) as [ms|] eqn:D.
  - split; [exact (sendDelay_bounds _ D)|].
    destruct (call_cases (LOperation "notificationRepository.save")
                (notificationRepository_save
                   (markSent (clock (fst (sleep ms w))) notification))
                (fst (sleep ms w)))
      as [(v & w2 & -> & _)|(e & w2 & -> & _)]; reflexivity.
  - reflexivity.
Qed.

(** X19. One notification event in a batch costs at most 27 saves and
    12.9 seconds of sleep: [processEventWithRetry] runs the handler's
    [process] up to 3 times, [process] runs its operation up to 3 times,
    and a run of the operation saves at most 3 times (the new record, the
    SENT or the FAILED one) and sleeps at most 100 ms.  An event of another
    type costs no call and 3 seconds, and rejects with "Unsupported event
    type: <type>". *)
Theorem X19_one_batched_notification_event_costs_at_most_nine_runs
    (event : DomainEvent) :
  within 27 12900 (processEventWithRetry NotificationProcessorStrategy_process event 3)
  /\ (event_type event <> NOTIFICATION_REQUESTED ->
      fails_with [] 3000
                 (mkError (String.append "Unsupported event type: "
                             (EventType_toString (event_type event))))
                 (processEventWithRetry NotificationProcessorStrategy_process event 3)).
Proof.
  split.
  - eapply within_ext; [intros w; apply processEventWithRetry_retry|].
    assert (Hp : within 9 3300 (NotificationProcessorStrategy_process event)).
    { unfold NotificationProcessorStrategy_process.
      destruct (negb (keqb (event_type event) NOTIFICATION_REQUESTED)).
      - apply (@within_weaken _ _ _ _ 0%nat 0); [apply within_xthrow | lia | lia].
      - exact (@retry_within _ _ _ _ 3%nat 100 3%nat 1000
                 (within_notification_operation event) ltac:(lia) ltac:(lia)). }
    exact (@retry_within _ _ _ _ 9%nat 3300 3%nat 1000 Hp ltac:(lia) ltac:(lia)).
  - intros N.
    eapply fails_with_ext; [intros w; apply processEventWithRetry_retry|].
    assert (Hin : fails_with [] 0
                    (mkError (String.append "Unsupported event type: "
                                (EventType_toString (event_type event))))
                    (NotificationProcessorStrategy_process event)).
    { unfold NotificationProcessorStrategy_process.
      replace (keqb (event_type event) NOTIFICATION_REQUESTED) with false
        by (symmetry; now apply keqb_neq).
      cbn [negb]. intros w. exists []. cbn. rewrite app_nil_r. repeat split. }
    exact (@retry_fails_with _ _ _ _ _ _ _ 3%nat 1000 Hin ltac:(lia)).
Qed.
End NotificationStrategy.

(** * Grouping notifications by channel
      (modules/notification/strategies/notification-processor.strategy.ts) *)

Inductive NotificationChannel : Type := EMAIL | SMS | PUSH.

Definition NotificationChannel_eq_dec (a b : NotificationChannel) : {a = b} + {a <> b}.
Proof. decide equality. Defined.

#[export] Instance NotificationChannel_EqKey : EqKey NotificationChannel.
Proof.
  refine {| keqb := fun a b => if NotificationChannel_eq_dec a b then true else false |}.
  intros a b. destruct (NotificationChannel_eq_dec a b); split; congruence.
Defined.

Section Grouping.

(** A notification record; its [channel] is the [NotificationChannel] of
    the event's payload. *)
Variable Notification : Type.
Variable channel : Notification -> NotificationChannel.

(** The callback of the [reduce]: [acc] is an object used as a map, whose
    property order is insertion order. *)
Definition groupStep (acc : JsMap.t NotificationChannel (list Notification))
    (notification : Notification) : JsMap.t NotificationChannel (list Notification) :=
  let acc1 :=
    match JsMap.get (channel notification) acc with
    | None => JsMap.set (channel notification) [] acc
    | Some _ => acc
    end in
  match JsMap.get (channel notification) acc1 with
  | Some group => JsMap.set (channel notification) (group ++ [notification]) acc1
  | None => acc1
  end.

Definition groupNotificationsByChannel (notifications : list Notification)
  : JsMap.t NotificationChannel (list Notification) :=
  fold_left groupStep notifications JsMap.empty.

Definition onChannel (c : NotificationChannel) (notifications : list Notification)
  : list Notification :=
  filter (fun notification => keqb (channel notification) c) notifications.

Lemma groupStep_set acc notification :
  groupStep acc notification
  = JsMap.set (channel notification)
      (match JsMap.get (channel notification) acc with
       | Some group => group ++ [notification]
       | None => [notification]
       end) acc.
Proof.
  unfold groupStep.
  destruct (JsMap.get (channel notification) acc) as [group|] eqn:G.
  - now rewrite G.
  - rewrite JsMap.get_set_same, JsMap.set_set. reflexivity.
Qed.

Lemma get_fold_groupStep c notifications :
  forall acc,
    JsMap.get c (fold_left groupStep notifications acc)
    = match JsMap.get c acc, onChannel c notifications with
      | None, [] => None
      | None, group => Some group
      | Some before, group => Some (before ++ group)
      end.
Proof.
  induction notifications as [|n ns IH]; intros acc; cbn [fold_left onChannel filter].
  - destruct (JsMap.get c acc); [now rewrite app_nil_r | reflexivity].
  - rewrite IH, groupStep_set. fold (onChannel c ns).
    destruct (keqb (channel n) c) eqn:E.
    + apply keqb_eq in E. subst c. rewrite JsMap.get_set_same.
      destruct (JsMap.get (channel n) acc) as [before|];
        destruct (onChannel (channel n) ns); cbn [app];
        rewrite <- ?app_assoc; reflexivity.
    + apply keqb_neq in E. rewrite JsMap.get_set_other by congruence.
      reflexivity.
Qed.

Lemma wf_fold_groupStep notifications :
  forall acc, JsMap.wf acc -> JsMap.wf (fold_left groupStep notifications acc).
Proof.
  induction notifications as [|n ns IH]; intros acc W; cbn [fold_left]; [exact W|].
  apply IH. rewrite groupStep_set. now apply JsMap.wf_set.
Qed.

Definition groupedCount (acc : JsMap.t NotificationChannel (list Notification)) : nat :=
  list_sum (map (fun entry => List.length (snd entry)) (JsMap.entries acc)).

Lemma groupedCount_set c group acc :
  (groupedCount (JsMap.set c group acc)
   + match JsMap.get c acc with Some before => List.length before | None => 0 end
   = groupedCount acc + List.length group)%nat.
Proof.
  unfold groupedCount, JsMap.entries.
  induction acc as [|[c' group'] acc IH]; cbn [JsMap.set JsMap.get map list_sum fold_right snd].
  - lia.
  - destruct (keqb c c'); cbn [map list_sum fold_right snd]; [lia|].
    unfold list_sum in IH. lia.
Qed.

Lemma groupedCount_fold notifications :
  forall acc,
    groupedCount (fold_left groupStep notifications acc)
    = (groupedCount acc + List.length notifications)%nat.
Proof.
  induction notifications as [|n ns IH]; intros acc; cbn [fold_left List.length]; [lia|].
  rewrite IH, groupStep_set.
  pose proof (groupedCount_set (channel n)
                (match JsMap.get (channel n) acc with
                 | Some group => group ++ [n]
                 | None => [n]
                 end) acc) as H.
  destruct (JsMap.get (channel n) acc) as [before|];
    rewrite ?length_app in H; cbn [List.length] in H; lia.
Qed.

(** X20. [groupNotificationsByChannel] is a stable partition: the group
    of a channel holds the notifications of that channel, all of them, in
    the order of the input; a channel with no notification has no entry;
    no channel has two entries. *)
Theorem X20_grouping_is_a_stable_partition
    (notifications : list Notification) (c : NotificationChannel) :
  JsMap.get c (groupNotificationsByChannel notifications)
  = match onChannel c notifications with
    | [] => None
    | group => Some group
    end
  /\ JsMap.wf (groupNotificationsByChannel notifications)
  /\ groupedCount (groupNotificationsByChannel notifications)
     = List.length notifications.
Proof.
  split; [|split].
  - unfold groupNotificationsByChannel. now rewrite get_fold_groupStep.
  - apply wf_fold_groupStep, JsMap.wf_empty.
  - apply (groupedCount_fold notifications JsMap.empty).
Qed.
End Grouping.

(** * Where the appended events end up
      (modules/batch/services/batch-processor.service.ts) *)

Section BatchSlices.

Variable Env : Type.
Variable Payload : Type.
Variable uuidv4 : nat -> string.

Local Abbreviation World := (World Env Payload).
Local Abbreviation BatchProcessorService := (BatchProcessorService Env Payload).




End BatchSlices.

(** * Eviction of finished jobs
      (modules/batch/services/batch-processor.service.ts) *)

Section Eviction.

Variable Env : Type.
Variable Payload : Type.
Variable uuidv4 : nat -> string.

Local Abbreviation World := (World Env Payload).
Local Abbreviation BatchProcessorService := (BatchProcessorService Env Payload).

(** Every job in the active map has an eviction scheduled, at most a
    minute from now. *)
Definition evictions_scheduled (w : World) : Prop :=
  forall id job,
    In (id, job) (JsMap.entries (activeBatches w)) ->
    exists t, In (t, id) (timers w) /\ t <= clock (ext w) + 60000.

Lemma In_fold_delete {V} (kv : string * V) (ids : list (Millis * string)) :
  forall m : JsMap.t string V,
    In kv (fold_left (fun m tm => JsMap.delete (snd tm) m) ids m) ->
    In kv m /\ forall tm, In tm ids -> fst kv <> snd tm.
Proof.
  induction ids as [|tm ids IH]; intros m Hin; cbn [fold_left] in Hin.
  - split; [exact Hin | intros tm []].
  - destruct (IH _ Hin) as [Hd Hrest].
    apply JsMap.In_delete in Hd. destruct Hd as [Hm Hne].
    split; [exact Hm|]. intros tm' [<-|Hin']; auto.
Qed.

(** While the service waits, the jobs whose evictions fall due leave the
    map; the evictions of the others stay scheduled. *)
Lemma with_ext_scheduled (P : string -> Prop) (e : Ext Env Payload) (w : World) :
  clock (ext w) <= clock e ->
  (forall id job,
      In (id, job) (JsMap.entries (activeBatches w)) ->
      P id \/ exists t, In (t, id) (timers w) /\ t <= clock (ext w) + 60000) ->
  forall id job,
    In (id, job) (JsMap.entries (activeBatches (with_ext e w))) ->
    P id \/ exists t, In (t, id) (timers (with_ext e w)) /\ t <= clock e + 60000.
Proof.
  intros Hclock Hw id job Hin. unfold with_ext, runTimers in *.
  cbn [ext pendingBatches activeBatches clock timers JsMap.entries] in *.
  apply In_fold_delete in Hin. destruct Hin as [Hin Hkept]. cbn [fst] in Hkept.
  destruct (Hw id job Hin) as [HP|(t & Ht & Hle)]; [now left|right].
  exists t. split; [|lia].
  apply filter_In. split; [exact Ht|]. cbn [fst].
  destruct (t <=? clock e) eqn:L; [|reflexivity].
  exfalso. apply (Hkept (t, id)); [|reflexivity].
  apply filter_In. split; [exact Ht | exact L].
Qed.

Lemma flushed_scheduled (this : BatchProcessorService) eventType batch (w : World) :
  evictions_scheduled w ->
  evictions_scheduled (fst (flushed uuidv4 this eventType batch w)).
Proof.
  intros Hw id job Hin.
  pose proof (@clock_runBatch _ _ this eventType (batch_events batch) (ext w)) as Hclock.
  rewrite flushed_timers, flushed_ext.
  rewrite flushed_resumed in Hin.
  cbn [setTimeout_delete set_activeBatches activeBatches JsMap.entries] in Hin.
  set (id0 := uuidv4 (uuidCalls w)) in *.
  set (c := clock (fst (runBatch this eventType (batch_events batch) (ext w)))) in *.
  assert (Hstarted : forall id job,
             In (id, job) (JsMap.entries (activeBatches (started uuidv4 eventType batch w))) ->
             id = id0
             \/ exists t, In (t, id) (timers (started uuidv4 eventType batch w))
                          /\ t <= clock (ext (started uuidv4 eventType batch w)) + 60000).
  { intros id' job' Hin'. cbn [started activeBatches timers ext JsMap.entries] in *.
    apply JsMap.In_set in Hin'. destruct Hin' as [E|Hin'].
    - injection E as -> _. now left.
    - right. apply (Hw id' job' Hin'). }
  assert (Hres : forall id job,
             In (id, job) (activeBatches (resumed uuidv4 this eventType batch w)) ->
             id = id0
             \/ exists t, In (t, id) (timers (resumed uuidv4 this eventType batch w))
                          /\ t <= c + 60000).
  { unfold resumed, c, runBatch.
    destruct (createProcessor (processorFactory this) eventType) as [p|].
    - apply (@with_ext_scheduled (fun id => id = id0)); [|exact Hstarted].
      apply (@clock_processAll _ _ p (batch_events batch) (ext w)).
    - exact Hstarted. }
  assert (Hcases : id = id0
                   \/ In (id, job) (activeBatches (resumed uuidv4 this eventType batch w))).
  { unfold finishJob in Hin.
    destruct (JsMap.get id0 (activeBatches (resumed uuidv4 this eventType batch w)));
      [|now right].
    apply JsMap.In_set in Hin. destruct Hin as [E|Hin]; [|now right].
    injection E as -> _. now left. }
  assert (Hid : id = id0
                \/ exists t, In (t, id) (timers (resumed uuidv4 this eventType batch w))
                             /\ t <= c + 60000).
  { destruct Hcases as [E|Hin']; [now left | exact (Hres _ _ Hin')]. }
  destruct Hid as [->|(t & Ht & Hle)].
  - exists (c + 60000). split; [apply in_or_app; right; left; reflexivity | lia].
  - exists t. split; [apply in_or_app; now left | exact Hle].
Qed.

Lemma processBatch_scheduled (this : BatchProcessorService) eventType (w : World) :
  evictions_scheduled w ->
  evictions_scheduled (fst (processBatch uuidv4 this eventType w)).
Proof.
  intros Hw.
  destruct (@processBatch_cases _ _ uuidv4 this eventType w)
    as [[_ E]|(batch & _ & _ & _ & E)]; rewrite E; [exact Hw|].
  now apply flushed_scheduled.
Qed.

Lemma forEach_processBatch_scheduled (this : BatchProcessorService) types :
  forall w : World,
    evictions_scheduled w ->
    evictions_scheduled (fst (forEach types (processBatch uuidv4 this) w)).
Proof.
  induction types as [|t types IH]; intros w Hw; cbn [forEach]; [exact Hw|].
  unfold mbind.
  pose proof (processBatch_scheduled this t Hw) as H1.
  pose proof (@processBatch_resolves _ _ uuidv4 this t w) as Hr.
  destruct (processBatch uuidv4 this t w) as [w1 r]. cbn [fst snd] in *. subst r.
  now apply IH.
Qed.

Lemma addEventToBatch_scheduled (this : BatchProcessorService) event (w : World) :
  evictions_scheduled w ->
  evictions_scheduled (fst (addEventToBatch uuidv4 this event w)).
Proof.
  intros Hw.
  destruct (createProcessor (processorFactory this) (event_type event)) as [p|] eqn:Hp.
  2:{ rewrite addEventToBatch_skips by (intros q Hq; congruence). exact Hw. }
  destruct (supportsBatchProcessing p) eqn:Hs.
  2:{ rewrite addEventToBatch_skips by (intros q Hq; congruence). exact Hw. }
  rewrite (@addEventToBatch_batching _ _ uuidv4 this event w p Hp Hs). cbv zeta.
  match goal with |- context [if ?c then _ else _] => destruct c end.
  - apply flushed_scheduled. exact Hw.
  - exact Hw.
Qed.

Lemma runOperation_scheduled (this : BatchProcessorService) op (w : World) :
  evictions_scheduled w ->
  evictions_scheduled (fst (runOperation uuidv4 this op w)).
Proof.
  intros Hw. destruct op as [event| |[t|]]; cbn [runOperation].
  - now apply addEventToBatch_scheduled.
  - unfold processTimedOutBatches. cbv zeta.
    destruct (Nat.ltb 0 (List.length (timedOutBatches this w)));
      [now apply forEach_processBatch_scheduled | exact Hw].
  - cbn [forceBatchProcessing]. now apply processBatch_scheduled.
  - cbn [forceBatchProcessing]. now apply forEach_processBatch_scheduled.
Qed.

Lemma elapse_scheduled dt (w : World) :
  evictions_scheduled w -> evictions_scheduled (elapse dt w).
Proof.
  intros Hw id job Hin. unfold elapse in *.
  destruct (@with_ext_scheduled (fun _ => False)
              (mkExt (clock (ext w) + Z.of_N dt) (env (ext w)) (trace (ext w))) w)
    with (id := id) (job := job) as [[]|H]; [cbn; lia | | exact Hin | exact H].
  intros id' job' Hin'. right. exact (Hw id' job' Hin').
Qed.

Lemma runSchedule_scheduled (this : BatchProcessorService) schedule :
  forall w : World,
    evictions_scheduled w ->
    evictions_scheduled (runSchedule uuidv4 this schedule w).
Proof.
  induction schedule as [|[dt op] schedule IH]; intros w Hw; cbn [runSchedule];
    [exact Hw|].
  apply IH, runOperation_scheduled, elapse_scheduled, Hw.
Qed.

(** X22. No job stays in the active map for good: after any history of
    public operations, once a minute has passed without a further
    operation the active map is empty. *)
Theorem X22_active_map_is_empty_a_minute_after_the_last_operation
    (this : BatchProcessorService) (e0 : Ext Env Payload)
    (schedule : list (N * PublicOperation Payload)) (dt : N) :
  60000 <= Z.of_N dt ->
  getActiveBatches (elapse dt (runSchedule uuidv4 this schedule (initialWorld e0))) = [].
Proof.
  intros Hdt.
  assert (Hs : evictions_scheduled (runSchedule uuidv4 this schedule (initialWorld e0))).
  { apply runSchedule_scheduled. intros id job []. }
  set (w := runSchedule uuidv4 this schedule (initialWorld e0)) in *.
  unfold getActiveBatches, JsMap.values.
  assert (Hnone : forall id, JsMap.get id (activeBatches (elapse dt w)) = None).
  { intros id. unfold elapse, with_ext, runTimers.
    cbn [ext pendingBatches activeBatches clock timers].
    rewrite get_fold_delete.
    destruct (JsMap.get id (activeBatches w)) as [job|] eqn:G.
    - apply JsMap.get_In in G. destruct (Hs id job G) as (t & Ht & Hle).
      replace (existsb _ _) with true; [reflexivity|].
      symmetry. apply existsb_exists. exists (t, id). split.
      + apply filter_In. split; [exact Ht|]. cbn [fst]. apply Z.leb_le. lia.
      + apply keqb_refl.
    - now destruct (existsb _ _). }
  destruct (activeBatches (elapse dt w)) as [|[id job] rest]; [reflexivity|].
  specialize (Hnone id). cbn [JsMap.get] in Hnone. rewrite keqb_refl in Hnone.
  discriminate.
Qed.
End Eviction.

(** * The HTTP endpoints (modules/event-processor/event.controller.ts) *)

Section Controller.

Variable Env : Type.
Variable Payload : Type.
Variable uuidv4 : nat -> string.

Local Abbreviation World := (World Env Payload).
Local Abbreviation M := (M Env Payload).
Local Abbreviation EventProcessorService := (EventProcessorService Env Payload).
Local Abbreviation DomainEvent := (DomainEvent Payload).

(** The request bodies, and the payloads built from them. *)
Variable CreateOrderEventDto : Type.
Variable CreateNotificationEventDto : Type.
Variable dto_channel : CreateNotificationEventDto -> NotificationChannel.
(** [{ orderId, customerId: dto.customerId, items: dto.items, totalAmount: dto.totalAmount }] *)
Variable orderPayload : string -> CreateOrderEventDto -> Payload.
(** [{ recipientId: dto.recipientId, channel: dto.channel, ... }] *)
Variable notificationPayload : CreateNotificationEventDto -> Payload.
(** The payload of the [i]-th test notification, from [i], its channel,
    [Math.floor(Math.random() * 1000)] and [Date.now()]. *)
Variable testPayload : nat -> NotificationChannel -> nat -> Millis -> Payload.
(** [Math.floor(Math.random() * 1000)]: the generator's state is part of
    the environment. *)
Variable Math_random : Env -> Env * nat.

Record OrderEventResponseDto : Type := mkOrderEventResponse {
  order_message : string;
  order_eventId : string;
  order_orderId : string
}.

Record NotificationEventResponseDto : Type := mkNotificationEventResponse {
  notification_message : string;
  notification_eventId : string;
  notification_channel : NotificationChannel
}.

Record BulkNotificationResponseDto : Type := mkBulkNotificationResponse {
  bulk_message : string;
  bulk_eventIds : list string;
  bulk_totalEvents : Z
}.

Definition draw_random : M nat :=
  fun w =>
    let '(s, r) := Math_random (env (ext w)) in
    (mkWorld (mkExt (clock (ext w)) s (trace (ext w)))
             (pendingBatches w) (activeBatches w) (uuidCalls w) (timers w),
     inr r).

(** [publishOrderEvent] and [publishNotificationEvent] log and call
    [processEvent]. *)
Definition publishOrderEvent (this : EventProcessorService) (event : DomainEvent) : M unit :=
  processEvent uuidv4 this event.

Definition publishNotificationEvent (this : EventProcessorService) (event : DomainEvent)
  : M unit :=
  processEvent uuidv4 this event.

(** [createOrderEvent(dto)] *)
Definition createOrderEvent (this : EventProcessorService) (dto : CreateOrderEventDto)
  : M OrderEventResponseDto :=
  mbind (draw_uuid uuidv4) (fun id =>
  mbind (@now Env Payload) (fun timestamp =>
  mbind (draw_uuid uuidv4) (fun orderId =>
  mbind (publishOrderEvent this
           (mkEvent id ORDER_CREATED timestamp None 1 (orderPayload orderId dto)))
        (fun _ =>
           mret (mkOrderEventResponse "Order event published successfully" id orderId))))).

(** [createNotificationEvent(dto)] *)
Definition createNotificationEvent (this : EventProcessorService)
    (dto : CreateNotificationEventDto) : M NotificationEventResponseDto :=
  mbind (draw_uuid uuidv4) (fun id =>
  mbind (@now Env Payload) (fun timestamp =>
  mbind (publishNotificationEvent this
           (mkEvent id NOTIFICATION_REQUESTED timestamp None 1 (notificationPayload dto)))
        (fun _ =>
           mret (mkNotificationEventResponse "Notification event published successfully"
                                             id (dto_channel dto))))).

Definition channels : list NotificationChannel := [EMAIL; SMS; PUSH].

Definition bulkEvent (i : nat) (id : string) (timestamp : Millis) (random : nat)
  : DomainEvent :=
  mkEvent id NOTIFICATION_REQUESTED timestamp None 1
          (testPayload i (nth (i mod List.length channels) channels EMAIL) random timestamp).

(** The [for] loop of [createBulkNotificationEvents], over the values of
    [i] still to come, with [eventIds] as filled so far. *)
Fixpoint bulkLoop (this : EventProcessorService) (indices : list nat)
    (eventIds : list string) : M (list string) :=
  match indices with
  | [] => mret eventIds
  | i :: indices' =>
      mbind (draw_uuid uuidv4) (fun id =>
      mbind (@now Env Payload) (fun timestamp =>
      mbind draw_random (fun random =>
      mbind (publishNotificationEvent this (bulkEvent i id timestamp random))
            (fun _ => bulkLoop this indices' (eventIds ++ [id])))))
  end.

Definition invalidCount : Thrown :=
  ThrownError (mkError "Count must be a positive number between 1 and 1000").

Definition decimal (n : Z) : string := NilZero.string_of_uint (Nat.to_uint (Z.to_nat n)).

(** [createBulkNotificationEvents(count)], from [parseInt(count, 10)]: an
    integer, or [None] for NaN. *)
Definition createBulkNotificationEvents (this : EventProcessorService)
    (eventCount : option Z) : M BulkNotificationResponseDto :=
  match eventCount with
  | None => mthrow invalidCount
  | Some eventCount =>
      if (eventCount <=? 0) || (eventCount >? 1000) then mthrow invalidCount
      else
        mbind (bulkLoop this (seq 0 (Z.to_nat eventCount)) [])
              (fun eventIds =>
                 mret (mkBulkNotificationResponse
                         (String.append (decimal eventCount)
                            " notification events published for batch processing test")
                         (firstn 10 eventIds) eventCount))
  end.

(** ** The bulk endpoint on the application as wired *)

(** [k] notifications are waiting, in a batch that holds 100. *)
Definition queued (k : nat) (w : World) : Prop :=
  match JsMap.get NOTIFICATION_REQUESTED (pendingBatches w) with
  | None => k = 0%nat
  | Some batch =>
      List.length (batch_events batch) = k
      /\ batch_maxSize batch = 100
      /\ (1 <= k < 100)%nat
  end.

Lemma processEvent_batch_path (this : EventProcessorService) event processor (w : World) :
  createProcessor (dispatcherFactory this) (event_type event) = Some processor ->
  supportsBatchProcessing processor = true ->
  processEvent uuidv4 this event w
  = liftX (notify (eventSubject this) event)
          (fst (addEventToBatch uuidv4 (batchProcessor this) event w)).
Proof.
  intros Hp Hs. unfold processEvent. rewrite Hp, Hs. unfold mcatch, mbind.
  pose proof (addEventToBatch_resolves uuidv4 (batchProcessor this) event w) as Ha.
  destruct (addEventToBatch uuidv4 (batchProcessor this) event w) as [w1 r1].
  cbn [fst snd] in *. rewrite Ha.
  pose proof (liftX_notify_resolves (eventSubject this) event w1) as Hn.
  destruct (liftX (notify (eventSubject this) event) w1) as [w2 r2].
  cbn [snd] in Hn. now rewrite Hn.
Qed.

Lemma liftX_keeps {A} (c : X Env Payload A) (w : World) :
  pendingBatches (fst (liftX c w)) = pendingBatches w
  /\ uuidCalls (fst (liftX c w)) = uuidCalls w.
Proof. unfold liftX. destruct (c (ext w)) as [e r]. now split. Qed.

Section Wired.

Variable batchSize batchTimeout : Z.
Variable orderProcess notificationProcess : DomainEvent -> Behaviour Env unit.
Variable auditObserver : ObserverObject Env Payload.

Definition wired : EventProcessorService :=
  onModuleInit batchSize batchTimeout (OrderProcessorStrategy orderProcess)
               (NotificationProcessorStrategy notificationProcess) auditObserver.

Lemma publish_step (event : DomainEvent) (k : nat) (w : World) :
  event_type event = NOTIFICATION_REQUESTED ->
  queued k w ->
  snd (processEvent uuidv4 wired event w) = inr tt
  /\ if Nat.ltb (S k) 100
     then queued (S k) (fst (processEvent uuidv4 wired event w))
          /\ uuidCalls (fst (processEvent uuidv4 wired event w)) = uuidCalls w
     else queued 0 (fst (processEvent uuidv4 wired event w))
          /\ uuidCalls (fst (processEvent uuidv4 wired event w)) = S (uuidCalls w).
Proof.
  intros Ht Hq.
  assert (Hp : createProcessor (dispatcherFactory wired) (event_type event)
               = Some (NotificationProcessorStrategy notificationProcess)).
  { unfold wired. rewrite createProcessor_onModuleInit, Ht. reflexivity. }
  rewrite (@processEvent_batch_path wired event _ w Hp eq_refl).
  split; [apply liftX_notify_resolves|].
  destruct (liftX_keeps (notify (eventSubject wired) event)
              (fst (addEventToBatch uuidv4 (batchProcessor wired) event w))) as [Kp Kt].
  unfold queued in *. rewrite Kp, Kt. clear Kp Kt.
  unfold dispatcherFactory in Hp.
  rewrite (@addEventToBatch_batching _ _ uuidv4 (batchProcessor wired) event w _ Hp eq_refl).
  cbv zeta. rewrite Ht in *.
  set (cur := currentBatch (NotificationProcessorStrategy notificationProcess)
                NOTIFICATION_REQUESTED w).
  assert (Hcur : List.length (batch_events cur) = k /\ batch_maxSize cur = 100
                 /\ (k < 100)%nat).
  { unfold cur, currentBatch.
    destruct (JsMap.get NOTIFICATION_REQUESTED (pendingBatches w)) as [b|].
    - destruct Hq as (Hl & Hm & Hk). repeat split; auto; lia.
    - subst k. cbn. repeat split; lia. }
  destruct Hcur as (Hl & Hm & Hk).
  cbn [extend batch_events batch_maxSize]. rewrite length_app, Hl, Hm.
  cbn [List.length].
  destruct (Nat.ltb (S k) 100) eqn:L.
  - apply Nat.ltb_lt in L.
    replace (Z.of_nat (k + 1) >=? 100) with false
      by (symmetry; rewrite Z.geb_leb; apply Z.leb_gt; lia).
    unfold withPending, set_pendingBatches. cbn [fst pendingBatches uuidCalls].
    rewrite JsMap.get_set_same. unfold extend. cbn [batch_events batch_maxSize].
    rewrite length_app, Hl. cbn [List.length]. repeat split; lia.
  - apply Nat.ltb_ge in L.
    replace (Z.of_nat (k + 1) >=? 100) with true
      by (symmetry; apply Z.geb_le; lia).
    rewrite flushed_pending.
    match goal with |- context [uuidCalls (fst (flushed uuidv4 ?t ?e ?b ?w0))] =>
      pose proof (@flushed_flushes _ _ uuidv4 t e b w0) as Hfl
    end.
    unfold flushes in Hfl. rewrite Hfl.
    unfold withPending, set_pendingBatches. cbn [fst pendingBatches uuidCalls].
    rewrite JsMap.get_delete_same. split; reflexivity.
Qed.

(** The ids that a run of the loop draws for its events when [k] events
    are waiting at its start: the counter moves by one for each event and
    by one more for each flush. *)
Definition drawnIds (first k count : nat) : list string :=
  map (fun j => uuidv4 (first + j + (k + j) / 100)) (seq 0 count).

Lemma drawnIds_S first k count :
  (k < 100)%nat ->
  drawnIds first k (S count)
  = uuidv4 first
    :: (if Nat.ltb (S k) 100 then drawnIds (S first) (S k) count
        else drawnIds (S (S first)) 0 count).
Proof.
  intros Hk. unfold drawnIds. cbn [seq map]. f_equal.
  - f_equal. rewrite Nat.add_0_r, Nat.div_small by lia. lia.
  - rewrite <- seq_shift, map_map.
    destruct (Nat.ltb (S k) 100) eqn:L; apply map_ext; intros j.
    + f_equal. replace (k + S j)%nat with (S k + j)%nat by lia. lia.
    + apply Nat.ltb_ge in L. assert (k = 99%nat) by lia. subst k. f_equal.
      replace (99 + S j)%nat with (j + 1 * 100)%nat by lia.
      rewrite Nat.div_add by lia. cbn [Nat.add]. lia.
Qed.

Lemma bulkLoop_counts (indices : list nat) :
  forall (k : nat) (eventIds : list string) (w : World),
    queued k w -> (k < 100)%nat ->
    snd (bulkLoop wired indices eventIds w)
    = inr (eventIds ++ drawnIds (uuidCalls w) k (List.length indices))
    /\ queued ((k + List.length indices) mod 100)
              (fst (bulkLoop wired indices eventIds w))
    /\ uuidCalls (fst (bulkLoop wired indices eventIds w))
       = (uuidCalls w + List.length indices + (k + List.length indices) / 100)%nat.
Proof.
  induction indices as [|i indices IH]; intros k eventIds w Hq Hk.
  - cbn [bulkLoop mret fst snd List.length]. unfold drawnIds. cbn [seq map].
    rewrite app_nil_r, !Nat.add_0_r, Nat.mod_small, Nat.div_small by lia.
    split; [reflexivity|]. split; [exact Hq | lia].
  - destruct (Math_random (env (ext w))) as [s random] eqn:R.
    set (w0 := mkWorld (mkExt (clock (ext w)) s (trace (ext w)))
                       (pendingBatches w) (activeBatches w)
                       (S (uuidCalls w)) (timers w)).
    set (event := bulkEvent i (uuidv4 (uuidCalls w)) (clock (ext w)) random).
    assert (Hq0 : queued k w0) by exact Hq.
    assert (Hc0 : uuidCalls w0 = S (uuidCalls w)) by reflexivity.
    destruct (@publish_step event k w0 eq_refl Hq0) as [Hr Hstep].
    assert (Hrun : bulkLoop wired (i :: indices) eventIds w
                   = bulkLoop wired indices (eventIds ++ [uuidv4 (uuidCalls w)])
                       (fst (processEvent uuidv4 wired event w0))).
    { cbn [bulkLoop]. unfold mbind, draw_uuid, now, draw_random, publishNotificationEvent.
      cbn [ext env clock trace pendingBatches activeBatches uuidCalls timers].
      rewrite R. fold w0. fold event.
      destruct (processEvent uuidv4 wired event w0) as [w1 r1]. cbn [fst snd] in *.
      now subst r1. }
    rewrite Hrun. clear Hrun.
    set (w1 := fst (processEvent uuidv4 wired event w0)) in *.
    cbn [List.length]. rewrite (drawnIds_S _ _ Hk).
    destruct (Nat.ltb (S k) 100) eqn:L; destruct Hstep as [Hq1 Hc1].
    + apply Nat.ltb_lt in L.
      destruct (IH (S k) (eventIds ++ [uuidv4 (uuidCalls w)]) w1 Hq1 L)
        as (Hres & Hq2 & Hc2).
      rewrite Hres, <- app_assoc, Hc1, Hc0. cbn [app].
      replace (k + S (List.length indices))%nat with (S k + List.length indices)%nat by lia.
      split; [reflexivity|]. split; [exact Hq2|].
      rewrite Hc2, Hc1, Hc0. lia.
    + apply Nat.ltb_ge in L. assert (k = 99%nat) by lia. subst k.
      destruct (IH 0%nat (eventIds ++ [uuidv4 (uuidCalls w)]) w1 Hq1 ltac:(lia))
        as (Hres & Hq2 & Hc2).
      rewrite Hres, <- app_assoc, Hc1, Hc0. cbn [app].
      replace (99 + S (List.length indices))%nat
        with (List.length indices + 1 * 100)%nat by lia.
      rewrite Nat.Div0.mod_add, Nat.div_add by lia.
      cbn [Nat.add] in Hq2, Hc2.
      split; [reflexivity|]. split; [exact Hq2|].
      rewrite Hc2, Hc1, Hc0. lia.
Qed.

Lemma wired_processEvent_resolves (event : DomainEvent) (w : World) :
  event_type event = ORDER_CREATED \/ event_type event = NOTIFICATION_REQUESTED ->
  snd (processEvent uuidv4 wired event w) = inr tt.
Proof.
  intros Ht.
  assert (Hp : exists processor,
             createProcessor (dispatcherFactory wired) (event_type event) = Some processor
             /\ supportsBatchProcessing processor = true).
  { unfold wired. rewrite createProcessor_onModuleInit.
    destruct Ht as [-> | ->]; eexists; split; reflexivity. }
  destruct Hp as (processor & Hp & Hs).
  rewrite (@processEvent_batch_path wired event processor w Hp Hs).
  apply liftX_notify_resolves.
Qed.

End Wired.

(** X23. The bulk test endpoint.  A count that is NaN, at most 0 or above
    1000 is refused with "Count must be a positive number between 1 and
    1000" before anything is done.  For a count [n] from 1 to 1000, on the
    application as wired and with no notification waiting, the endpoint
    resolves with [totalEvents = n] and the first 10 of the ids drawn for
    the [n] events, whatever the handlers and the audit observer do: the
    event number [i] (from 0) bears the id drawn when [i] event ids and
    [i / 100] job ids have been drawn since the request came in.  A batch
    is flushed at every hundredth event: in all [n] event ids and
    [n / 100] job ids are drawn, and the last [n mod 100] events are left
    waiting. *)
Theorem X23_bulk_endpoint_publishes_and_flushes_by_the_hundred
    (batchSize batchTimeout : Z)
    (orderProcess notificationProcess : DomainEvent -> Behaviour Env unit)
    (auditObserver : ObserverObject Env Payload)
    (this : EventProcessorService) (n : nat) (w : World) :
  (1 <= n <= 1000)%nat ->
  JsMap.get NOTIFICATION_REQUESTED (pendingBatches w) = None ->
  (forall eventCount,
      match eventCount with
      | None => True
      | Some count => count <= 0 \/ 1000 < count
      end ->
      createBulkNotificationEvents this eventCount w = (w, inl invalidCount))
  /\ snd (createBulkNotificationEvents
            (wired batchSize batchTimeout orderProcess notificationProcess auditObserver)
            (Some (Z.of_nat n)) w)
     = inr (mkBulkNotificationResponse
              (String.append (decimal (Z.of_nat n))
                 " notification events published for batch processing test")
              (firstn 10 (map (fun i => uuidv4 (uuidCalls w + i + i / 100)) (seq 0 n)))
              (Z.of_nat n))
  /\ uuidCalls (fst (createBulkNotificationEvents
                       (wired batchSize batchTimeout orderProcess notificationProcess
                              auditObserver)
                       (Some (Z.of_nat n)) w))
     = (uuidCalls w + n + n / 100)%nat
  /\ option_map (@List.length DomainEvent)
       (pendingEvents NOTIFICATION_REQUESTED
          (fst (createBulkNotificationEvents
                  (wired batchSize batchTimeout orderProcess notificationProcess
                         auditObserver)
                  (Some (Z.of_nat n)) w)))
     = (if Nat.eqb (n mod 100) 0 then None else Some (n mod 100)%nat).
Proof.
  intros Hn Hnone. split.
  - intros [count|] Hbad; cbn [createBulkNotificationEvents]; [|reflexivity].
    replace ((count <=? 0) || (count >? 1000)) with true; [reflexivity|].
    symmetry. apply orb_true_iff. destruct Hbad as [H|H];
      [left; apply Z.leb_le; lia | right; rewrite Z.gtb_ltb; apply Z.ltb_lt; lia].
  - cbn [createBulkNotificationEvents].
    replace ((Z.of_nat n <=? 0) || (Z.of_nat n >? 1000)) with false.
    2:{ symmetry. apply orb_false_iff. split;
          [apply Z.leb_gt; lia | rewrite Z.gtb_ltb; apply Z.ltb_ge; lia]. }
    rewrite Nat2Z.id.
    assert (Hq : queued 0 w) by (unfold queued; now rewrite Hnone).
    destruct (@bulkLoop_counts batchSize batchTimeout orderProcess notificationProcess
                auditObserver (seq 0 n) 0%nat [] w Hq ltac:(lia))
      as (Hres & Hq2 & Hc2).
    rewrite length_seq in *. cbn [Nat.add app] in *.
    unfold mbind.
    destruct (bulkLoop _ (seq 0 n) [] w) as [w' r]. cbn [fst snd] in *. subst r.
    cbn [fst snd mret]. split; [reflexivity|].
    split; [exact Hc2|].
    unfold pendingEvents. unfold queued in Hq2.
    destruct (JsMap.get NOTIFICATION_REQUESTED (pendingBatches w')) as [b|];
      cbn [option_map].
    + destruct Hq2 as (Hl & _ & Hk). rewrite Hl.
      replace (Nat.eqb (n mod 100) 0) with false
        by (symmetry; apply Nat.eqb_neq; lia).
      reflexivity.
    + rewrite Hq2. reflexivity.
Qed.

(** X24. The two event endpoints on the application as wired.  Each draws
    the event's id (the order endpoint a second one for the order), stamps
    the event with the current instant and hands it to [processEvent]; the
    request then resolves, with these ids in the response, whatever the
    handlers and the audit observer do: the state it leaves is the one
    [processEvent] leaves for that event. *)
Theorem X24_event_endpoints_always_answer
    (batchSize batchTimeout : Z)
    (orderProcess notificationProcess : DomainEvent -> Behaviour Env unit)
    (auditObserver : ObserverObject Env Payload)
    (order : CreateOrderEventDto) (notification : CreateNotificationEventDto)
    (w : World) :
  let this := wired batchSize batchTimeout orderProcess notificationProcess
                    auditObserver in
  createOrderEvent this order w
  = (fst (processEvent uuidv4 this
            (mkEvent (uuidv4 (uuidCalls w)) ORDER_CREATED (clock (ext w)) None 1
                     (orderPayload (uuidv4 (S (uuidCalls w))) order))
            (mkWorld (ext w) (pendingBatches w) (activeBatches w)
                     (S (S (uuidCalls w))) (timers w))),
     inr (mkOrderEventResponse "Order event published successfully"
            (uuidv4 (uuidCalls w)) (uuidv4 (S (uuidCalls w)))))
  /\ createNotificationEvent this notification w
     = (fst (processEvent uuidv4 this
               (mkEvent (uuidv4 (uuidCalls w)) NOTIFICATION_REQUESTED (clock (ext w)) None 1
                        (notificationPayload notification))
               (mkWorld (ext w) (pendingBatches w) (activeBatches w)
                        (S (uuidCalls w)) (timers w))),
        inr (mkNotificationEventResponse "Notification event published successfully"
               (uuidv4 (uuidCalls w)) (dto_channel notification))).
Proof.
  intros this. split.
  - unfold createOrderEvent, publishOrderEvent, mbind, draw_uuid, now.
    cbn [ext clock uuidCalls pendingBatches activeBatches timers].
    match goal with |- context [processEvent uuidv4 this ?e ?w0] =>
      pose proof (@wired_processEvent_resolves batchSize batchTimeout orderProcess
                    notificationProcess auditObserver e w0 (or_introl eq_refl)) as Hr;
      fold this in Hr;
      destruct (processEvent uuidv4 this e w0) as [w1 r1]
    end.
    cbn [fst snd] in *. now subst r1.
  - unfold createNotificationEvent, publishNotificationEvent, mbind, draw_uuid, now.
    cbn [ext clock uuidCalls pendingBatches activeBatches timers].
    match goal with |- context [processEvent uuidv4 this ?e ?w0] =>
      pose proof (@wired_processEvent_resolves batchSize batchTimeout orderProcess
                    notificationProcess auditObserver e w0 (or_intror eq_refl)) as Hr;
      fold this in Hr;
      destruct (processEvent uuidv4 this e w0) as [w1 r1]
    end.
    cbn [fst snd] in *. now subst r1.
Qed.
End Controller.

(** * The bulk path of the notification handler
      (modules/notification/strategies/notification-processor.strategy.ts) *)

Section NotificationBatch.

Variable Env : Type.
Variable Payload : Type.

Local Abbreviation X := (X Env Payload).
Local Abbreviation Ext := (Ext Env Payload).
Local Abbreviation DomainEvent := (DomainEvent Payload).

(** A notification record; its [channel] is the [NotificationChannel] of
    the event's payload. *)
Variable Notification : Type.
Variable channel : Notification -> NotificationChannel.
(** [notificationRepository.create({ recipientId, ..., status: 'PENDING' })] *)
Variable createNotification : Payload -> Notification.
(** [{ ...notification, status: 'SENT', sentAt: now }] *)
Variable asSent : Millis -> Notification -> Notification.
(** [{ ...notification, status: 'FAILED' }] *)
Variable asFailed : Notification -> Notification.

(** [notificationRepository.save] of an array. *)
Variable notificationRepository_saveAll :
  list Notification -> Behaviour Env (list Notification).

Definition saveAll (notifications : list Notification) : X (list Notification) :=
  call (LOperation "notificationRepository.save")
       (notificationRepository_saveAll notifications).

Definition markNotificationsAsSent (notifications : list Notification) : X unit :=
  fun w => xbind (saveAll (map (asSent (clock w)) notifications)) (fun _ => xret tt) w.

Definition markNotificationsAsFailed (notifications : list Notification) : X unit :=
  xbind (saveAll (map asFailed notifications)) (fun _ => xret tt).

(** The delay of [processBatchEmail], [processBatchSMS] and
    [processBatchPush]. *)
Definition batchDelay (c : NotificationChannel) : Z :=
  match c with
  | EMAIL => 200
  | SMS => 150
  | PUSH => 100
  end.

(** [processBatchByChannel]: each case of the [switch] sleeps and marks
    the group as sent.  The [default] case is for a key that is none of the
    three channels. *)
Definition processBatchByChannel (c : NotificationChannel)
    (notifications : list Notification) : X unit :=
  xbind (sleep (batchDelay c)) (fun _ => markNotificationsAsSent notifications).

(** [for (const x of xs) { await body(x) }] over the outside world. *)
Fixpoint forEachX {A} (xs : list A) (body : A -> X unit) : X unit :=
  match xs with
  | [] => xret tt
  | x :: xs' => xbind (body x) (fun _ => forEachX xs' body)
  end.

(** The body of the loop of [processBatch]: the [catch] block reads
    [error.message], marks the group as failed and does not rethrow. *)
Definition processGroup (entry : NotificationChannel * list Notification) : X unit :=
  xcatch (processBatchByChannel (fst entry) (snd entry))
         (fun error =>
            match message_of error with
            | inl typeError => xthrow (ThrownError typeError)
            | inr _ => markNotificationsAsFailed (snd entry)
            end).

(** [NotificationProcessorStrategy.processBatch] *)
Definition NotificationProcessorStrategy_processBatch (events : list DomainEvent) : X unit :=
  xbind (saveAll (map (fun event => createNotification (event_payload event)) events))
        (fun savedNotifications =>
           forEachX (JsMap.entries (groupNotificationsByChannel channel savedNotifications))
                    processGroup).

Definition delays (cs : list NotificationChannel) : Z :=
  fold_right Z.add 0 (map batchDelay cs).

Lemma distinct_channels (cs : list NotificationChannel) :
  NoDup cs -> (List.length cs <= 3)%nat /\ 0 <= delays cs <= 450.
Proof.
  intros ND.
  assert (Hlen : (List.length cs <= List.length [EMAIL; SMS; PUSH])%nat).
  { apply NoDup_incl_length; [exact ND|]. intros c _. destruct c; cbn; tauto. }
  split; [exact Hlen|].
  destruct cs as [|a [|b [|c [|d cs]]]]; [ | | | | cbn in Hlen; lia];
    repeat match goal with
           | H : NoDup (_ :: _) |- _ => inversion H; clear H; subst
           end;
    repeat match goal with c : NotificationChannel |- _ => destruct c end;
    cbn in *; try lia; exfalso; intuition congruence.
Qed.

Lemma within_saveAll_unit (notifications : Millis -> list Notification) :
  within 1 0 (fun w : Ext => xbind (saveAll (notifications (clock w))) (fun _ => xret tt) w).
Proof.
  intros w.
  apply (@within_xbind _ _ _ _ _ _ 1 0 0 0); [apply within_call | | lia].
  intros _. apply within_xret.
Qed.

Lemma within_processGroup entry :
  within 2 (batchDelay (fst entry)) (processGroup entry).
Proof.
  unfold processGroup.
  replace (batchDelay (fst entry)) with (batchDelay (fst entry) + 0) by lia.
  apply (@within_xcatch _ _ _ _ _ 1 (batchDelay (fst entry)) 1 0); [| | lia].
  - unfold processBatchByChannel.
    replace 1%nat with (0 + 1)%nat by reflexivity.
    replace (batchDelay (fst entry)) with (batchDelay (fst entry) + 0) at 1 by lia.
    apply within_xbind; [apply within_sleep | | lia].
    intros _. apply (within_saveAll_unit (fun t => map (asSent t) (snd entry))).
  - intros error. destruct (message_of error).
    + apply (@within_weaken _ _ _ _ 0%nat 0); [apply within_xthrow | lia | lia].
    + apply (within_saveAll_unit (fun _ => map asFailed (snd entry))).
Qed.

Lemma within_forEachX_processGroup entries :
  within (2 * List.length entries) (delays (map fst entries)) (forEachX entries processGroup).
Proof.
  induction entries as [|entry entries IH].
  - apply within_xret.
  - cbn [forEachX List.length map]. unfold delays in *. cbn [map fold_right].
    replace (2 * S (List.length entries))%nat with (2 + 2 * List.length entries)%nat by lia.
    apply within_xbind; [apply within_processGroup | intros _; exact IH |].
    clear IH. induction entries as [|e es IHes]; cbn [map fold_right]; [lia|].
    destruct (fst e); cbn [batchDelay]; lia.
Qed.

Lemma processBatchByChannel_error c notifications (w : Ext) :
  forall t, snd (processBatchByChannel c notifications w) = inl t ->
            exists e, t = ThrownError e.
Proof.
  intros t. unfold processBatchByChannel, xbind, sleep, markNotificationsAsSent, saveAll.
  cbn [fst snd clock]. unfold xbind.
  match goal with |- context [call ?l ?b ?w0] =>
    destruct (call_cases l b w0) as [(v & w1 & -> & _)|(e & w1 & -> & _)]
  end; cbn [xret snd].
  - discriminate.
  - intros [= <-]. eauto.
Qed.

(** X25. The bulk path has a fixed cost: whatever the number of events,
    [processBatch] makes at most 7 repository calls (the insert, and for
    each of the at most three channels the marking as sent and, when that
    fails, the marking as failed) and sleeps at most 450 ms.  When the
    insert rejects, nothing else is done and [processBatch] rejects with
    its error.  A channel whose sending fails does not stop the loop: its
    group is marked as failed, and only if that marking fails as well does
    the failure reach the caller. *)
Theorem X25_notification_bulk_path_has_a_fixed_cost (events : list DomainEvent) :
  within 7 450 (NotificationProcessorStrategy_processBatch events)
  /\ (forall w,
        match saveAll (map (fun event => createNotification (event_payload event)) events) w
        with
        | (w1, inl error) =>
            NotificationProcessorStrategy_processBatch events w = (w1, inl error)
        | (w1, inr savedNotifications) =>
            NotificationProcessorStrategy_processBatch events w
            = forEachX (JsMap.entries
                          (groupNotificationsByChannel channel savedNotifications))
                       processGroup w1
        end)
  /\ (forall entry w,
        match processBatchByChannel (fst entry) (snd entry) w with
        | (w1, inr _) => processGroup entry w = (w1, inr tt)
        | (w1, inl _) => processGroup entry w = markNotificationsAsFailed (snd entry) w1
        end).
Proof.
  split; [|split].
  - unfold NotificationProcessorStrategy_processBatch.
    apply (@within_xbind _ _ _ _ _ _ 1 0 6 450); [apply within_call | | lia].
    intros savedNotifications.
    set (entries := JsMap.entries (groupNotificationsByChannel channel savedNotifications)).
    assert (ND : NoDup (map fst entries)).
    { apply (wf_fold_groupStep channel savedNotifications). apply JsMap.wf_empty. }
    destruct (distinct_channels ND) as [Hlen Hd].
    rewrite length_map in Hlen.
    apply (@within_weaken _ _ _ _ (2 * List.length entries)%nat
             (delays (map fst entries)));
      [apply within_forEachX_processGroup | lia | lia].
  - intros w. unfold NotificationProcessorStrategy_processBatch, xbind.
    destruct (saveAll _ w) as [w1 [error|savedNotifications]]; reflexivity.
  - intros entry w. unfold processGroup, xcatch.
    pose proof (@processBatchByChannel_error (fst entry) (snd entry) w) as He.
    destruct (processBatchByChannel (fst entry) (snd entry) w) as [w1 [error|[]]];
      [|reflexivity].
    destruct (He error eq_refl) as [e ->]. reflexivity.
Qed.
End NotificationBatch.

(** * Scenarios for the properties above *)

(** An observer attached twice next to one that was there. *)
Lemma X3_observer_attached_twice_witness :
  exists acts,
    actions (fst (subject_notify
                    (attach (mkObserverObject 1 auditObserver)
                       (attach (mkObserverObject 1 auditObserver)
                          [mkObserverObject 0 mockOrderObserver]))
                    order1 freshExt))
    = actions freshExt ++ acts
    /\ invoked acts
       = [LUpdate "MockOrderObserver" order1; LUpdate "AuditObserver" order1].
Proof.
  apply (@X3_observer_attached_twice_is_notified_once nat unit
           (mkObserverObject 1 auditObserver) [mkObserverObject 0 mockOrderObserver]
           order1 freshExt).
  reflexivity.
Defined.

(** The batch of orders of [twoBatches] belongs to the order handler. *)
Lemma X7_pending_batches_witness :
  exists processor,
    createProcessor (processorFactory batchService) ORDER_CREATED = Some processor
    /\ supportsBatchProcessing processor = true
    /\ batch_maxSize (mkPendingBatch ORDER_CREATED [order1; order2] 0 25)
       = getBatchSize processor
    /\ runBatch batchService ORDER_CREATED
         (batch_events (mkPendingBatch ORDER_CREATED [order1; order2] 0 25))
       = processAll processor
           (batch_events (mkPendingBatch ORDER_CREATED [order1; order2] 0 25)).
Proof.
  apply (@X7_pending_batches_have_a_batching_handler nat unit jobId batchService
           freshExt twoOrders ORDER_CREATED
           (mkPendingBatch ORDER_CREATED [order1; order2] 0 25)).
  reflexivity.
Defined.

(** The two batches of [twoBatches], forty seconds on. *)
Definition fortySecondsOn : World nat unit := elapse 40000 twoBatches.

Lemma fortySecondsOn_wf : JsMap.wf (pendingBatches fortySecondsOn).
Proof.
  vm_compute. repeat constructor; simpl; intuition discriminate.
Qed.

Lemma X8_sweep_witness :
  (forall t batch,
      JsMap.get t (pendingBatches fortySecondsOn) = Some batch ->
      JsMap.get t (pendingBatches
                     (fst (processTimedOutBatches jobId batchService fortySecondsOn)))
      = if due batchService fortySecondsOn batch then None else Some batch)
  /\ (forall t,
        JsMap.get t (pendingBatches fortySecondsOn) = None ->
        JsMap.get t (pendingBatches
                       (fst (processTimedOutBatches jobId batchService fortySecondsOn)))
        = None)
  /\ flushes (fst (processTimedOutBatches jobId batchService fortySecondsOn))
     = (flushes fortySecondsOn
        + List.length (filter (fun entry => due batchService fortySecondsOn (snd entry))
                              (JsMap.entries (pendingBatches fortySecondsOn))))%nat
  /\ snd (processTimedOutBatches jobId batchService fortySecondsOn) = inr tt.
Proof.
  apply (@X8_sweep_flushes_exactly_the_due_batches nat unit jobId batchService
           fortySecondsOn).
  exact fortySecondsOn_wf.
Defined.

Lemma twoBatches_not_empty :
  forall t batch, In (t, batch) (JsMap.entries (pendingBatches twoBatches)) ->
                  batch_events batch <> [].
Proof.
  intros t batch Hin. vm_compute in Hin.
  destruct Hin as [Hin|[Hin|[]]]; inversion Hin; discriminate.
Qed.

Lemma X9_force_all_witness :
  pendingBatches (fst (forceBatchProcessing jobId batchService None twoBatches)) = []
  /\ flushes (fst (forceBatchProcessing jobId batchService None twoBatches))
     = (flushes twoBatches + JsMap.size (pendingBatches twoBatches))%nat
  /\ snd (forceBatchProcessing jobId batchService None twoBatches) = inr tt.
Proof.
  apply (@X9_force_all_drains_the_pending_map nat unit jobId batchService twoBatches).
  - exact twoBatches_wf.
  - exact twoBatches_not_empty.
Defined.

(** Three stock events for a handler whose batches hold two. *)
Lemma X11_bulk_appends_witness :
  flushes (fst (forEach [stock1; stock2; stock3] (addEventToBatch jobId batchService)
                        freshWorld))
  = (flushes freshWorld + 3 / 2)%nat
  /\ pendingEvents STOCK_UPDATED
       (fst (forEach [stock1; stock2; stock3] (addEventToBatch jobId batchService)
                     freshWorld))
     = Some [stock3]
  /\ snd (forEach [stock1; stock2; stock3] (addEventToBatch jobId batchService) freshWorld)
     = inr tt.
Proof.
  apply (@X11_bulk_appends_flush_every_full_batch nat unit jobId batchService
           STOCK_UPDATED pairProcessor 2%nat [stock1; stock2; stock3] freshWorld).
  - reflexivity.
  - reflexivity.
  - reflexivity.
  - lia.
  - repeat constructor.
  - reflexivity.
Defined.

Lemma X12_total_pending_events_witness :
  (Z.of_nat (List.length
               (batch_events (currentBatch pairProcessor (event_type stock1) freshWorld)) + 1)
   < batch_maxSize (currentBatch pairProcessor (event_type stock1) freshWorld) ->
   stats_totalPendingEvents
     (getBatchStatistics (fst (addEventToBatch jobId batchService stock1 freshWorld)))
   = S (stats_totalPendingEvents (getBatchStatistics freshWorld)))
  /\ (batch_maxSize (currentBatch pairProcessor (event_type stock1) freshWorld)
      <= Z.of_nat (List.length
                     (batch_events (currentBatch pairProcessor (event_type stock1)
                                                 freshWorld)) + 1) ->
      (stats_totalPendingEvents
         (getBatchStatistics (fst (addEventToBatch jobId batchService stock1 freshWorld)))
       + List.length (batch_events (currentBatch pairProcessor (event_type stock1)
                                                 freshWorld))
       = stats_totalPendingEvents (getBatchStatistics freshWorld))%nat).
Proof.
  apply (@X12_total_pending_events_follows_appends nat unit jobId batchService stock1
           pairProcessor freshWorld).
  - reflexivity.
  - reflexivity.
  - constructor.
Defined.

Lemma X14_finished_job_witness :
  JsMap.has (jobId (uuidCalls twoPending))
            (activeBatches
               (elapse 1000 (fst (processBatch jobId batchService ORDER_CREATED twoPending))))
  = (Z.of_N 1000 <? 60000).
Proof.
  apply (@X14_finished_job_is_kept_for_one_minute nat unit jobId batchService
           ORDER_CREATED twoPending (mkPendingBatch ORDER_CREATED [orderBad; order2] 0 25)
           1000%N).
  - reflexivity.
  - exact twoPending_not_empty.
  - intros [].
Defined.

Lemma X15_retry_cost_witness :
  @within nat unit string (3 * 1) (Z.of_nat 3 * 0 + 100 * (2 ^ Z.of_nat (3 - 1) - 1))
          (retry (call (LOperation "mockOperation") persistentFailure) 3 100)
  /\ (forall labels e,
        @fails_with nat unit string labels 0 e
                    (call (LOperation "mockOperation") persistentFailure) ->
        (1 <= 3)%nat ->
        fails_with (List.concat (repeat labels 3))
                   (Z.of_nat 3 * 0 + 100 * (2 ^ Z.of_nat (3 - 1) - 1)) e
                   (retry (call (LOperation "mockOperation") persistentFailure) 3 100)).
Proof.
  apply (@X15_retry_cost_is_bounded nat unit string
           (call (LOperation "mockOperation") persistentFailure) 1%nat 0 3%nat 100).
  - apply within_call.
  - lia.
  - lia.
Defined.


(** The job of the two stock events and the third one waiting. *)
Example three_stock_events :
  map (fun entry => (fst entry, job_events (snd entry)))
      (activeBatches (fst (forEach [stock1; stock2; stock3]
                                   (addEventToBatch jobId batchService) freshWorld)))
  = [("job-0", [stock1; stock2])]
  /\ pendingEvents STOCK_UPDATED
       (fst (forEach [stock1; stock2; stock3] (addEventToBatch jobId batchService)
                     freshWorld))
     = Some [stock3].
Proof. split; reflexivity. Qed.

(** Two stock events fill a batch; a minute later its job is gone. *)
Lemma X22_active_map_witness :
  getActiveBatches
    (elapse 60000
       (runSchedule jobId batchService
          [(0%N, OpAddEventToBatch stock1); (10%N, OpAddEventToBatch stock2)]
          (initialWorld freshExt)))
  = [].
Proof.
  apply (@X22_active_map_is_empty_a_minute_after_the_last_operation nat unit jobId
           batchService freshExt
           [(0%N, OpAddEventToBatch stock1); (10%N, OpAddEventToBatch stock2)] 60000%N).
  lia.
Defined.

(** The application as wired, with the handlers and the observer of the
    scenarios; every test notification gets the same random number. *)
Definition wiredApp : EventProcessorService nat unit :=
  wired 50 30000 (process orderProcessor) (process notificationProcessor)
        (mkObserverObject 0 auditObserver).

Definition bulkEndpoint (this : EventProcessorService nat unit) (eventCount : option Z)
  : M nat unit BulkNotificationResponseDto :=
  createBulkNotificationEvents jobId (fun _ _ _ _ => tt) (fun s => (s, 7%nat))
                               this eventCount.

Lemma X23_bulk_endpoint_witness :
  (forall eventCount,
      match eventCount with
      | None => True
      | Some count => count <= 0 \/ 1000 < count
      end ->
      bulkEndpoint dispatcher eventCount freshWorld = (freshWorld, inl invalidCount))
  /\ snd (bulkEndpoint wiredApp (Some (Z.of_nat 3)) freshWorld)
     = inr (mkBulkNotificationResponse
              (String.append (decimal (Z.of_nat 3))
                 " notification events published for batch processing test")
              (firstn 10 (map (fun i => jobId (uuidCalls freshWorld + i + i / 100))
                              (seq 0 3)))
              (Z.of_nat 3))
  /\ uuidCalls (fst (bulkEndpoint wiredApp (Some (Z.of_nat 3)) freshWorld))
     = (uuidCalls freshWorld + 3 + 3 / 100)%nat
  /\ option_map (@List.length (DomainEvent unit))
       (pendingEvents NOTIFICATION_REQUESTED
          (fst (bulkEndpoint wiredApp (Some (Z.of_nat 3)) freshWorld)))
     = (if Nat.eqb (3 mod 100) 0 then None else Some (3 mod 100)%nat).
Proof.
  apply (@X23_bulk_endpoint_publishes_and_flushes_by_the_hundred nat unit jobId
           (fun _ _ _ _ => tt) (fun s => (s, 7%nat)) 50 30000 (process orderProcessor)
           (process notificationProcessor) (mkObserverObject 0 auditObserver)
           dispatcher 3%nat freshWorld).
  - lia.
  - reflexivity.
Defined.

(** Three test notifications: ids [job-0], [job-1], [job-2], channels in
    turn, all three waiting in the batch of 100. *)
Example three_test_notifications :
  snd (bulkEndpoint wiredApp (Some 3) freshWorld)
  = inr (mkBulkNotificationResponse
           "3 notification events published for batch processing test"
           ["job-0"; "job-1"; "job-2"] 3)
  /\ option_map (@List.length (DomainEvent unit))
       (pendingEvents NOTIFICATION_REQUESTED
          (fst (bulkEndpoint wiredApp (Some 3) freshWorld)))
     = Some 3%nat.
Proof. split; reflexivity. Qed.
